(** * Distraction Blocker: the lock decision, the unlock ledger and the
      voice-unlock checks, embedded from [background.js]

    The file follows the two scripts of the extension that decide what is
    blocked and for how long: the service worker (domain matching, unlock
    timers, alarms, sweep) and the content script (volume table, trimmed
    mean, phrase check). It goes on with the rest of the service worker
    (installation, message dispatch, navigation listeners), the page of
    the content script (overlay, voice unlock, countdown) and the settings
    editor of the popup.

    Conventions of the embedding.
    - A JavaScript string is a [string] whose characters are read as the
      code units U+0000..U+00FF; [toLowerCase] and [trim] below are the
      ECMAScript functions restricted to that range.
    - A plain object used as a dictionary ([unlockTimers]) is a
      [gmap string _]: own string keys, one value per key.
    - [chrome.storage.local] hands out copies: a handler works on the copy
      it read and the store changes only through [storage_set_unlockTimers].
    - [Date.now()] is the argument [now] of a handler: every clock read of
      one run of the handler returns the instant at which it runs.
      [unlockSite] is the exception: what it stores and schedules are three
      reads of the clock, and it takes the three values one by one.
    - An [async] function is a function from the state of the browser to an
      outcome (returned value or thrown exception) and the next state.
    - Decibel levels are rationals; sums and quotients are exact. *)

From Stdlib Require Import ZArith QArith Ascii String List Lia.
From stdpp Require Import base option list gmap strings sorting pretty.

Local Open Scope Z_scope.

(** ** ECMAScript string primitives used by the scripts *)

Definition chars (s : string) : list ascii := list_ascii_of_string s.

(** [String.prototype.toLowerCase] on one code unit below U+0100: the
    letters A-Z and the Latin-1 capitals U+00C0..U+00DE (the multiplication
    sign U+00D7 apart) move up by 32; every other unit is unchanged. *)
Definition lower_char (c : ascii) : ascii :=
  let n := N_of_ascii c in
  if ((65 <=? n) && (n <=? 90) ||
      (192 <=? n) && (n <=? 222) && negb (n =? 215))%N
  then ascii_of_N (n + 32) else c.

Fixpoint toLowerCase (s : string) : string :=
  match s with
  | EmptyString => EmptyString
  | String c r => String (lower_char c) (toLowerCase r)
  end.

(** White space and line terminators of ECMAScript below U+0100:
    TAB, LF, VT, FF, CR, SP and NBSP. *)
Definition is_white_space (c : ascii) : bool :=
  let n := N_of_ascii c in
  ((9 <=? n) && (n <=? 13) || (n =? 32) || (n =? 160))%N.

Fixpoint trimStart (s : string) : string :=
  match s with
  | EmptyString => EmptyString
  | String c r => if is_white_space c then trimStart r else s
  end.

Definition trimEnd (s : string) : string :=
  String.rev (trimStart (String.rev s)).

Definition trim (s : string) : string := trimEnd (trimStart s).

(** [s.startsWith(p)], [s.endsWith(p)] and [s.includes(p)]. *)
Definition startsWith (s p : string) : bool :=
  bool_decide (chars p `prefix_of` chars s).

Definition endsWith (s p : string) : bool :=
  bool_decide (chars p `suffix_of` chars s).

Fixpoint includes_chars (s p : list ascii) : bool :=
  bool_decide (p `prefix_of` s) ||
  match s with
  | [] => false
  | _ :: r => includes_chars r p
  end.

Definition includes (s p : string) : bool := includes_chars (chars s) (chars p).

(** [s.replace(p, "")] for a string [s] that starts with [p]: the first
    occurrence of [p] is the prefix, so the result is [s] without it. *)
Definition remove_prefix (p s : string) : string :=
  string_of_list_ascii (drop (String.length p) (chars s)).

(** [Math.ceil(a / b)] for integers [a] and [b > 0]. *)
Definition ceil_div (a b : Z) : Z := - ((- a) / b).

(** ** Service worker: data *)

Record BlockedSite := {
  site_domain : string;
  site_enabled : bool;
  site_name : string
}.

Record VolumeThreshold := { threshold_maxDb : Z; threshold_unlockTime : Z }.

Record VolumeThresholds := {
  quiet : VolumeThreshold;
  medium : VolumeThreshold;
  loud : VolumeThreshold;
  veryLoud : VolumeThreshold
}.

Record Settings := {
  enabled : bool;
  unlockPhrase : string;
  blockedSites : list BlockedSite;
  volumeThresholds : VolumeThresholds
}.

Definition DEFAULT_BLOCKED_SITES : list BlockedSite := [
  {| site_domain := "instagram.com"; site_enabled := true; site_name := "Instagram" |};
  {| site_domain := "youtube.com"; site_enabled := true; site_name := "YouTube" |};
  {| site_domain := "tiktok.com"; site_enabled := true; site_name := "TikTok" |};
  {| site_domain := "twitter.com"; site_enabled := true; site_name := "Twitter" |};
  {| site_domain := "x.com"; site_enabled := true; site_name := "X (Twitter)" |};
  {| site_domain := "facebook.com"; site_enabled := true; site_name := "Facebook" |};
  {| site_domain := "reddit.com"; site_enabled := true; site_name := "Reddit" |}
].

Definition DEFAULT_SETTINGS : Settings := {|
  enabled := true;
  unlockPhrase := "i'm a loser";
  blockedSites := DEFAULT_BLOCKED_SITES;
  volumeThresholds := {|
    quiet := {| threshold_maxDb := -35; threshold_unlockTime := 30 |};
    medium := {| threshold_maxDb := -20; threshold_unlockTime := 120 |};
    loud := {| threshold_maxDb := -10; threshold_unlockTime := 300 |};
    veryLoud := {| threshold_maxDb := 0; threshold_unlockTime := 600 |}
  |}
|}.

(** One value of the [unlockTimers] dictionary; times are milliseconds. *)
Record Timer := { unlockedUntil : Z; unlockedAt : Z }.

(** The two keys of [chrome.storage.local]; a key that was never set is
    [None]. *)
Record Storage := {
  settings : option Settings;
  unlockTimers : option (gmap string Timer)
}.

Record Tab := {
  tab_id : Z;
  tab_url : option string;
  (** whether a content script answers in the tab; [sendMessage] rejects
      otherwise *)
  tab_listening : bool
}.

Inductive Action := showBlockOverlay | hideBlockOverlay.

Record TabMessage := {
  msg_action : Action;
  msg_domain : string;
  msg_remainingTime : Z
}.

(** The state the service worker acts on. [reads] is the log of the keys
    asked from the store, oldest first; it is never read by the code. *)
Record World := {
  storage : Storage;
  alarms : gmap string Z;
  tabs : list Tab;
  sent : list (Z * TabMessage);
  reads : list string
}.

(** ** Service worker: effects *)

Inductive outcome (A : Type) :=
  | Returned (a : A)
  | Thrown (e : string).
Arguments Returned {A} a.
Arguments Thrown {A} e.

Definition Async (A : Type) : Type := World → outcome A * World.

Global Instance Async_ret : MRet Async := λ A a w, (Returned a, w).

Global Instance Async_bind : MBind Async := λ A B f m w,
  match m w with
  | (Returned a, w') => f a w'
  | (Thrown e, w') => (Thrown e, w')
  end.

Definition throw {A} (e : string) : Async A := λ w, (Thrown e, w).

(** [try { body } catch (e) { }] *)
Definition try_ignore (body : Async ()) : Async () := λ w,
  match body w with
  | (Returned _, w') => (Returned (), w')
  | (Thrown _, w') => (Returned (), w')
  end.

Fixpoint for_of {A} (l : list A) (body : A → Async ()) : Async () :=
  match l with
  | [] => mret ()
  | x :: r => body x ≫= λ _, for_of r body
  end.

Definition result_of {A} (m : Async A) (w : World) : outcome A := (m w).1.
Definition world_after {A} (m : Async A) (w : World) : World := (m w).2.

Definition log_read (key : string) (w : World) : World :=
  {| storage := storage w; alarms := alarms w; tabs := tabs w;
     sent := sent w; reads := reads w ++ [key] |}.

(** [const { settings } = await chrome.storage.local.get('settings')] *)
Definition storage_get_settings : Async (option Settings) := λ w,
  (Returned (settings (storage w)), log_read "settings" w).

(** [const { unlockTimers = {} } = await chrome.storage.local.get('unlockTimers')] *)
Definition storage_get_unlockTimers : Async (gmap string Timer) := λ w,
  (Returned (default ∅ (unlockTimers (storage w))), log_read "unlockTimers" w).

(** [await chrome.storage.local.set({ unlockTimers })] *)
Definition storage_set_unlockTimers (timers : gmap string Timer) : Async () := λ w,
  (Returned (),
   {| storage := {| settings := settings (storage w); unlockTimers := Some timers |};
      alarms := alarms w; tabs := tabs w; sent := sent w; reads := reads w |}).

(** [chrome.alarms.create(name, { when })]: an alarm of the same name is
    replaced. *)
Definition alarms_create (name : string) (when : Z) : Async () := λ w,
  (Returned (),
   {| storage := storage w; alarms := <[name := when]> (alarms w);
      tabs := tabs w; sent := sent w; reads := reads w |}).

(** [await chrome.tabs.query({})] *)
Definition tabs_query : Async (list Tab) := λ w, (Returned (tabs w), w).

(** [await chrome.tabs.sendMessage(id, message)] *)
Definition tabs_sendMessage (id : Z) (message : TabMessage) : Async () := λ w,
  if existsb (λ t, (tab_id t =? id) && tab_listening t) (tabs w)
  then (Returned (),
        {| storage := storage w; alarms := alarms w; tabs := tabs w;
           sent := sent w ++ [(id, message)]; reads := reads w |})
  else (Thrown "Could not establish connection", w).

(** ** Service worker: blocking logic, timers, alarms *)

Section ServiceWorker.

(** [new URL(url).hostname], a browser built-in: [None] when the
    constructor throws (the string is no URL). *)
Variable URL_hostname : string → option string.

(** The test of line 94: the host is the rule's domain or a subdomain. *)
Definition host_matches (hostname domain : string) : bool :=
  bool_decide (hostname = domain) || endsWith hostname ("." +:+ domain).

Fixpoint first_blocked (hostname : string) (sites : list BlockedSite)
  : option string :=
  match sites with
  | [] => None
  | site :: rest =>
      if negb (site_enabled site) then first_blocked hostname rest
      else if host_matches hostname (site_domain site)
           then Some (site_domain site)
           else first_blocked hostname rest
  end.

(** [getBlockedDomain(url, blockedSites)]; [None] is [null]. The [catch]
    swallows the exception of the URL constructor. *)
Definition getBlockedDomain (url : string) (sites : list BlockedSite)
  : option string :=
  match URL_hostname url with
  | None => None
  | Some h => first_blocked (toLowerCase h) sites
  end.

Record UnlockStatus := { unlocked : bool; remainingTime : Z }.

(** [isDomainUnlocked(domain)]; the clock is read for the test and again
    for the remaining time, both reads are [now]. *)
Definition isDomainUnlocked (domain : string) (now : Z) : Async UnlockStatus :=
  timers ← storage_get_unlockTimers;
  match timers !! domain with
  | Some timer =>
      if bool_decide (unlockedUntil timer > now)
      then mret {| unlocked := true;
                   remainingTime := ceil_div (unlockedUntil timer - now) 1000 |}
      else mret {| unlocked := false; remainingTime := 0 |}
  | None => mret {| unlocked := false; remainingTime := 0 |}
  end.

(** The object [shouldBlockTab] resolves to; the early returns leave
    [domain] and [remainingTime] undefined ([None]). *)
Record BlockStatus := {
  shouldBlock : bool;
  status_domain : option string;
  status_remainingTime : option Z
}.

Definition not_blocked : BlockStatus :=
  {| shouldBlock := false; status_domain := None; status_remainingTime := None |}.

(** [shouldBlockTab(url)]. The test [!blockedDomain] holds for [null] and
    for the empty string. *)
Definition shouldBlockTab (url : string) (now : Z) : Async BlockStatus :=
  st ← storage_get_settings;
  match st with
  | None => mret not_blocked
  | Some st =>
      if negb (enabled st) then mret not_blocked
      else
        match getBlockedDomain url (blockedSites st) with
        | None => mret not_blocked
        | Some blockedDomain =>
            if bool_decide (blockedDomain = "") then mret not_blocked
            else
              unlockStatus ← isDomainUnlocked blockedDomain now;
              mret {| shouldBlock := negb (unlocked unlockStatus);
                      status_domain := Some blockedDomain;
                      status_remainingTime := Some (remainingTime unlockStatus) |}
        end
  end.

(** [cleanupExpiredTimers()]: the [for ... in] loop visits the keys of the
    copy read from the store and deletes the expired ones from that copy;
    the copy is written back only when something was deleted. *)
Definition cleanup_step (now : Z) (domain : string) (timer : Timer)
    (acc : gmap string Timer * bool) : gmap string Timer * bool :=
  if bool_decide (unlockedUntil timer ≤ now)
  then (delete domain acc.1, true)
  else acc.

Definition cleanupExpiredTimers (now : Z) : Async () :=
  timers ← storage_get_unlockTimers;
  let '(timers', hasChanges) := map_fold (cleanup_step now) (timers, false) timers in
  if hasChanges then storage_set_unlockTimers timers' else mret ().

(** The body of the loop of [notifyTabsForDomain], for one tab. The test
    [if (tab.url)] fails for an undefined and for an empty URL; reading
    [settings.blockedSites] of an undefined [settings] throws. *)
Definition notify_tab (domain : string) (action : Action) (remaining : Z)
    (tab : Tab) : Async () :=
  match tab_url tab with
  | None => mret ()
  | Some url =>
      if bool_decide (url = "") then mret ()
      else
        st ← storage_get_settings;
        match st with
        | None => throw "TypeError"
        | Some st =>
            let tabDomain := getBlockedDomain url (blockedSites st) in
            if bool_decide (tabDomain = Some domain)
            then try_ignore (tabs_sendMessage (tab_id tab)
                   {| msg_action := action; msg_domain := domain;
                      msg_remainingTime := remaining |})
            else mret ()
        end
  end.

(** [notifyTabsForDomain(domain, action, remainingTime = 0)] *)
Definition notifyTabsForDomain (domain : string) (action : Action)
    (remaining : Z) : Async () :=
  ts ← tabs_query;
  for_of ts (notify_tab domain action remaining).

Record UnlockResult := {
  success : bool;
  result_unlockedUntil : Z;
  duration : Z
}.

(** [unlockSite(domain, durationSeconds)]. The clock is read three times:
    [now] is the value of [Date.now()] in [unlockedUntil], [now_at] its
    value in [unlockedAt], and [now_alarm] its value in the [when] of the
    alarm, which is read after the write to the store has been awaited. *)
Definition unlockSite (domain : string) (durationSeconds : Z)
    (now now_at now_alarm : Z) : Async UnlockResult :=
  timers ← storage_get_unlockTimers;
  let timer := {| unlockedUntil := now + durationSeconds * 1000;
                  unlockedAt := now_at |} in
  let timers := <[domain := timer]> timers in
  _ ← storage_set_unlockTimers timers;
  _ ← alarms_create ("reblock_" +:+ domain) (now_alarm + durationSeconds * 1000);
  _ ← notifyTabsForDomain domain hideBlockOverlay durationSeconds;
  mret {| success := true;
          result_unlockedUntil := unlockedUntil timer;
          duration := durationSeconds |}.

(** The three lines of the alarm listener that evict the entry. *)
Definition evict (domain : string) : Async () :=
  timers ← storage_get_unlockTimers;
  storage_set_unlockTimers (delete domain timers).

(** The [chrome.alarms.onAlarm] listener, given [alarm.name]. *)
Definition onAlarm (alarm_name : string) : Async () :=
  if startsWith alarm_name "reblock_" then
    let domain := remove_prefix "reblock_" alarm_name in
    _ ← evict domain;
    notifyTabsForDomain domain showBlockOverlay 0
  else mret ().

End ServiceWorker.

(** The eviction of the alarm listener and the sweep, each cut at its
    [await]s: the handler reads the store into a local copy, yields, and
    later writes what it computed from that copy. Other handlers may run
    between the two halves. *)
Inductive Phase := AlarmGet | AlarmSet | SweepGet | SweepSet.

Record RaceState := {
  race_world : World;
  (** [unlockTimers] in the alarm listener, once read *)
  alarm_copy : gmap string Timer;
  (** [unlockTimers] in [cleanupExpiredTimers], once read *)
  sweep_copy : gmap string Timer
}.

Definition race_start (w : World) : RaceState :=
  {| race_world := w; alarm_copy := ∅; sweep_copy := ∅ |}.

Definition race_step (domain : string) (now : Z) (st : RaceState) (phase : Phase)
  : RaceState :=
  match phase with
  | AlarmGet =>
      {| race_world := world_after storage_get_unlockTimers (race_world st);
         alarm_copy := default ∅ (unlockTimers (storage (race_world st)));
         sweep_copy := sweep_copy st |}
  | AlarmSet =>
      {| race_world := world_after
           (storage_set_unlockTimers (delete domain (alarm_copy st))) (race_world st);
         alarm_copy := delete domain (alarm_copy st);
         sweep_copy := sweep_copy st |}
  | SweepGet =>
      {| race_world := world_after storage_get_unlockTimers (race_world st);
         alarm_copy := alarm_copy st;
         sweep_copy := default ∅ (unlockTimers (storage (race_world st))) |}
  | SweepSet =>
      let '(timers', hasChanges) :=
        map_fold (cleanup_step now) (sweep_copy st, false) (sweep_copy st) in
      {| race_world := if hasChanges
                       then world_after (storage_set_unlockTimers timers') (race_world st)
                       else race_world st;
         alarm_copy := alarm_copy st;
         sweep_copy := timers' |}
  end.

(** A fragment of the URL parser for the examples: the text between
    [://] and the next [/], [?] or [#]; strings without [://] are
    rejected. *)
Fixpoint host_until_delim (s : list ascii) : list ascii :=
  match s with
  | [] => []
  | c :: r =>
      if bool_decide (c = "/"%char ∨ c = "?"%char ∨ c = "#"%char) then []
      else c :: host_until_delim r
  end.

Fixpoint after_scheme (s : list ascii) : option (list ascii) :=
  match s with
  | ":"%char :: "/"%char :: "/"%char :: r => Some r
  | _ :: r => after_scheme r
  | [] => None
  end.

Definition example_URL_hostname (url : string) : option string :=
  (λ r, string_of_list_ascii (host_until_delim r)) <$> after_scheme (chars url).

(** ** Content script: volume table, trimmed mean, phrase check *)

Definition UNLOCK_PHRASE : string := "i'm a loser".

Record VolumeMapping := {
  minDb : Q;
  maxDb : Q;
  mapping_duration : Z;
  label : string;
  (** the bytes of the UTF-8 encoding; no function looks inside *)
  emoji : string
}.

Definition VOLUME_DURATION_MAP : list VolumeMapping := [
  {| minDb := -50; maxDb := -35; mapping_duration := 30; label := "Whisper"; emoji := "🤫" |};
  {| minDb := -35; maxDb := -25; mapping_duration := 60; label := "Quiet"; emoji := "😶" |};
  {| minDb := -25; maxDb := -15; mapping_duration := 120; label := "Normal"; emoji := "🗣️" |};
  {| minDb := -15; maxDb := -5; mapping_duration := 300; label := "Loud"; emoji := "📢" |};
  {| minDb := -5; maxDb := 0; mapping_duration := 600; label := "SHOUTING!"; emoji := "🔊" |}
]%Q.

(** [db >= mapping.minDb && db < mapping.maxDb] *)
Definition in_range (db : Q) (mapping : VolumeMapping) : bool :=
  Qle_bool (minDb mapping) db && negb (Qle_bool (maxDb mapping) db).

Fixpoint first_in_range (db : Q) (table : list VolumeMapping)
  : option VolumeMapping :=
  match table with
  | [] => None
  | mapping :: rest =>
      if in_range db mapping then Some mapping else first_in_range db rest
  end.

(** [getVolumeDurationMapping(db)]; [None] is [undefined], the value of
    [VOLUME_DURATION_MAP[0]] for an empty table. *)
Definition getVolumeDurationMapping (db : Q) : option VolumeMapping :=
  match first_in_range db VOLUME_DURATION_MAP with
  | Some mapping => Some mapping
  | None => VOLUME_DURATION_MAP !! 0%nat
  end.

Global Instance Qle_decision : RelDecision Qle.
Proof.
  intros x y. destruct (Qlt_le_dec y x) as [H | H].
  - right. apply Qlt_not_le, H.
  - left. exact H.
Defined.

(** [array.slice(start, end)] for indices within the array. *)
Definition slice {A} (start stop : nat) (l : list A) : list A :=
  take (stop - start) (drop start l).

(** [trimmed.reduce((a, b) => a + b, 0)] *)
Definition sum_of (l : list Q) : Q := fold_left Qplus l 0%Q.

(** [calculateAverageVolume()], the buffer [volumeSamples] made an
    argument. [Math.floor(n * 0.1)] and [Math.floor(n * 0.9)] are the
    integer quotients [n / 10] and [9 * n / 10]: the doubles 0.1 and 0.9
    lie just above one tenth and nine tenths, so for the length [n] of a
    buffer the rounded product reaches the next integer only when [n] is a
    multiple of ten, where it is that integer. *)
Definition calculateAverageVolume (volumeSamples : list Q) : Q :=
  if (length volumeSamples =? 0)%nat then (-60)%Q
  else
    let sorted := merge_sort Qle volumeSamples in
    let trimmed := slice (length sorted / 10)%nat (9 * length sorted / 10)%nat sorted in
    if (length trimmed =? 0)%nat then nth (length sorted / 2)%nat sorted 0%Q
    else (sum_of trimmed / inject_Z (Z.of_nat (length trimmed)))%Q.

(** The table [dp] of [levenshteinDistance]: a list of rows. *)
Definition dp_get (dp : list (list nat)) (i j : nat) : nat :=
  default 0%nat (dp !! i ≫= λ row, row !! j).

Definition dp_set (dp : list (list nat)) (i j v : nat) : list (list nat) :=
  alter (λ row, <[j := v]> row) i dp.

(** The body of the two nested loops. [str[k]] of an index outside the
    string is [undefined], here [None]. *)
Definition dp_cell (str1 str2 : string) (i : nat) (dp : list (list nat)) (j : nat)
  : list (list nat) :=
  if bool_decide (String.get (i - 1) str1 = String.get (j - 1) str2)
  then dp_set dp i j (dp_get dp (i - 1) (j - 1))
  else dp_set dp i j
         (1 + Nat.min (dp_get dp (i - 1) j)
                (Nat.min (dp_get dp i (j - 1)) (dp_get dp (i - 1) (j - 1))))%nat.

(** [levenshteinDistance(str1, str2)] *)
Definition levenshteinDistance (str1 str2 : string) : nat :=
  let m := String.length str1 in
  let n := String.length str2 in
  let dp := replicate (S m) (replicate (S n) 0%nat) in
  let dp := foldl (λ dp i, dp_set dp i 0 i) dp (seq 0 (S m)) in
  let dp := foldl (λ dp j, dp_set dp 0 j j) dp (seq 0 (S n)) in
  let dp := foldl (λ dp i, foldl (dp_cell str1 str2 i) dp (seq 1 n)) dp (seq 1 m) in
  dp_get dp m n.

(** The constant [isMatch] of [validatePhrase]. *)
Definition isMatch (transcript : string) : bool :=
  let normalizedTranscript := trim (toLowerCase transcript) in
  let normalizedPhrase := trim (toLowerCase UNLOCK_PHRASE) in
  includes normalizedTranscript normalizedPhrase ||
  (levenshteinDistance normalizedTranscript normalizedPhrase <=? 3)%nat.

(** What [validatePhrase] does with a transcript: on a match it asks the
    service worker to unlock [currentDomain] for the duration of the
    measured volume, otherwise it shows the transcript back. [None] as a
    duration stands for the exception of reading [mapping.duration] of an
    undefined mapping. *)
Inductive PhraseVerdict :=
  | SendUnlockSite (domain : option string) (duration : option Z)
  | WrongPhrase (transcript : string).

Definition validatePhrase (transcript : string) (volumeSamples : list Q)
    (currentDomain : option string) : PhraseVerdict :=
  if isMatch transcript then
    let avgVolume := calculateAverageVolume volumeSamples in
    let mapping := getVolumeDurationMapping avgVolume in
    SendUnlockSite currentDomain (mapping_duration <$> mapping)
  else WrongPhrase transcript.

(** ** Service worker: installation, message dispatch, firing alarms *)

(** [await chrome.storage.local.get(['settings', 'unlockTimers'])] *)
Definition storage_get_all : Async Storage := λ w,
  (Returned (storage w), log_read "unlockTimers" (log_read "settings" w)).

(** [await chrome.storage.local.set({ settings })] *)
Definition storage_set_settings (st : Settings) : Async () := λ w,
  (Returned (),
   {| storage := {| settings := Some st; unlockTimers := unlockTimers (storage w) |};
      alarms := alarms w; tabs := tabs w; sent := sent w; reads := reads w |}).

(** [await chrome.storage.local.set({ settings, unlockTimers })] *)
Definition storage_set_all (st : Settings) (timers : gmap string Timer) : Async () := λ w,
  (Returned (),
   {| storage := {| settings := Some st; unlockTimers := Some timers |};
      alarms := alarms w; tabs := tabs w; sent := sent w; reads := reads w |}).

(** The [chrome.runtime.onInstalled] listener. *)
Definition onInstalled (now : Z) : Async () :=
  existing ← storage_get_all;
  _ ← match settings existing with
      | None => storage_set_all DEFAULT_SETTINGS ∅
      | Some _ => mret ()
      end;
  cleanupExpiredTimers now.

(** The messages [handleMessage] tells apart by [message.action]; any
    other action is [Msg_other]. *)
Inductive Message :=
  | Msg_checkBlocked (url : string)
  | Msg_unlockSite (domain : string) (duration : Z)
  | Msg_getSettings
  | Msg_saveSettings (st : Settings)
  | Msg_getUnlockStatus (domain : string)
  | Msg_getRemainingTime (domain : string)
  | Msg_other (action : string).

(** The objects [handleMessage] resolves to, one shape per case. *)
Inductive Response :=
  | Resp_blockStatus (status : BlockStatus)
  | Resp_unlockResult (result : UnlockResult)
  | Resp_settings (st : Settings)
  | Resp_success
  | Resp_unlockStatus (status : UnlockStatus)
  | Resp_remainingTime (seconds : Z)
  | Resp_error (text : string).

(** The values [Date.now()] returns during one run of a handler, in the
    order of the reads. [clock_now] is the instant at which the handler
    runs; only [unlockSite] uses the two later reads. *)
Record Clock := {
  clock_now : Z;
  clock_second : Z;
  clock_third : Z
}.


Section Dispatch.
Variable URL_hostname : string → option string.

(** [handleMessage(message, sender)] *)
Definition handleMessage (message : Message) (clock : Clock) : Async Response :=
  let now := clock_now clock in
  match message with
  | Msg_checkBlocked url =>
      status ← shouldBlockTab URL_hostname url now; mret (Resp_blockStatus status)
  | Msg_unlockSite domain duration =>
      result ← unlockSite URL_hostname domain duration
                 now (clock_second clock) (clock_third clock);
      mret (Resp_unlockResult result)
  | Msg_getSettings =>
      st ← storage_get_settings; mret (Resp_settings (default DEFAULT_SETTINGS st))
  | Msg_saveSettings st =>
      _ ← storage_set_settings st; mret Resp_success
  | Msg_getUnlockStatus domain =>
      status ← isDomainUnlocked domain now; mret (Resp_unlockStatus status)
  | Msg_getRemainingTime domain =>
      status ← isDomainUnlocked domain now;
      mret (Resp_remainingTime (remainingTime status))
  | Msg_other _ => mret (Resp_error "Unknown action")
  end.

(** What happens to the service worker. An alarm that fires is a one-shot
    alarm: the browser drops it from the scheduled alarms and calls the
    listener. [setInterval(cleanupExpiredTimers, 60000)] is [Ev_sweep]. *)
Inductive Event :=
  | Ev_installed
  | Ev_message (message : Message)
  | Ev_alarm (alarm_name : string)
  | Ev_sweep.

Definition drop_alarm (alarm_name : string) (w : World) : World :=
  {| storage := storage w; alarms := delete alarm_name (alarms w);
     tabs := tabs w; sent := sent w; reads := reads w |}.

(** The handler run for an event under the clock reads [clock]; the
    response to a message is dropped. *)
Definition handle (event : Event) (clock : Clock) : Async () :=
  match event with
  | Ev_installed => onInstalled (clock_now clock)
  | Ev_message message => _ ← handleMessage message clock; mret ()
  | Ev_alarm alarm_name => λ w, onAlarm URL_hostname alarm_name (drop_alarm alarm_name w)
  | Ev_sweep => cleanupExpiredTimers (clock_now clock)
  end.

(** The state after a sequence of events, each with its clock reads. *)
Definition run (events : list (Event * Clock)) (w : World) : World :=
  foldl (λ w0 e, world_after (handle e.1 e.2) w0) w events.

End Dispatch.

(** ** Content script: the page and its events *)

(** [number.toString().padStart(2, '0')], on the digits of the number. *)
Definition padStart2 (s : string) : string :=
  match String.length s with
  | 0%nat => "00"
  | 1%nat => "0" +:+ s
  | _ => s
  end.

(** [formatDuration(seconds)] for an integer number of seconds; [%] is
    the remainder with the sign of the dividend, [Math.floor] of a
    quotient by a positive constant the quotient rounded down. *)
Definition formatDuration (seconds : Z) : string :=
  let hrs := seconds / 3600 in
  let mins := Z.rem seconds 3600 / 60 in
  let secs := Z.rem seconds 60 in
  if bool_decide (hrs > 0)
  then pretty hrs +:+ ":" +:+ padStart2 (pretty mins) +:+ ":" +:+ padStart2 (pretty secs)
  else pretty mins +:+ ":" +:+ padStart2 (pretty secs).

(** The parts of the overlay element the script reads or writes: the
    domain shown, the [hidden] class of the three sections, the result
    icon (success or failure) and message, the countdown text. The volume
    bar and label redrawn by [updateVolumeDisplay] are left out. *)
Record Overlay := {
  overlay_domain : option string;
  unlock_section_hidden : bool;
  listening_hidden : bool;
  result_hidden : bool;
  result_success : option bool;
  result_message : string;
  countdown_value : string
}.

(** The element built from [createOverlayHTML()]. *)
Definition createOverlay (domain : option string) : Overlay := {|
  overlay_domain := domain;
  unlock_section_hidden := false;
  listening_hidden := true;
  result_hidden := true;
  result_success := None;
  result_message := "";
  countdown_value := "00:00"
|}.

(** The audio globals; an object that is not [null] is [true]. *)
Record Audio := {
  audioContext : bool;
  analyser : bool;
  microphone : bool;
  volumeSamples : list Q;
  isListening : bool;
  recognition : bool
}.

(** What the script can find in the document. The overlay is [None] when
    no overlay node is attached. *)
Record Dom := {
  overlay_node : option Overlay;
  floating_countdown : option string;
  scroll_locked : bool
}.

(** The callbacks [validatePhrase] leaves with [setTimeout]. *)
Inductive Timeout :=
  | Timeout_hide_and_countdown (duration : Z)
  | Timeout_resetUnlockUI.

(** Work the script has handed to the browser and that has not come back:
    animation frames asked for [monitorVolume], calls of [getUserMedia],
    [unlockSite] messages without a response yet (with the mapping their
    continuation holds), timeouts, oldest first; and the [unlockSite]
    messages sent so far, as domain and duration. *)
Record Pending := {
  frame_requests : nat;
  microphone_requests : nat;
  unlock_requests : list VolumeMapping;
  timeouts : list Timeout;
  unlock_messages : list (option string * Z)
}.

(** The globals of the content script, the document and the pending
    work. [countdownInterval] holds the [remaining] of the running
    interval. *)
Record Page := {
  overlayElement : bool;
  isOverlayVisible : bool;
  currentDomain : option string;
  countdownInterval : option Z;
  audio : Audio;
  dom : Dom;
  pending : Pending
}.

Definition set_audio (a : Audio) (p : Page) : Page :=
  {| overlayElement := overlayElement p; isOverlayVisible := isOverlayVisible p;
     currentDomain := currentDomain p; countdownInterval := countdownInterval p;
     audio := a; dom := dom p; pending := pending p |}.

Definition set_dom (d : Dom) (p : Page) : Page :=
  {| overlayElement := overlayElement p; isOverlayVisible := isOverlayVisible p;
     currentDomain := currentDomain p; countdownInterval := countdownInterval p;
     audio := audio p; dom := d; pending := pending p |}.

Definition set_pending (q : Pending) (p : Page) : Page :=
  {| overlayElement := overlayElement p; isOverlayVisible := isOverlayVisible p;
     currentDomain := currentDomain p; countdownInterval := countdownInterval p;
     audio := audio p; dom := dom p; pending := q |}.

Definition set_currentDomain (domain : option string) (p : Page) : Page :=
  {| overlayElement := overlayElement p; isOverlayVisible := isOverlayVisible p;
     currentDomain := domain; countdownInterval := countdownInterval p;
     audio := audio p; dom := dom p; pending := pending p |}.

Definition set_countdownInterval (interval : option Z) (p : Page) : Page :=
  {| overlayElement := overlayElement p; isOverlayVisible := isOverlayVisible p;
     currentDomain := currentDomain p; countdownInterval := interval;
     audio := audio p; dom := dom p; pending := pending p |}.

Definition set_overlay_node (o : option Overlay) (p : Page) : Page :=
  set_dom {| overlay_node := o; floating_countdown := floating_countdown (dom p);
             scroll_locked := scroll_locked (dom p) |} p.

(** The state of the script when the page has loaded it. *)
Definition page_loaded : Page := {|
  overlayElement := false;
  isOverlayVisible := false;
  currentDomain := None;
  countdownInterval := None;
  audio := {| audioContext := false; analyser := false; microphone := false;
              volumeSamples := []; isListening := false; recognition := false |};
  dom := {| overlay_node := None; floating_countdown := None; scroll_locked := false |};
  pending := {| frame_requests := 0; microphone_requests := 0; unlock_requests := [];
                timeouts := []; unlock_messages := [] |}
|}.

(** [showBlockOverlay()], on a document with a body. The new node is the
    only overlay node of the document: the handlers leave none attached
    while [isOverlayVisible] is not set. *)
Definition showBlockOverlay_page (p : Page) : Page :=
  if isOverlayVisible p then p
  else
    {| overlayElement := true; isOverlayVisible := true;
       currentDomain := currentDomain p; countdownInterval := countdownInterval p;
       audio := audio p;
       dom := {| overlay_node := Some (createOverlay (currentDomain p));
                 floating_countdown := floating_countdown (dom p);
                 scroll_locked := true |};
       pending := pending p |}.

(** [stopListening()] *)
Definition stopListening (p : Page) : Page :=
  set_audio {| audioContext := false; analyser := false; microphone := false;
               volumeSamples := []; isListening := false; recognition := false |} p.

(** [hideBlockOverlay()]; [overlayElement.remove()] detaches the node the
    variable holds, which is the node in the document if there is one. *)
Definition hideBlockOverlay_page (p : Page) : Page :=
  stopListening
    {| overlayElement := false; isOverlayVisible := false;
       currentDomain := currentDomain p; countdownInterval := countdownInterval p;
       audio := audio p;
       dom := {| overlay_node := if overlayElement p then None else overlay_node (dom p);
                 floating_countdown := floating_countdown (dom p);
                 scroll_locked := false |};
       pending := pending p |}.

(** [resetUnlockUI()]: the three sections are found only in an attached
    overlay. *)
Definition resetUnlockUI (p : Page) : Page :=
  match overlay_node (dom p) with
  | None => p
  | Some o =>
      set_overlay_node (Some
        {| overlay_domain := overlay_domain o; unlock_section_hidden := false;
           listening_hidden := true; result_hidden := true;
           result_success := result_success o; result_message := result_message o;
           countdown_value := countdown_value o |}) p
  end.

(** [showResult(success, message)] *)
Definition showResult (success : bool) (message : string) (p : Page) : Page :=
  match overlay_node (dom p) with
  | None => p
  | Some o =>
      set_overlay_node (Some
        {| overlay_domain := overlay_domain o;
           unlock_section_hidden := unlock_section_hidden o;
           listening_hidden := true; result_hidden := false;
           result_success := Some success; result_message := message;
           countdown_value := countdown_value o |}) p
  end.

(** [cancelVoiceUnlock()] *)
Definition cancelVoiceUnlock (p : Page) : Page := resetUnlockUI (stopListening p).

(** [updateCountdownValue(seconds)] *)
Definition updateCountdownValue (seconds : Z) (p : Page) : Page :=
  let formatted := formatDuration seconds in
  set_dom
    {| overlay_node :=
         (λ o, {| overlay_domain := overlay_domain o;
                  unlock_section_hidden := unlock_section_hidden o;
                  listening_hidden := listening_hidden o;
                  result_hidden := result_hidden o;
                  result_success := result_success o;
                  result_message := result_message o;
                  countdown_value := formatted |}) <$> overlay_node (dom p);
       floating_countdown := (λ _, formatted) <$> floating_countdown (dom p);
       scroll_locked := scroll_locked (dom p) |} p.

(** [createFloatingCountdown()] *)
Definition createFloatingCountdown (p : Page) : Page :=
  match floating_countdown (dom p) with
  | Some _ => p
  | None =>
      set_dom {| overlay_node := overlay_node (dom p);
                 floating_countdown := Some "00:00";
                 scroll_locked := scroll_locked (dom p) |} p
  end.

(** [removeFloatingCountdown()] *)
Definition removeFloatingCountdown (p : Page) : Page :=
  set_dom {| overlay_node := overlay_node (dom p); floating_countdown := None;
             scroll_locked := scroll_locked (dom p) |} p.

(** [startCountdownDisplay(seconds)]: an interval that is running is
    cleared, the new one starts with [remaining = seconds]. *)
Definition startCountdownDisplay (seconds : Z) (p : Page) : Page :=
  let p := if isOverlayVisible p then p else createFloatingCountdown p in
  let p := updateCountdownValue seconds p in
  set_countdownInterval (Some seconds) p.

(** One firing of the interval of [startCountdownDisplay]. *)
Definition countdown_tick (p : Page) : Page :=
  match countdownInterval p with
  | None => p
  | Some remaining =>
      let remaining := remaining - 1 in
      if bool_decide (remaining ≤ 0)
      then showBlockOverlay_page (removeFloatingCountdown (set_countdownInterval None p))
      else updateCountdownValue remaining (set_countdownInterval (Some remaining) p)
  end.

(** [monitorVolume()], given the level [db] it measures when it gets past
    its guard; it asks for the next animation frame. The level is a
    rational: a frame in which every bin is 0, whose level is [-Infinity],
    is not modelled. [updateVolumeDisplay(db)] only redraws the meter. *)
Definition monitorVolume (db : Q) (p : Page) : Page :=
  if negb (isListening (audio p)) || negb (analyser (audio p)) then p
  else
    let a := audio p in
    let q := pending p in
    set_pending
      {| frame_requests := S (frame_requests q);
         microphone_requests := microphone_requests q;
         unlock_requests := unlock_requests q; timeouts := timeouts q;
         unlock_messages := unlock_messages q |}
      (set_audio
         {| audioContext := audioContext a; analyser := analyser a;
            microphone := microphone a; volumeSamples := volumeSamples a ++ [db];
            isListening := isListening a; recognition := recognition a |} p).

(** An animation frame: one pending callback, if any, runs [monitorVolume]. *)
Definition animation_frame (db : Q) (p : Page) : Page :=
  match frame_requests (pending p) with
  | 0%nat => p
  | S k =>
      let q := pending p in
      monitorVolume db
        (set_pending
           {| frame_requests := k; microphone_requests := microphone_requests q;
              unlock_requests := unlock_requests q; timeouts := timeouts q;
              unlock_messages := unlock_messages q |} p)
  end.

(** [startVoiceUnlock()] up to the [await] inside [startAudioCapture()].
    Without an attached overlay [querySelector] returns [null] and the
    handler stops with a [TypeError]. *)
Definition voice_click (speechSupported : bool) (p : Page) : Page :=
  if negb speechSupported
  then showResult false "Speech recognition not supported in this browser" p
  else
    match overlay_node (dom p) with
    | None => p
    | Some o =>
        let p := set_overlay_node (Some
          {| overlay_domain := overlay_domain o; unlock_section_hidden := true;
             listening_hidden := false; result_hidden := result_hidden o;
             result_success := result_success o; result_message := result_message o;
             countdown_value := countdown_value o |}) p in
        let a := audio p in
        let q := pending p in
        set_pending
          {| frame_requests := frame_requests q;
             microphone_requests := S (microphone_requests q);
             unlock_requests := unlock_requests q; timeouts := timeouts q;
             unlock_messages := unlock_messages q |}
          (set_audio
             {| audioContext := true; analyser := true; microphone := microphone a;
                volumeSamples := volumeSamples a; isListening := isListening a;
                recognition := recognition a |} p)
    end.

(** The [catch] of [startVoiceUnlock()]. *)
Definition microphone_failed (p : Page) : Page :=
  cancelVoiceUnlock
    (showResult false "Could not access microphone. Please allow microphone access." p).

(** [startVoiceUnlock()] after [getUserMedia] has settled. When it
    resolved, the rest of [startAudioCapture()] runs: the source is
    created from [audioContext] and connected to [analyser] (either fails
    on [null]), the buffer is emptied, [monitorVolume()] is called; then
    the recognition is started and only then is [isListening] set. *)
Definition microphone_settled (granted : bool) (db : Q) (p : Page) : Page :=
  match microphone_requests (pending p) with
  | 0%nat => p
  | S k =>
      let q := pending p in
      let p := set_pending
        {| frame_requests := frame_requests q; microphone_requests := k;
           unlock_requests := unlock_requests q; timeouts := timeouts q;
           unlock_messages := unlock_messages q |} p in
      if negb granted then microphone_failed p
      else if negb (audioContext (audio p)) then microphone_failed p
      else
        let a := audio p in
        let p := set_audio
          {| audioContext := audioContext a; analyser := analyser a; microphone := true;
             volumeSamples := volumeSamples a; isListening := isListening a;
             recognition := recognition a |} p in
        if negb (analyser (audio p)) then microphone_failed p
        else
          let a := audio p in
          let p := set_audio
            {| audioContext := audioContext a; analyser := analyser a;
               microphone := microphone a; volumeSamples := [];
               isListening := isListening a; recognition := recognition a |} p in
          let p := monitorVolume db p in
          let a := audio p in
          set_audio
            {| audioContext := audioContext a; analyser := analyser a;
               microphone := microphone a; volumeSamples := volumeSamples a;
               isListening := true; recognition := true |} p
  end.

(** The character U+0022. *)
Definition quotation_mark : ascii := ascii_of_nat 34.

(** [validatePhrase(transcript)] up to its [await]: on a match the level
    is reduced and mapped, listening stops and the [unlockSite] message
    leaves; otherwise the wrong phrase is shown and the reset of the
    unlock section is scheduled. Nothing is stopped on a wrong phrase. *)
Definition validatePhrase_page (transcript : string) (p : Page) : Page :=
  if isMatch transcript then
    let avgVolume := calculateAverageVolume (volumeSamples (audio p)) in
    match getVolumeDurationMapping avgVolume with
    | None => p
    | Some mapping =>
        let p := stopListening p in
        let q := pending p in
        set_pending
          {| frame_requests := frame_requests q;
             microphone_requests := microphone_requests q;
             unlock_requests := unlock_requests q ++ [mapping];
             timeouts := timeouts q;
             unlock_messages :=
               unlock_messages q ++ [(currentDomain p, mapping_duration mapping)] |} p
    end
  else
    let p := showResult false
      ("Wrong phrase! You said: " +:+
       String quotation_mark (transcript +:+ String quotation_mark "")) p in
    let q := pending p in
    set_pending
      {| frame_requests := frame_requests q;
         microphone_requests := microphone_requests q;
         unlock_requests := unlock_requests q;
         timeouts := timeouts q ++ [Timeout_resetUnlockUI];
         unlock_messages := unlock_messages q |} p.

(** [recognition.onresult] with the final transcript it assembled; the
    empty string when the results were interim only. *)
Definition speech_result (finalTranscript : string) (p : Page) : Page :=
  if bool_decide (finalTranscript = "") then p
  else validatePhrase_page finalTranscript p.

(** [recognition.onerror] *)
Definition speech_error (error : string) (p : Page) : Page :=
  cancelVoiceUnlock
    (showResult false
       (if bool_decide (error = "not-allowed")
        then "Microphone access denied. Please allow microphone access in your browser settings."
        else if bool_decide (error = "no-speech")
        then "No speech detected. Please try again and speak clearly."
        else "Error: " +:+ error +:+ ". Please try again.") p).

(** [validatePhrase(transcript)] after the response to [unlockSite]. *)
Definition unlock_response (success : bool) (p : Page) : Page :=
  match unlock_requests (pending p) with
  | [] => p
  | mapping :: rest =>
      let q := pending p in
      if success then
        let p := showResult true
          (emoji mapping +:+ " Unlocked for " +:+
           formatDuration (mapping_duration mapping) +:+ "!") p in
        set_pending
          {| frame_requests := frame_requests q;
             microphone_requests := microphone_requests q; unlock_requests := rest;
             timeouts := timeouts q ++ [Timeout_hide_and_countdown (mapping_duration mapping)];
             unlock_messages := unlock_messages q |} p
      else
        resetUnlockUI
          (showResult false "Failed to unlock. Please try again."
             (set_pending
                {| frame_requests := frame_requests q;
                   microphone_requests := microphone_requests q;
                   unlock_requests := rest; timeouts := timeouts q;
                   unlock_messages := unlock_messages q |} p))
  end.

(** The oldest timeout fires. *)
Definition timeout_fired (p : Page) : Page :=
  match timeouts (pending p) with
  | [] => p
  | t :: rest =>
      let q := pending p in
      let p := set_pending
        {| frame_requests := frame_requests q;
           microphone_requests := microphone_requests q;
           unlock_requests := unlock_requests q; timeouts := rest;
           unlock_messages := unlock_messages q |} p in
      match t with
      | Timeout_hide_and_countdown duration =>
          startCountdownDisplay duration (hideBlockOverlay_page p)
      | Timeout_resetUnlockUI => resetUnlockUI p
      end
  end.

(** [init()] after the response to [checkBlocked]. *)
Definition init_response (result : BlockStatus) (p : Page) : Page :=
  if shouldBlock result
  then showBlockOverlay_page (set_currentDomain (status_domain result) p)
  else match status_remainingTime result with
       | Some remaining =>
           if bool_decide (remaining > 0)
           then startCountdownDisplay remaining (set_currentDomain (status_domain result) p)
           else p
       | None => p
       end.

(** The [chrome.runtime.onMessage] listener, given the properties
    [action], [domain] and [remainingTime] of the message; [None] is
    [undefined]. No message of the service worker has the action
    [updateCountdown]. *)
Definition onMessage_listener (action : Action) (domain : option string)
    (remainingTime : option Z) (p : Page) : Page :=
  match action with
  | showBlockOverlay => showBlockOverlay_page (set_currentDomain domain p)
  | hideBlockOverlay =>
      let p := hideBlockOverlay_page p in
      match remainingTime with
      | Some remaining =>
          if bool_decide (remaining > 0) then startCountdownDisplay remaining p else p
      | None => p
      end
  end.

(** The listener on a message of [notifyTabsForDomain]. *)
Definition onMessage_page (message : TabMessage) (p : Page) : Page :=
  onMessage_listener (msg_action message) (Some (msg_domain message))
                     (Some (msg_remainingTime message)) p.

(** The message object of the two navigation listeners of the service
    worker, whose [domain] and [remainingTime] can be [undefined]. *)
Record NavMessage := {
  nav_action : Action;
  nav_domain : option string;
  nav_remainingTime : option Z
}.

(** The [visibilitychange] listener after the response to [checkBlocked]. *)
Definition visibility_response (result : BlockStatus) (p : Page) : Page :=
  if shouldBlock result && negb (isOverlayVisible p)
  then showBlockOverlay_page (set_currentDomain (status_domain result) p)
  else if negb (shouldBlock result) && isOverlayVisible p
  then hideBlockOverlay_page p
  else p.

(** The overlay node is removed from the document by someone else (the
    inspector, another script); the mutation observer then calls
    [showBlockOverlay()] if [isOverlayVisible] is set. *)
Definition overlay_removed (p : Page) : Page :=
  let p := set_overlay_node None p in
  if isOverlayVisible p then showBlockOverlay_page p else p.

(** The events of a page. *)
Inductive PageEvent :=
  | Pg_init_response (result : BlockStatus)
  | Pg_message (message : TabMessage)
  | Pg_navigation (message : NavMessage)
  | Pg_visibility_response (result : BlockStatus)
  | Pg_voice_click (speechSupported : bool)
  | Pg_microphone_settled (granted : bool) (db : Q)
  | Pg_animation_frame (db : Q)
  | Pg_speech_result (finalTranscript : string)
  | Pg_speech_error (error : string)
  | Pg_unlock_response (success : bool)
  | Pg_cancel_click
  | Pg_timeout
  | Pg_countdown_tick
  | Pg_overlay_removed.

Definition page_step (p : Page) (event : PageEvent) : Page :=
  match event with
  | Pg_init_response result => init_response result p
  | Pg_message message => onMessage_page message p
  | Pg_navigation message =>
      onMessage_listener (nav_action message) (nav_domain message)
                         (nav_remainingTime message) p
  | Pg_visibility_response result => visibility_response result p
  | Pg_voice_click speechSupported => voice_click speechSupported p
  | Pg_microphone_settled granted db => microphone_settled granted db p
  | Pg_animation_frame db => animation_frame db p
  | Pg_speech_result finalTranscript => speech_result finalTranscript p
  | Pg_speech_error error => speech_error error p
  | Pg_unlock_response success => unlock_response success p
  | Pg_cancel_click => cancelVoiceUnlock p
  | Pg_timeout => timeout_fired p
  | Pg_countdown_tick => countdown_tick p
  | Pg_overlay_removed => overlay_removed p
  end.

(** ** Popup: the settings editor *)

(** Regular expressions without groups to remember, lookaround or flags,
    which is what [isValidDomain] uses. [Re_none] matches nothing and is
    there for the derivatives only. *)
Inductive Regex :=
  | Re_none
  | Re_empty
  | Re_class (class : ascii → bool)
  | Re_seq (r1 r2 : Regex)
  | Re_alt (r1 r2 : Regex)
  | Re_star (r : Regex).

(** [r?], [r{0,n}] and [r{n,}] *)
Definition Re_opt (r : Regex) : Regex := Re_alt r Re_empty.

Fixpoint Re_at_most (n : nat) (r : Regex) : Regex :=
  match n with
  | 0%nat => Re_empty
  | S n => Re_opt (Re_seq r (Re_at_most n r))
  end.

Fixpoint Re_at_least (n : nat) (r : Regex) : Regex :=
  match n with
  | 0%nat => Re_star r
  | S n => Re_seq r (Re_at_least n r)
  end.

Fixpoint nullable (r : Regex) : bool :=
  match r with
  | Re_none => false
  | Re_empty => true
  | Re_class _ => false
  | Re_seq r1 r2 => nullable r1 && nullable r2
  | Re_alt r1 r2 => nullable r1 || nullable r2
  | Re_star _ => true
  end.

(** What is left of [r] to match after the character [c]. *)
Fixpoint derivative (c : ascii) (r : Regex) : Regex :=
  match r with
  | Re_none => Re_none
  | Re_empty => Re_none
  | Re_class class => if class c then Re_empty else Re_none
  | Re_seq r1 r2 =>
      if nullable r1
      then Re_alt (Re_seq (derivative c r1) r2) (derivative c r2)
      else Re_seq (derivative c r1) r2
  | Re_alt r1 r2 => Re_alt (derivative c r1) (derivative c r2)
  | Re_star r1 => Re_seq (derivative c r1) (Re_star r1)
  end.

(** [/^r$/.test(s)]: the whole of [s] matches [r]. *)
Fixpoint regex_test (r : Regex) (s : list ascii) : bool :=
  match s with
  | [] => nullable r
  | c :: s => regex_test (derivative c r) s
  end.

(** The character classes [[a-zA-Z]], [[a-zA-Z0-9]] and [[a-zA-Z0-9-]]. *)
Definition char_between (lo hi c : ascii) : bool :=
  ((N_of_ascii lo <=? N_of_ascii c) && (N_of_ascii c <=? N_of_ascii hi))%N.

Definition class_letter (c : ascii) : bool :=
  char_between "a" "z" c || char_between "A" "Z" c.

Definition class_alnum (c : ascii) : bool :=
  char_between "a" "z" c || char_between "A" "Z" c || char_between "0" "9" c.

Definition class_alnum_hyphen (c : ascii) : bool :=
  char_between "a" "z" c || char_between "A" "Z" c || char_between "0" "9" c ||
  bool_decide (c = "-"%char).

(** [/^[a-zA-Z0-9][a-zA-Z0-9-]{0,61}[a-zA-Z0-9]?\.[a-zA-Z]{2,}$/] *)
Definition domainRegex : Regex :=
  Re_seq (Re_class class_alnum)
    (Re_seq (Re_at_most 61 (Re_class class_alnum_hyphen))
       (Re_seq (Re_opt (Re_class class_alnum))
          (Re_seq (Re_class (λ c, bool_decide (c = "."%char)))
             (Re_at_least 2 (Re_class class_letter))))).

(** [isValidDomain(domain)] *)
Definition isValidDomain (domain : string) : bool :=
  regex_test domainRegex (chars domain).

(** The line terminators below U+0100, which [.] does not match. *)
Definition is_line_terminator (c : ascii) : bool :=
  ((N_of_ascii c =? 10) || (N_of_ascii c =? 13))%N.

(** [s.replace(/^https?:\/\//, '')] *)
Definition strip_protocol (s : string) : string :=
  if startsWith s "https://" then remove_prefix "https://" s
  else if startsWith s "http://" then remove_prefix "http://" s
  else s.

(** [s.replace(/^www\./, '')] *)
Definition strip_www (s : string) : string :=
  if startsWith s "www." then remove_prefix "www." s else s.

(** [s.replace(/\/.*$/, '')]: the match starts at the first slash that no
    line terminator follows, and runs to the end. *)
Fixpoint strip_path_chars (s : list ascii) : list ascii :=
  match s with
  | [] => []
  | c :: r =>
      if bool_decide (c = "/"%char) && forallb (λ c, negb (is_line_terminator c)) r
      then []
      else c :: strip_path_chars r
  end.

Definition strip_path (s : string) : string :=
  string_of_list_ascii (strip_path_chars (chars s)).

(** [s.replace(/\..*/, '')]: the first dot goes, with what follows it up
    to the next line terminator. *)
Fixpoint skip_line (s : list ascii) : list ascii :=
  match s with
  | [] => []
  | c :: r => if is_line_terminator c then s else skip_line r
  end.

Fixpoint strip_from_dot (s : list ascii) : list ascii :=
  match s with
  | [] => []
  | c :: r => if bool_decide (c = "."%char) then skip_line r else c :: strip_from_dot r
  end.

(** [String.prototype.toUpperCase] on one code unit below U+0100: the
    letters a-z and the Latin-1 small letters U+00E0..U+00FE (the division
    sign U+00F7 apart) move down by 32. The capitals of U+00B5, U+00DF and
    U+00FF are not single units below U+0100; [handleAddSite] applies the
    function to a character that has passed [isValidDomain]. *)
Definition upper_char (c : ascii) : ascii :=
  let n := N_of_ascii c in
  if ((97 <=? n) && (n <=? 122) ||
      (224 <=? n) && (n <=? 254) && negb (n =? 247))%N
  then ascii_of_N (n - 32) else c.

(** [domain.charAt(0).toUpperCase() + domain.slice(1).replace(/\..*/, '')] *)
Definition site_name_of (domain : string) : string :=
  match domain with
  | EmptyString => EmptyString
  | String c r => String (upper_char c) (string_of_list_ascii (strip_from_dot (chars r)))
  end.

Definition set_blockedSites (sites : list BlockedSite) (st : Settings) : Settings :=
  {| enabled := enabled st; unlockPhrase := unlockPhrase st; blockedSites := sites;
     volumeThresholds := volumeThresholds st |}.

(** The handlers of the popup work on its variable [settings] and end
    with [saveSettings()]. Each is a function from the settings before to
    the settings it leaves and sends; [None] when it returns, or stops
    with an exception, before it has changed anything. *)

(** [handleMasterToggle(e)], [checked] being [e.target.checked]. *)
Definition handleMasterToggle (checked : bool) (st : Settings) : option Settings :=
  Some {| enabled := checked; unlockPhrase := unlockPhrase st;
          blockedSites := blockedSites st; volumeThresholds := volumeThresholds st |}.

(** The domain [handleAddSite] makes of the value of the input. *)
Definition clean_domain (value : string) : string :=
  strip_path (strip_www (strip_protocol (toLowerCase (trim value)))).

(** [handleAddSite()], [value] being the value of the input. *)
Definition handleAddSite (value : string) (st : Settings) : option Settings :=
  let domain := toLowerCase (trim value) in
  if bool_decide (domain = "") then None
  else
    let domain := strip_path (strip_www (strip_protocol domain)) in
    if negb (isValidDomain domain) then None
    else if existsb (λ site, bool_decide (site_domain site = domain)) (blockedSites st)
    then None
    else Some (set_blockedSites
                 (blockedSites st ++
                    [{| site_domain := domain; site_enabled := true;
                        site_name := site_name_of domain |}]) st).

(** [handleSiteToggle(e)] for a checkbox with [data-index] [index]; beyond
    the end of the list [settings.blockedSites[index]] is [undefined] and
    the assignment throws. *)
Definition handleSiteToggle (index : nat) (checked : bool) (st : Settings)
    : option Settings :=
  match blockedSites st !! index with
  | None => None
  | Some site =>
      Some (set_blockedSites
              (<[index := {| site_domain := site_domain site; site_enabled := checked;
                             site_name := site_name site |}]> (blockedSites st)) st)
  end.

(** [handleSiteDelete(e)] for a delete button with [data-index] [index],
    [confirmed] being the answer to [confirm]. *)
Definition handleSiteDelete (index : nat) (confirmed : bool) (st : Settings)
    : option Settings :=
  match blockedSites st !! index with
  | None => None
  | Some _ =>
      if confirmed then Some (set_blockedSites (delete index (blockedSites st)) st)
      else None
  end.

(** [handlePhraseChange(e)], [value] being [e.target.value]. *)
Definition handlePhraseChange (value : string) (st : Settings) : option Settings :=
  let phrase := toLowerCase (trim value) in
  if bool_decide (String.length phrase < 3)%nat then None
  else Some {| enabled := enabled st; unlockPhrase := phrase;
               blockedSites := blockedSites st;
               volumeThresholds := volumeThresholds st |}.

(** What the user does in the popup. *)
Inductive PopupAction :=
  | Act_masterToggle (checked : bool)
  | Act_addSite (value : string)
  | Act_siteToggle (index : nat) (checked : bool)
  | Act_siteDelete (index : nat) (confirmed : bool)
  | Act_phraseChange (value : string).

Definition popup_handle (action : PopupAction) (st : Settings) : option Settings :=
  match action with
  | Act_masterToggle checked => handleMasterToggle checked st
  | Act_addSite value => handleAddSite value st
  | Act_siteToggle index checked => handleSiteToggle index checked st
  | Act_siteDelete index confirmed => handleSiteDelete index confirmed st
  | Act_phraseChange value => handlePhraseChange value st
  end.

(** The settings of the popup after a sequence of actions. *)
Definition popup_run (actions : list PopupAction) (st : Settings) : Settings :=
  foldl (λ st action, default st (popup_handle action st)) st actions.


(** ** Service worker: the navigation listeners *)

Section Navigation.
Variable URL_hostname : string → option string.

(** The [chrome.webNavigation.onCommitted] listener: the message it hands
    to [chrome.tabs.sendMessage] for the tab of the navigation, if any. A
    delivery that fails is caught and ignored. *)
Definition onCommitted (frameId : Z) (url : string) (now : Z)
    : Async (option NavMessage) :=
  if bool_decide (frameId ≠ 0) then mret None
  else
    blockStatus ← shouldBlockTab URL_hostname url now;
    if shouldBlock blockStatus
    then mret (Some {| nav_action := showBlockOverlay;
                       nav_domain := status_domain blockStatus;
                       nav_remainingTime := None |})
    else mret None.

(** The [chrome.tabs.onUpdated] listener, [complete] telling whether
    [changeInfo.status] is ['complete']: the message it hands to
    [chrome.tabs.sendMessage] for the tab, if any. *)
Definition onUpdated (complete : bool) (url : option string) (now : Z)
    : Async (option NavMessage) :=
  match url with
  | None => mret None
  | Some url =>
      if negb complete || bool_decide (url = "") then mret None
      else
        blockStatus ← shouldBlockTab URL_hostname url now;
        mret (Some {| nav_action := if shouldBlock blockStatus then showBlockOverlay
                                    else hideBlockOverlay;
                      nav_domain := status_domain blockStatus;
                      nav_remainingTime := status_remainingTime blockStatus |})
  end.

End Navigation.

(** ** Vocabulary of the specification *)

(** The ledger as every handler reads it: the stored dictionary, empty
    when the key was never set. *)
Definition ledger (w : World) : gmap string Timer :=
  default ∅ (unlockTimers (storage w)).

(** A live unlock entry for [domain] at the instant [now]. *)
Definition live (timers : gmap string Timer) (domain : string) (now : Z) : Prop :=
  ∃ timer, timers !! domain = Some timer ∧ now < unlockedUntil timer.

(** The host is the rule's domain, or ends with a dot followed by it. *)
Definition domain_or_subdomain (hostname domain : string) : Prop :=
  hostname = domain ∨ ∃ sub, hostname = sub +:+ "." +:+ domain.

Definition rule_matches (hostname : string) (site : BlockedSite) : Prop :=
  site_enabled site = true ∧ domain_or_subdomain hostname (site_domain site).

(** [site] is the first rule of [sites], in list order, that matches. *)
Definition first_match (hostname : string) (sites : list BlockedSite)
    (site : BlockedSite) : Prop :=
  ∃ pre post, sites = pre ++ site :: post ∧ rule_matches hostname site ∧
              Forall (λ r, ¬ rule_matches hostname r) pre.

(** Two states of the browser that differ at most in the log of reads and
    in the messages sent. *)
Definition same_store (w w' : World) : Prop :=
  storage w' = storage w ∧ alarms w' = alarms w ∧ tabs w' = tabs w.

(** The entries of a ledger that have not expired at [now]. *)
Definition unexpired (now : Z) (timers : gmap string Timer) : gmap string Timer :=
  filter (λ kv, now < unlockedUntil kv.2) timers.

(** The six ways the two halves of the alarm eviction and the two halves
    of the sweep can interleave. *)
Definition interleavings : list (list Phase) := [
  [AlarmGet; AlarmSet; SweepGet; SweepSet];
  [AlarmGet; SweepGet; AlarmSet; SweepSet];
  [AlarmGet; SweepGet; SweepSet; AlarmSet];
  [SweepGet; AlarmGet; AlarmSet; SweepSet];
  [SweepGet; AlarmGet; SweepSet; AlarmSet];
  [SweepGet; SweepSet; AlarmGet; AlarmSet]
].

(** Invariant I2 for one entry: it expires a positive whole number of
    seconds after it was granted. *)
Definition entry_ok (timer : Timer) : Prop :=
  ∃ seconds, 0 < seconds ∧ unlockedUntil timer = unlockedAt timer + seconds * 1000.

Definition ledger_ok (w : World) : Prop :=
  map_Forall (λ _ timer, entry_ok timer) (ledger w).

(** ** States used in the examples *)

Definition example_tabs : list Tab := [
  {| tab_id := 1; tab_url := Some "https://www.youtube.com/watch"; tab_listening := true |};
  {| tab_id := 2; tab_url := Some "https://example.org/"; tab_listening := false |};
  {| tab_id := 3; tab_url := None; tab_listening := false |}
].

(** The state after installation: default settings, no unlock timers. *)
Definition installed : World := {|
  storage := {| settings := Some DEFAULT_SETTINGS; unlockTimers := Some ∅ |};
  alarms := ∅;
  tabs := example_tabs;
  sent := [];
  reads := []
|}.

(** [youtube.com] unlocked at instant 1000 until instant 31000. *)
Definition youtube_unlocked : World := {|
  storage := {| settings := Some DEFAULT_SETTINGS;
                unlockTimers := Some {[ "youtube.com" :=
                  {| unlockedUntil := 31000; unlockedAt := 1000 |} ]} |};
  alarms := {[ "reblock_youtube.com" := 31000 ]};
  tabs := example_tabs;
  sent := [];
  reads := []
|}.

(** Settings whose only rule has the empty string as its domain. *)
Definition empty_domain_world : World := {|
  storage := {| settings := Some {|
                  enabled := true;
                  unlockPhrase := "i'm a loser";
                  blockedSites := [{| site_domain := ""; site_enabled := true;
                                      site_name := "" |}];
                  volumeThresholds := volumeThresholds DEFAULT_SETTINGS |};
                unlockTimers := Some ∅ |};
  alarms := ∅;
  tabs := [];
  sent := [];
  reads := []
|}.

(** The states the service worker reaches from a state with an empty
    ledger when the clock does not move between the first two reads of a
    grant: grants arrive only as [unlockSite] messages of the content
    script, that is with the domain and the duration [validatePhrase]
    sends; alarms fire, the sweep runs and tabs are evaluated at any
    instant. *)
Inductive reachable (URL_hostname : string → option string) : World → Prop :=
  | reach_start w :
      ledger w = ∅ → reachable URL_hostname w
  | reach_unlockSite w transcript samples currentDomain domain seconds now now_alarm :
      reachable URL_hostname w →
      validatePhrase transcript samples currentDomain
        = SendUnlockSite (Some domain) (Some seconds) →
      reachable URL_hostname
        (world_after (unlockSite URL_hostname domain seconds now now now_alarm) w)
  | reach_onAlarm w alarm_name :
      reachable URL_hostname w →
      reachable URL_hostname (world_after (onAlarm URL_hostname alarm_name) w)
  | reach_cleanupExpiredTimers w now :
      reachable URL_hostname w →
      reachable URL_hostname (world_after (cleanupExpiredTimers now) w)
  | reach_shouldBlockTab w url now :
      reachable URL_hostname w →
      reachable URL_hostname (world_after (shouldBlockTab URL_hostname url now) w).

(** The level lies in the half-open range of the table entry. *)
Definition level_in (db : Q) (mapping : VolumeMapping) : Prop :=
  (minDb mapping <= db)%Q ∧ (db < maxDb mapping)%Q.

(** The average of a list of levels. *)
Definition mean (l : list Q) : Q :=
  (sum_of l / inject_Z (Z.of_nat (length l)))%Q.

(** The trimmed mean in the words of the specification: sort, discard the
    lowest tenth and the highest tenth of the samples, each count rounded
    down, and average the rest. *)
Definition trimmed_mean_rounding_down (samples : list Q) : Q :=
  let sorted := merge_sort Qle samples in
  let tenth := (length samples / 10)%nat in
  mean (take (length samples - 2 * tenth) (drop tenth sorted)).

(** ** Edit distance *)

(** [edit_script s t n]: [s] is turned into [t] by a left-to-right script
    that keeps equal characters for free and pays one for every
    substitution, deletion and insertion, [n] in total. *)
Inductive edit_script {A : Type} : list A → list A → nat → Prop :=
  | edit_done : edit_script [] [] 0
  | edit_keep a s t n :
      edit_script s t n → edit_script (a :: s) (a :: t) n
  | edit_substitute a b s t n :
      edit_script s t n → edit_script (a :: s) (b :: t) (S n)
  | edit_delete a s t n :
      edit_script s t n → edit_script (a :: s) t (S n)
  | edit_insert b s t n :
      edit_script s t n → edit_script s (b :: t) (S n).

(** [d] is the Levenshtein distance between [s] and [t]: the cost of a
    cheapest edit script. *)
Definition levenshtein (s t : string) (d : nat) : Prop :=
  edit_script (chars s) (chars t) d ∧
  ∀ n, edit_script (chars s) (chars t) n → (d ≤ n)%nat.

(** The recurrence of the distance, on the first characters. *)
Fixpoint lev (s t : list ascii) : nat :=
  match s with
  | [] => length t
  | a :: s' =>
      (fix lev_s (t : list ascii) : nat :=
         match t with
         | [] => S (length s')
         | b :: t' =>
             if decide (a = b) then lev s' t'
             else S (Nat.min (lev s' t) (Nat.min (lev_s t') (lev s' t')))
         end) t
  end.

(** The distance between the first [i] characters of [str1] and the first
    [j] characters of [str2]; reversing puts the last character of a
    prefix first. *)
Definition prefix_distance (str1 str2 : string) (i j : nat) : nat :=
  lev (rev (take i (chars str1))) (rev (take j (chars str2))).

(** The table has [m + 1] rows of [n + 1] cells. *)
Definition table_dims (m n : nat) (dp : list (list nat)) : Prop :=
  length dp = S m ∧ Forall (λ row, length row = S n) dp.

(** The state of the table when the loops reach row [i], column [j]: the
    first row, the first column and every cell before [(i, j)] in row
    order hold the distance between the prefixes. *)
Definition table_filled (str1 str2 : string) (i j : nat) (dp : list (list nat))
  : Prop :=
  table_dims (String.length str1) (String.length str2) dp ∧
  ∀ i' j', (i' ≤ String.length str1)%nat → (j' ≤ String.length str2)%nat →
           (i' = 0 ∨ j' = 0 ∨ i' < i ∨ (i' = i ∧ j' < j))%nat →
           dp_get dp i' j' = prefix_distance str1 str2 i' j'.

(** ** Vocabulary for the further properties *)


(** A clock that stands still at [now] during a run. *)
Definition at_instant (now : Z) : Clock :=
  {| clock_now := now; clock_second := now; clock_third := now |}.

(** The tabs [notifyTabsForDomain] reaches: the URL is there and not
    empty, the matcher maps it to [domain], and a content script listens
    under the id of the tab. *)
Definition tab_notified (URL_hostname : string → option string) (st : Settings)
    (domain : string) (all_tabs : list Tab) (tab : Tab) : bool :=
  match tab_url tab with
  | None => false
  | Some url =>
      negb (bool_decide (url = "")) &&
      bool_decide (getBlockedDomain URL_hostname url (blockedSites st) = Some domain) &&
      existsb (λ t, (tab_id t =? tab_id tab) && tab_listening t) all_tabs
  end.

(** The events that write the settings once settings are stored. *)
Definition saves_settings (event : Event) : bool :=
  match event with
  | Ev_message (Msg_saveSettings _) => true
  | _ => false
  end.

(** A profile in which the extension has never run: nothing stored, no
    alarm, no tab. *)
Definition fresh_profile : World := {|
  storage := {| settings := None; unlockTimers := None |};
  alarms := ∅;
  tabs := [];
  sent := [];
  reads := []
|}.

(** ** Vocabulary for the properties of the page *)

(** The state after [events], oldest first. *)
Definition page_run (p : Page) (events : list PageEvent) : Page :=
  foldl page_step p events.

(** The event runs [hideBlockOverlay()] when it arrives in the state [p]. *)
Definition calls_hideBlockOverlay (p : Page) (event : PageEvent) : bool :=
  match event with
  | Pg_message message =>
      match msg_action message with
      | hideBlockOverlay => true
      | showBlockOverlay => false
      end
  | Pg_navigation message =>
      match nav_action message with
      | hideBlockOverlay => true
      | showBlockOverlay => false
      end
  | Pg_visibility_response result => negb (shouldBlock result) && isOverlayVisible p
  | Pg_timeout =>
      match timeouts (pending p) with
      | Timeout_hide_and_countdown _ :: _ => true
      | _ => false
      end
  | _ => false
  end.

(** No event of the sequence runs [hideBlockOverlay()]. *)
Fixpoint never_hides (p : Page) (events : list PageEvent) : bool :=
  match events with
  | [] => true
  | event :: events =>
      negb (calls_hideBlockOverlay p event) && never_hides (page_step p event) events
  end.

(** What the handlers keep between the globals and the document: an
    attached overlay is the element [overlayElement] holds; that variable,
    the flag [isOverlayVisible] and the scroll lock are set together; and
    nothing of the audio is set while the flag is not. *)
Record page_invariant (p : Page) : Prop := {
  inv_attached : is_Some (overlay_node (dom p)) → isOverlayVisible p = true;
  inv_element : overlayElement p = isOverlayVisible p;
  inv_scroll : scroll_locked (dom p) = isOverlayVisible p;
  inv_audio :
    audioContext (audio p) || analyser (audio p) || microphone (audio p) ||
    isListening (audio p) || recognition (audio p) = true →
    isOverlayVisible p = true
}.

(** The page of a blocked site after [init()]. *)
Definition blocked_page : Page :=
  init_response {| shouldBlock := true; status_domain := Some "youtube.com";
                   status_remainingTime := None |} page_loaded.

(** ** Vocabulary for the properties of the popup *)

(** The strings a regular expression matches. *)
Inductive re_matches : Regex → list ascii → Prop :=
  | re_matches_empty : re_matches Re_empty []
  | re_matches_class class c : class c = true → re_matches (Re_class class) [c]
  | re_matches_seq r1 r2 s1 s2 :
      re_matches r1 s1 → re_matches r2 s2 → re_matches (Re_seq r1 r2) (s1 ++ s2)
  | re_matches_alt_l r1 r2 s : re_matches r1 s → re_matches (Re_alt r1 r2) s
  | re_matches_alt_r r1 r2 s : re_matches r2 s → re_matches (Re_alt r1 r2) s
  | re_matches_star_nil r : re_matches (Re_star r) []
  | re_matches_star_cons r s1 s2 :
      re_matches r s1 → re_matches (Re_star r) s2 → re_matches (Re_star r) (s1 ++ s2).

(** A name and a top-level domain as [isValidDomain] wants them: the name
    has 1 to 63 letters, digits and hyphens, does not start with a hyphen
    and, when it has all 63 characters, does not end with one; the
    top-level domain has two letters or more. Neither contains a dot. *)
Definition domain_shape (name tld : list ascii) : Prop :=
  (∃ c rest, name = c :: rest ∧ class_alnum c = true) ∧
  (length name ≤ 63)%nat ∧
  Forall (λ c, class_alnum_hyphen c = true) name ∧
  (length name = 63%nat → ∃ c, last name = Some c ∧ class_alnum c = true) ∧
  (2 ≤ length tld)%nat ∧
  Forall (λ c, class_letter c = true) tld.

(** Settings as the editor keeps them: every rule has a domain that
    [isValidDomain] accepts, written in lower case, and no two rules have
    the same domain. *)
Definition editor_ok (st : Settings) : Prop :=
  Forall (λ site, isValidDomain (site_domain site) = true ∧
                  toLowerCase (site_domain site) = site_domain site)
         (blockedSites st) ∧
  NoDup (site_domain <$> blockedSites st).
(** ** Properties of the string primitives *)

Lemma chars_app s1 s2 : chars (s1 +:+ s2) = chars s1 ++ chars s2.
Proof. unfold chars. induction s1 as [|c s1 IH]; simpl; [done|]. by rewrite IH. Qed.

Lemma chars_inj s1 s2 : chars s1 = chars s2 → s1 = s2.
Proof.
  unfold chars. intros H.
  rewrite <- (string_of_list_ascii_of_string s1), <- (string_of_list_ascii_of_string s2).
  by rewrite H.
Qed.

Lemma chars_of_list l : chars (string_of_list_ascii l) = l.
Proof. apply list_ascii_of_string_of_list_ascii. Qed.

Lemma chars_length s : length (chars s) = String.length s.
Proof. unfold chars. induction s; simpl; auto. Qed.

Lemma endsWith_true s p : endsWith s p = true ↔ ∃ pre, s = pre +:+ p.
Proof.
  unfold endsWith. rewrite bool_decide_eq_true. split.
  - intros [k Hk]. exists (string_of_list_ascii k).
    apply chars_inj. by rewrite chars_app, chars_of_list.
  - intros [pre ->]. exists (chars pre). apply chars_app.
Qed.

Lemma startsWith_true s p : startsWith s p = true ↔ ∃ post, s = p +:+ post.
Proof.
  unfold startsWith. rewrite bool_decide_eq_true. split.
  - intros [k Hk]. exists (string_of_list_ascii k).
    apply chars_inj. by rewrite chars_app, chars_of_list.
  - intros [post ->]. exists (chars post). apply chars_app.
Qed.

Lemma remove_prefix_app p s : remove_prefix p (p +:+ s) = s.
Proof.
  unfold remove_prefix. rewrite chars_app, <- chars_length, drop_app_length.
  apply string_of_list_ascii_of_string.
Qed.

Lemma includes_chars_true s p :
  includes_chars s p = true ↔ ∃ pre post, s = pre ++ p ++ post.
Proof.
  induction s as [|c s IH]; simpl.
  - rewrite orb_false_r, bool_decide_eq_true. split.
    + intros [k Hk]. exists [], k. done.
    + intros (pre & post & H). symmetry in H.
      apply app_eq_nil in H as [-> H]. apply app_eq_nil in H as [-> ->].
      by exists [].
  - rewrite orb_true_iff, bool_decide_eq_true, IH. split.
    + intros [[k Hk] | (pre & post & ->)].
      * exists [], k. done.
      * exists (c :: pre), post. done.
    + intros (pre & post & H). destruct pre as [|c' pre]; simpl in H.
      * left. exists post. done.
      * right. exists pre, post. by simplify_eq.
Qed.

Lemma includes_true s p :
  includes s p = true ↔ ∃ pre post, s = pre +:+ p +:+ post.
Proof.
  unfold includes. rewrite includes_chars_true. split.
  - intros (pre & post & H).
    exists (string_of_list_ascii pre), (string_of_list_ascii post).
    apply chars_inj. by rewrite !chars_app, !chars_of_list.
  - intros (pre & post & ->). exists (chars pre), (chars post).
    by rewrite !chars_app.
Qed.

(** ** The domain matcher *)

Lemma host_matches_true hostname domain :
  host_matches hostname domain = true ↔ domain_or_subdomain hostname domain.
Proof.
  unfold host_matches, domain_or_subdomain.
  rewrite orb_true_iff, bool_decide_eq_true, endsWith_true. done.
Qed.

Lemma rule_matches_test hostname site :
  rule_matches hostname site ↔
  negb (site_enabled site) = false ∧ host_matches hostname (site_domain site) = true.
Proof.
  unfold rule_matches. rewrite host_matches_true.
  destruct (site_enabled site); simpl; intuition congruence.
Qed.

Lemma first_blocked_Some hostname sites d :
  first_blocked hostname sites = Some d ↔
  ∃ site, first_match hostname sites site ∧ d = site_domain site.
Proof.
  induction sites as [|site rest IH]; simpl.
  - split; [done|]. intros (site & (pre & post & H & _) & _).
    by destruct pre.
  - destruct (negb (site_enabled site)) eqn:He;
      [|destruct (host_matches hostname (site_domain site)) eqn:Hm].
    + rewrite IH. split.
      * intros (s & (pre & post & -> & Hs & Hpre) & ->).
        exists s. split; [|done]. exists (site :: pre), post.
        split_and!; [done..|]. constructor; [|done].
        rewrite rule_matches_test. intros [? _]. congruence.
      * intros (s & (pre & post & Heq & Hs & Hpre) & ->).
        destruct pre as [|r pre]; simplify_eq/=.
        { apply rule_matches_test in Hs as [? _]. congruence. }
        apply Forall_cons in Hpre as [_ Hpre]. exists s. split; [|done].
        by exists pre, post.
    + split.
      * intros [= <-]. exists site. split; [|done]. exists [], rest.
        split_and!; [done| |constructor]. by apply rule_matches_test.
      * intros (s & (pre & post & Heq & Hs & Hpre) & ->).
        destruct pre as [|r pre]; simplify_eq/=; [done|].
        apply Forall_cons in Hpre as [Hr _]. destruct Hr.
        by apply rule_matches_test.
    + rewrite IH. split.
      * intros (s & (pre & post & -> & Hs & Hpre) & ->).
        exists s. split; [|done]. exists (site :: pre), post.
        split_and!; [done..|]. constructor; [|done].
        rewrite rule_matches_test. intros [_ ?]. congruence.
      * intros (s & (pre & post & Heq & Hs & Hpre) & ->).
        destruct pre as [|r pre]; simplify_eq/=.
        { apply rule_matches_test in Hs as [_ ?]. congruence. }
        apply Forall_cons in Hpre as [_ Hpre]. exists s. split; [|done].
        by exists pre, post.
Qed.

Lemma first_blocked_None hostname sites :
  first_blocked hostname sites = None ↔ Forall (λ r, ¬ rule_matches hostname r) sites.
Proof.
  induction sites as [|site rest IH]; simpl.
  - split; [constructor|done].
  - rewrite Forall_cons, rule_matches_test.
    destruct (negb (site_enabled site));
      [|destruct (host_matches hostname (site_domain site))];
      rewrite <- ?IH; intuition congruence.
Qed.

Section MatcherProperties.
Variable URL_hostname : string → option string.

(** C2. For every URL string and rule list, [getBlockedDomain] returns the
    domain [d] exactly when the URL parses, and [d] is the domain of the
    first rule in list order that is enabled and whose domain the
    lowercased hostname equals or ends with after a dot; it returns [null]
    exactly when the URL does not parse or no enabled rule matches; being a
    total function to [option string], it raises nothing, and an
    unparsable URL gives [null]. *)
Theorem getBlockedDomain_first_enabled_match (url : string) (sites : list BlockedSite) :
  (∀ d, getBlockedDomain URL_hostname url sites = Some d ↔
        ∃ h site, URL_hostname url = Some h ∧
                  first_match (toLowerCase h) sites site ∧ d = site_domain site) ∧
  (is_Some (getBlockedDomain URL_hostname url sites) ↔
   ∃ h site, URL_hostname url = Some h ∧ site ∈ sites ∧
             rule_matches (toLowerCase h) site) ∧
  (URL_hostname url = None → getBlockedDomain URL_hostname url sites = None).
Proof.
  unfold getBlockedDomain. split_and!.
  - intros d. destruct (URL_hostname url) as [h|].
    + rewrite first_blocked_Some. split.
      * intros (site & ? & ?). by exists h, site.
      * intros (h' & site & [= <-] & ? & ?). by exists site.
    + split; [done|]. by intros (? & ? & ? & _).
  - destruct (URL_hostname url) as [h|].
    + split.
      * intros [d Hd]. apply first_blocked_Some in Hd as (site & Hf & _).
        destruct Hf as (pre & post & -> & Hs & _).
        exists h, site. split_and!; [done| |done].
        apply elem_of_app. right. left.
      * intros (h' & site & [= <-] & Hin & Hs).
        destruct (first_blocked (toLowerCase h) sites) eqn:E; [done|].
        apply first_blocked_None in E. rewrite Forall_forall in E.
        by destruct (E site Hin).
    + split; [by intros [? ?]|]. by intros (? & ? & ? & _).
  - by intros ->.
Qed.

End MatcherProperties.

(** ** Effects of the handlers on the state *)

Lemma same_store_refl w : same_store w w.
Proof. by repeat split. Qed.

Lemma same_store_trans w1 w2 w3 :
  same_store w1 w2 → same_store w2 w3 → same_store w1 w3.
Proof. intros (? & ? & ?) (? & ? & ?). repeat split; congruence. Qed.

Lemma same_store_ledger w w' : same_store w w' → ledger w' = ledger w.
Proof. intros (H & _). unfold ledger. by rewrite H. Qed.

Lemma for_of_same_store {A} (l : list A) (body : A → Async ()) w :
  (∀ x w0, same_store w0 (world_after (body x) w0)) →
  same_store w (world_after (for_of l body) w).
Proof.
  intros Hbody. revert w. induction l as [|x l IH]; intros w; simpl.
  - apply same_store_refl.
  - unfold world_after, mbind, Async_bind.
    pose proof (Hbody x w) as Hx. unfold world_after in Hx.
    destruct (body x w) as [[[]|e] w1]; simpl in *; [|done].
    eapply same_store_trans; [exact Hx|]. apply IH.
Qed.

Section HandlerEffects.
Variable URL_hostname : string → option string.

Lemma isDomainUnlocked_run domain now w :
  isDomainUnlocked domain now w =
  (Returned match ledger w !! domain with
            | Some timer =>
                if bool_decide (unlockedUntil timer > now)
                then {| unlocked := true;
                        remainingTime := ceil_div (unlockedUntil timer - now) 1000 |}
                else {| unlocked := false; remainingTime := 0 |}
            | None => {| unlocked := false; remainingTime := 0 |}
            end,
   log_read "unlockTimers" w).
Proof.
  unfold isDomainUnlocked, mbind, Async_bind, storage_get_unlockTimers, ledger.
  simpl. destruct (default ∅ (unlockTimers (storage w)) !! domain); [|done].
  by case_bool_decide.
Qed.

Lemma isDomainUnlocked_live domain now w :
  ∃ status, result_of (isDomainUnlocked domain now) w = Returned status ∧
            (unlocked status = true ↔ live (ledger w) domain now).
Proof.
  unfold result_of. rewrite isDomainUnlocked_run. simpl. eexists. split; [done|].
  unfold live. destruct (ledger w !! domain) as [timer|]; [case_bool_decide|]; simpl.
  - split; [|done]. intros _. exists timer. split; [done|lia].
  - split; [done|]. intros (t & [= <-] & ?). lia.
  - split; [done|]. by intros (t & ? & ?).
Qed.

Lemma notify_tab_run domain action remaining tab w :
  same_store w (world_after (notify_tab URL_hostname domain action remaining tab) w) ∧
  (is_Some (settings (storage w)) →
   result_of (notify_tab URL_hostname domain action remaining tab) w = Returned ()).
Proof.
  unfold notify_tab, world_after, result_of, mbind, Async_bind, storage_get_settings.
  destruct (tab_url tab) as [url|]; simpl; [|by repeat split].
  case_bool_decide; simpl; [by repeat split|].
  destruct (settings (storage w)) as [st|]; simpl;
    [|split; [by repeat split|by intros [? ?]]].
  case_bool_decide; simpl; [|by repeat split].
  unfold try_ignore, tabs_sendMessage, log_read; simpl.
  by destruct (existsb _ _); simpl; repeat split.
Qed.

Lemma notifyTabsForDomain_same_store domain action remaining w :
  same_store w (world_after (notifyTabsForDomain URL_hostname domain action remaining) w).
Proof.
  unfold notifyTabsForDomain, world_after, mbind, Async_bind, tabs_query. simpl.
  apply for_of_same_store. intros tab w0. apply notify_tab_run.
Qed.

Lemma notifyTabsForDomain_returns domain action remaining w :
  is_Some (settings (storage w)) →
  result_of (notifyTabsForDomain URL_hostname domain action remaining) w = Returned ().
Proof.
  unfold notifyTabsForDomain, result_of, mbind, Async_bind, tabs_query. simpl.
  generalize (tabs w) at 1. intros l. revert w.
  induction l as [|tab l IH]; intros w Hst; simpl; [done|].
  unfold mbind, Async_bind.
  destruct (notify_tab_run domain action remaining tab w) as [(Hs & _) Hr].
  specialize (Hr Hst). unfold result_of, world_after in *.
  destruct (notify_tab URL_hostname domain action remaining tab w) as [[[]|e] w1];
    simpl in *; [|done].
  apply IH. by rewrite Hs.
Qed.

Lemma shouldBlockTab_same_store url now w :
  same_store w (world_after (shouldBlockTab URL_hostname url now) w) ∧
  sent (world_after (shouldBlockTab URL_hostname url now) w) = sent w.
Proof.
  unfold shouldBlockTab, world_after, mbind, Async_bind, storage_get_settings. simpl.
  destruct (settings (storage w)) as [st|]; simpl; [|by repeat split].
  destruct (enabled st); simpl; [|by repeat split].
  destruct (getBlockedDomain _ _ _) as [d|]; simpl; [|by repeat split].
  case_bool_decide; simpl; [by repeat split|].
  rewrite isDomainUnlocked_run. simpl. by repeat split.
Qed.

Lemma unlockSite_storage domain s now now_at now_alarm w :
  storage (world_after (unlockSite URL_hostname domain s now now_at now_alarm) w) =
  {| settings := settings (storage w);
     unlockTimers := Some (<[domain := {| unlockedUntil := now + s * 1000;
                                          unlockedAt := now_at |}]> (ledger w)) |}.
Proof.
  unfold unlockSite, world_after, mbind, Async_bind, storage_get_unlockTimers,
    storage_set_unlockTimers, alarms_create. simpl.
  match goal with |- context [notifyTabsForDomain ?u ?d ?a ?r ?w0] =>
    pose proof (notifyTabsForDomain_same_store d a r w0) as (H & _);
    unfold world_after in H;
    destruct (notifyTabsForDomain u d a r w0) as [[[]|e] w1] end;
    simpl in *; by rewrite H.
Qed.

Lemma unlockSite_alarms domain s now now_at now_alarm w :
  alarms (world_after (unlockSite URL_hostname domain s now now_at now_alarm) w) =
  <["reblock_" +:+ domain := now_alarm + s * 1000]> (alarms w).
Proof.
  unfold unlockSite, world_after, mbind, Async_bind, storage_get_unlockTimers,
    storage_set_unlockTimers, alarms_create. simpl.
  match goal with |- context [notifyTabsForDomain ?u ?d ?a ?r ?w0] =>
    pose proof (notifyTabsForDomain_same_store d a r w0) as (_ & H & _);
    unfold world_after in H;
    destruct (notifyTabsForDomain u d a r w0) as [[[]|e] w1] end;
    simpl in *; by rewrite H.
Qed.

Lemma unlockSite_ledger domain s now now_at now_alarm w :
  ledger (world_after (unlockSite URL_hostname domain s now now_at now_alarm) w) =
  <[domain := {| unlockedUntil := now + s * 1000; unlockedAt := now_at |}]> (ledger w).
Proof. unfold ledger at 1. by rewrite unlockSite_storage. Qed.

Lemma unlockSite_returns domain s now now_at now_alarm w :
  is_Some (settings (storage w)) →
  result_of (unlockSite URL_hostname domain s now now_at now_alarm) w =
  Returned {| success := true; result_unlockedUntil := now + s * 1000; duration := s |}.
Proof.
  intros Hst.
  unfold unlockSite, result_of, mbind, Async_bind, storage_get_unlockTimers,
    storage_set_unlockTimers, alarms_create. simpl.
  match goal with |- context [notifyTabsForDomain ?u ?d ?a ?r ?w0] =>
    pose proof (notifyTabsForDomain_returns d a r w0 Hst) as H;
    unfold result_of in H;
    destruct (notifyTabsForDomain u d a r w0) as [[[]|e] w1] end;
    simpl in *; [done|congruence].
Qed.

End HandlerEffects.

(** ** The sweep and the alarm eviction *)

Lemma cleanup_fold now (m0 m : gmap string Timer) (b : bool) :
  (∀ k, (map_fold (cleanup_step now) (m0, b) m).1 !! k =
        match m !! k with
        | Some t => if bool_decide (unlockedUntil t ≤ now) then None else m0 !! k
        | None => m0 !! k
        end) ∧
  ((map_fold (cleanup_step now) (m0, b) m).2 = true ↔
   b = true ∨ ∃ k t, m !! k = Some t ∧ unlockedUntil t ≤ now).
Proof.
  apply (map_fold_weak_ind (λ r m,
    (∀ k, r.1 !! k =
          match m !! k with
          | Some t => if bool_decide (unlockedUntil t ≤ now) then None else m0 !! k
          | None => m0 !! k
          end) ∧
    (r.2 = true ↔ b = true ∨ ∃ k t, m !! k = Some t ∧ unlockedUntil t ≤ now))).
  - split.
    + intros k. by rewrite lookup_empty.
    + simpl. split; [auto|]. intros [?|(k & t & H & _)]; [done|].
      by rewrite lookup_empty in H.
  - intros i x m' r Hi [IH1 IH2]. unfold cleanup_step.
    case_bool_decide as Hx; simpl; split.
    + intros k. destruct (decide (k = i)) as [->|Hk].
      * rewrite lookup_delete_eq, lookup_insert_eq.
        by rewrite bool_decide_eq_true_2.
      * rewrite lookup_delete_ne, lookup_insert_ne by done. apply IH1.
    + split; [|done]. intros _. right. exists i, x.
      by rewrite lookup_insert_eq.
    + intros k. rewrite IH1. destruct (decide (k = i)) as [->|Hk].
      * rewrite Hi, lookup_insert_eq. by rewrite bool_decide_eq_false_2.
      * by rewrite lookup_insert_ne.
    + rewrite IH2. split; intros [?|(k & t & Hk & Ht)]; auto; right.
      * exists k, t. split; [|done]. rewrite lookup_insert_ne; [done|].
        intros ->. congruence.
      * exists k, t. split; [|done].
        destruct (decide (i = k)) as [->|]; [|by rewrite lookup_insert_ne in Hk].
        rewrite lookup_insert_eq in Hk. simplify_eq. done.
Qed.

Lemma cleanup_fold_unexpired now (m : gmap string Timer) :
  (map_fold (cleanup_step now) (m, false) m).1 = unexpired now m.
Proof.
  apply map_eq. intros k. destruct (cleanup_fold now m m false) as [-> _].
  unfold unexpired. destruct (m !! k) as [t|] eqn:Hk.
  - case_bool_decide.
    + symmetry. apply map_lookup_filter_None. right. intros t' ?. simpl.
      simplify_eq. lia.
    + symmetry. apply map_lookup_filter_Some. simpl. split; [done|lia].
  - symmetry. apply map_lookup_filter_None. by left.
Qed.

Lemma unexpired_id now (m : gmap string Timer) :
  (¬ ∃ k t, m !! k = Some t ∧ unlockedUntil t ≤ now) → unexpired now m = m.
Proof.
  intros H. apply map_filter_id. intros k t Hk. simpl.
  destruct (decide (now < unlockedUntil t)); [done|].
  destruct H. exists k, t. split; [done|lia].
Qed.

Lemma unexpired_idemp now (m : gmap string Timer) :
  unexpired now (unexpired now m) = unexpired now m.
Proof.
  apply unexpired_id. intros (k & t & Hk & Ht).
  apply map_lookup_filter_Some in Hk as [_ Hk]. simpl in Hk. lia.
Qed.

Lemma cleanupExpiredTimers_run now w :
  result_of (cleanupExpiredTimers now) w = Returned () ∧
  ledger (world_after (cleanupExpiredTimers now) w) = unexpired now (ledger w) ∧
  settings (storage (world_after (cleanupExpiredTimers now) w)) = settings (storage w) ∧
  alarms (world_after (cleanupExpiredTimers now) w) = alarms w ∧
  ((¬ ∃ k t, ledger w !! k = Some t ∧ unlockedUntil t ≤ now) →
   storage (world_after (cleanupExpiredTimers now) w) = storage w).
Proof.
  unfold cleanupExpiredTimers, result_of, world_after, mbind, Async_bind,
    storage_get_unlockTimers. simpl. fold (ledger w).
  pose proof (cleanup_fold_unexpired now (ledger w)) as H1.
  destruct (cleanup_fold now (ledger w) (ledger w) false) as [_ H2].
  destruct (map_fold (cleanup_step now) (ledger w, false) (ledger w))
    as [timers' hasChanges]. simpl in *. subst timers'.
  destruct hasChanges; simpl.
  - split_and!; [done..|]. intros Hn. destruct Hn.
    destruct H2 as [H2 _]. by destruct (H2 eq_refl).
  - split_and!; try done.
    unfold ledger at 1. simpl. fold (ledger w). symmetry. apply unexpired_id.
    intros Hex. destruct H2 as [_ H2]. discriminate H2. by right.
Qed.

Lemma cleanupExpiredTimers_storage_Some now w m :
  unlockTimers (storage w) = Some m →
  storage (world_after (cleanupExpiredTimers now) w) =
  {| settings := settings (storage w); unlockTimers := Some (unexpired now m) |}.
Proof.
  intros Hm.
  unfold cleanupExpiredTimers, world_after, mbind, Async_bind,
    storage_get_unlockTimers. simpl. rewrite Hm. simpl.
  pose proof (cleanup_fold_unexpired now m) as H1.
  destruct (cleanup_fold now m m false) as [_ H2].
  destruct (map_fold (cleanup_step now) (m, false) m) as [timers' hasChanges].
  simpl in *. subst timers'. destruct hasChanges; simpl; [done|].
  rewrite unexpired_id.
  - destruct (storage w). simpl in *. by subst.
  - intros Hex. destruct H2 as [_ H2]. discriminate H2. by right.
Qed.

Lemma evict_run domain w :
  evict domain w =
  (Returned (),
   {| storage := {| settings := settings (storage w);
                    unlockTimers := Some (delete domain (ledger w)) |};
      alarms := alarms w; tabs := tabs w; sent := sent w;
      reads := reads w ++ ["unlockTimers"] |}).
Proof. done. Qed.

(** The two handlers cut at their [await]s: run without interruption, the
    halves are the handlers. *)
Lemma race_alarm_is_evict domain now w :
  storage (race_world (foldl (race_step domain now) (race_start w) [AlarmGet; AlarmSet])) =
  storage (world_after (evict domain) w).
Proof. reflexivity. Qed.

Lemma race_sweep_is_cleanup domain now w :
  race_world (foldl (race_step domain now) (race_start w) [SweepGet; SweepSet]) =
  world_after (cleanupExpiredTimers now) w.
Proof.
  unfold cleanupExpiredTimers, world_after, mbind, Async_bind, storage_get_unlockTimers.
  simpl. destruct (map_fold _ _ _) as [timers' []]; reflexivity.
Qed.

Lemma race_leaves_absent domain now w schedule :
  schedule ∈ interleavings →
  (∀ t, ledger w !! domain = Some t → unlockedUntil t ≤ now) →
  ledger (race_world (foldl (race_step domain now) (race_start w) schedule)) !! domain = None.
Proof.
  intros Hs Hexp.
  assert (unexpired now (ledger w) !! domain = None) as Hu.
  { apply map_lookup_filter_None. destruct (ledger w !! domain) as [t|] eqn:E; [|by left].
    right. intros t' [= <-]. simpl. specialize (Hexp t eq_refl). lia. }
  assert (∀ m : gmap string Timer, unexpired now (delete domain m) !! domain = None) as Hud.
  { intros m. apply map_lookup_filter_None. left. apply lookup_delete_eq. }
  unfold interleavings in Hs. rewrite !elem_of_cons, elem_of_nil in Hs.
  destruct Hs as [->|[->|[->|[->|[->|[->|[]]]]]]]; simpl; fold (ledger w).
  all: repeat match goal with
       | |- context [map_fold (cleanup_step ?t) (?m, false) ?m] =>
           let H1 := fresh "H1" in let H2 := fresh "H2" in
           pose proof (cleanup_fold_unexpired t m) as H1;
           destruct (cleanup_fold t m m false) as [_ H2];
           destruct (map_fold (cleanup_step t) (m, false) m) as [? []];
           simpl in H1, H2; subst; simpl
       end.
  all: unfold ledger; simpl; fold (ledger w);
       rewrite ?lookup_delete_eq; auto.
Qed.

Section AlarmEffects.
Variable URL_hostname : string → option string.

Lemma onAlarm_storage domain w :
  storage (world_after (onAlarm URL_hostname ("reblock_" +:+ domain)) w) =
  {| settings := settings (storage w);
     unlockTimers := Some (delete domain (ledger w)) |}.
Proof.
  unfold onAlarm.
  assert (startsWith ("reblock_" +:+ domain) "reblock_" = true) as ->.
  { apply startsWith_true. by exists domain. }
  rewrite remove_prefix_app.
  unfold world_after, mbind, Async_bind. rewrite evict_run.
  match goal with |- context [notifyTabsForDomain ?u ?d ?a ?r ?w0] =>
    pose proof (notifyTabsForDomain_same_store u d a r w0) as (H & _);
    unfold world_after in H;
    destruct (notifyTabsForDomain u d a r w0) as [[[]|e] w1] end;
    simpl in *; by rewrite H.
Qed.

Lemma onAlarm_ledger domain w :
  ledger (world_after (onAlarm URL_hostname ("reblock_" +:+ domain)) w) =
  delete domain (ledger w).
Proof. unfold ledger at 1. by rewrite onAlarm_storage. Qed.

Lemma onAlarm_ledger_any name w :
  ledger (world_after (onAlarm URL_hostname name) w) = ledger w ∨
  ∃ domain, ledger (world_after (onAlarm URL_hostname name) w) = delete domain (ledger w).
Proof.
  destruct (startsWith name "reblock_") eqn:E.
  - apply startsWith_true in E as [domain ->]. right. exists domain.
    apply onAlarm_ledger.
  - left. unfold onAlarm. by rewrite E.
Qed.

Lemma onAlarm_returns name w :
  is_Some (settings (storage w)) →
  result_of (onAlarm URL_hostname name) w = Returned ().
Proof.
  intros Hst. unfold onAlarm. destruct (startsWith name "reblock_"); [|done].
  unfold result_of, mbind, Async_bind. rewrite evict_run.
  match goal with |- context [notifyTabsForDomain ?u ?d ?a ?r ?w0] =>
    pose proof (notifyTabsForDomain_returns u d a r w0 Hst) as H;
    unfold result_of in H;
    destruct (notifyTabsForDomain u d a r w0) as [[[]|e] w1] end;
    simpl in *; congruence.
Qed.

End AlarmEffects.

(** ** The lock decision *)

Section LockDecision.
Variable URL_hostname : string → option string.

Lemma getBlockedDomain_Some url sites d :
  getBlockedDomain URL_hostname url sites = Some d ↔
  ∃ h site, URL_hostname url = Some h ∧
            first_match (toLowerCase h) sites site ∧ d = site_domain site.
Proof.
  unfold getBlockedDomain. destruct (URL_hostname url) as [h|].
  - rewrite first_blocked_Some. split.
    + intros (site & ? & ?). by exists h, site.
    + intros (h' & site & [= <-] & ? & ?). by exists site.
  - split; [done|]. by intros (? & ? & ? & _).
Qed.

(** The verdict of [shouldBlockTab] on any stored state, whatever its
    rules: it returns normally, and it reports blocked exactly when
    settings are stored with the global flag set, the lowercased hostname
    of the URL matches an enabled rule (the first such rule in list order
    decides), the domain of that rule passes the test [!blockedDomain] of
    the source, and the ledger holds no live entry for that domain. When
    no settings are stored, the flag is off or no rule matches, the answer
    is not-blocked and the only key read from the store is [settings]. *)
Lemma shouldBlockTab_verdict (url : string) (now : Z) (w : World) :
  (∃ status, result_of (shouldBlockTab URL_hostname url now) w = Returned status ∧
     (shouldBlock status = true ↔
      ∃ st h site,
        settings (storage w) = Some st ∧ enabled st = true ∧
        URL_hostname url = Some h ∧
        first_match (toLowerCase h) (blockedSites st) site ∧
        site_domain site ≠ "" ∧
        ¬ live (ledger w) (site_domain site) now)) ∧
  ((settings (storage w) = None ∨
    ∃ st, settings (storage w) = Some st ∧
          (enabled st = false ∨
           getBlockedDomain URL_hostname url (blockedSites st) = None)) →
   shouldBlockTab URL_hostname url now w = (Returned not_blocked, log_read "settings" w)).
Proof.
  unfold shouldBlockTab, result_of, mbind, Async_bind, storage_get_settings. simpl.
  destruct (settings (storage w)) as [st|] eqn:Hst; simpl.
  2:{ split; [|done]. exists not_blocked. split; [done|]. simpl.
      split; [done|]. by intros (? & ? & ? & ? & _). }
  destruct (enabled st) eqn:Hen; simpl.
  2:{ split; [|done]. exists not_blocked. split; [done|]. simpl.
      split; [done|]. intros (? & ? & ? & ? & ? & _). congruence. }
  destruct (getBlockedDomain URL_hostname url (blockedSites st)) as [d|] eqn:Hd; simpl.
  2:{ split; [|done]. exists not_blocked. split; [done|]. simpl.
      split; [done|]. intros (st' & h & site & [= <-] & _ & Hh & Hf & _).
      assert (getBlockedDomain URL_hostname url (blockedSites st)
              = Some (site_domain site)) as H; [|congruence].
      apply getBlockedDomain_Some. by exists h, site. }
  pose proof Hd as Hd'.
  apply getBlockedDomain_Some in Hd' as (h & site & Hh & Hf & ->).
  assert (∀ st' h' site',
    Some st = Some st' → URL_hostname url = Some h' →
    first_match (toLowerCase h') (blockedSites st') site' →
    site_domain site' = site_domain site) as Hsame.
  { intros st' h' site' [= <-] Hh' Hf'.
    assert (getBlockedDomain URL_hostname url (blockedSites st)
            = Some (site_domain site)) as H1
      by (apply getBlockedDomain_Some; by exists h, site).
    assert (getBlockedDomain URL_hostname url (blockedSites st)
            = Some (site_domain site')) as H2
      by (apply getBlockedDomain_Some; by exists h', site').
    congruence. }
  case_bool_decide as Hempty; simpl.
  - split; [|done].
    exists not_blocked. split; [done|]. simpl. split; [done|].
    intros (st' & h' & site' & E1 & _ & E2 & E3 & Hne & _).
    rewrite (Hsame _ _ _ E1 E2 E3) in Hne. done.
  - split; [|intros [?|(? & [= <-] & [?|?])]; congruence].
    destruct (isDomainUnlocked_live (site_domain site) now (log_read "settings" w))
      as (status & Hr & Hlive).
    change (ledger (log_read "settings" w)) with (ledger w) in Hlive.
    unfold result_of in Hr.
    destruct (isDomainUnlocked (site_domain site) now (log_read "settings" w))
      as [o w']. simpl in Hr. subst o. simpl.
    eexists. split; [done|]. simpl.
    rewrite negb_true_iff, <- not_true_iff_false, Hlive.
    split.
    + intros Hn. by exists st, h, site.
    + intros (st' & h' & site' & E1 & _ & E2 & E3 & _ & Hn).
      by rewrite (Hsame _ _ _ E1 E2 E3) in Hn.
Qed.

(** C9. Evaluating [shouldBlockTab], for any URL, at any instant and in any
    state, leaves the stored settings and unlock timers, the alarms and
    the messages sent as they were; so does any sequence of evaluations. *)
Theorem shouldBlockTab_side_effect_free (url : string) (now : Z) (w : World) :
  (storage (world_after (shouldBlockTab URL_hostname url now) w) = storage w ∧
   alarms (world_after (shouldBlockTab URL_hostname url now) w) = alarms w ∧
   tabs (world_after (shouldBlockTab URL_hostname url now) w) = tabs w ∧
   sent (world_after (shouldBlockTab URL_hostname url now) w) = sent w) ∧
  ∀ calls : list (string * Z),
    let w' := foldl (λ w0 call,
                world_after (shouldBlockTab URL_hostname call.1 call.2) w0) w calls in
    storage w' = storage w ∧ alarms w' = alarms w ∧ sent w' = sent w.
Proof.
  split.
  - destruct (shouldBlockTab_same_store URL_hostname url now w) as [(? & ? & ?) ?].
    done.
  - intros calls. revert w. induction calls as [|[u t] calls IH]; intros w; simpl.
    + done.
    + destruct (shouldBlockTab_same_store URL_hostname u t w) as [(H1 & H2 & _) H3].
      destruct (IH (world_after (shouldBlockTab URL_hostname u t) w)) as (? & ? & ?).
      simpl in *. split_and!; congruence.
Qed.

End LockDecision.

(** ** The unlock ledger: grant, read, evict *)

Lemma ceil_div_bounds a : (ceil_div a 1000 - 1) * 1000 < a ≤ ceil_div a 1000 * 1000.
Proof.
  unfold ceil_div. pose proof (Z.div_mod (- a) 1000).
  pose proof (Z.mod_pos_bound (- a) 1000). lia.
Qed.

Lemma ceil_div_seconds s : ceil_div (s * 1000) 1000 = s.
Proof. unfold ceil_div. rewrite <- Z.mul_opp_l, Z.div_mul by lia. lia. Qed.

Section UnlockLedger.
Variable URL_hostname : string → option string.

(** C3. For every domain [d] and positive duration [s]: in the state left
    by [unlockSite(d, s)] run at instant [now] (the clock read that
    enters [unlockedUntil]; the two later reads are any), [isDomainUnlocked(d)]
    evaluated at that same instant reports unlocked with exactly [s]
    seconds remaining; evaluated at any instant before the expiry it
    reports unlocked with the remaining milliseconds rounded up to whole
    seconds; evaluated at any instant at or after the expiry it reports
    not unlocked, in that very state, on which neither the alarm listener
    nor the sweep has run. The read changes neither the store nor the
    alarms, and in every state it reports unlocked exactly when the ledger
    holds an entry for the domain whose expiry lies after the instant of
    the read. *)
Theorem unlockSite_then_isDomainUnlocked (d : string) (s now now_at now_alarm : Z)
    (w : World) :
  0 < s →
  let w' := world_after (unlockSite URL_hostname d s now now_at now_alarm) w in
  result_of (isDomainUnlocked d now) w' =
    Returned {| unlocked := true; remainingTime := s |} ∧
  (∀ now', now ≤ now' < now + s * 1000 →
     ∃ r, result_of (isDomainUnlocked d now') w' =
            Returned {| unlocked := true; remainingTime := r |} ∧
          (r - 1) * 1000 < now + s * 1000 - now' ≤ r * 1000) ∧
  (∀ now', now + s * 1000 ≤ now' →
     result_of (isDomainUnlocked d now') w' =
       Returned {| unlocked := false; remainingTime := 0 |}) ∧
  (∀ now', storage (world_after (isDomainUnlocked d now') w') = storage w' ∧
           alarms (world_after (isDomainUnlocked d now') w') = alarms w') ∧
  (∀ (w0 : World) (d0 : string) (now' : Z),
     ∃ status, result_of (isDomainUnlocked d0 now') w0 = Returned status ∧
               (unlocked status = true ↔ live (ledger w0) d0 now')).
Proof.
  intros Hs w'.
  assert (ledger w' !! d =
          Some {| unlockedUntil := now + s * 1000; unlockedAt := now_at |}) as Hl.
  { unfold w'. rewrite unlockSite_ledger. apply lookup_insert_eq. }
  unfold result_of, world_after. split_and!.
  - rewrite isDomainUnlocked_run, Hl. simpl.
    rewrite bool_decide_eq_true_2 by lia.
    replace (now + s * 1000 - now) with (s * 1000) by lia.
    by rewrite ceil_div_seconds.
  - intros now' Hn. rewrite isDomainUnlocked_run, Hl. simpl.
    rewrite bool_decide_eq_true_2 by lia.
    eexists. split; [done|]. apply ceil_div_bounds.
  - intros now' Hn. rewrite isDomainUnlocked_run, Hl. simpl.
    by rewrite bool_decide_eq_false_2 by lia.
  - intros now'. by rewrite isDomainUnlocked_run.
  - intros w0 d0 now'. apply isDomainUnlocked_live.
Qed.

(** C7, amended. Eviction is idempotent and never fails on an absent key:
    running the alarm listener for a domain twice in a row leaves the store
    as one run leaves it, with the domain absent; the sweep run twice
    leaves the store as one run leaves it; an alarm eviction and a sweep
    of the same instant leave the same store in either order, with the
    domain absent; evicting a domain that has no entry leaves the ledger
    as it was; the eviction and the sweep return normally in every state
    (the whole alarm listener does whenever settings are stored). What is
    removed: the sweep removes exactly the entries whose expiry is at or
    before the instant of the sweep, while the alarm listener removes the
    entry of its domain whatever its expiry. When the two handlers race,
    each cut at its [await] between reading and writing the store, an
    entry that has expired ends absent in every interleaving. *)
Theorem eviction_idempotent (d : string) (now : Z) (w : World) :
  let alarm := world_after (onAlarm URL_hostname ("reblock_" +:+ d)) in
  let sweep := world_after (cleanupExpiredTimers now) in
  (storage (alarm (alarm w)) = storage (alarm w) ∧ ledger (alarm w) !! d = None) ∧
  storage (sweep (sweep w)) = storage (sweep w) ∧
  (storage (sweep (alarm w)) = storage (alarm (sweep w)) ∧
   ledger (sweep (alarm w)) !! d = None) ∧
  (ledger w !! d = None → ledger (alarm w) = ledger w) ∧
  (result_of (evict d) w = Returned () ∧
   result_of (cleanupExpiredTimers now) w = Returned () ∧
   (is_Some (settings (storage w)) →
    result_of (onAlarm URL_hostname ("reblock_" +:+ d)) w = Returned ())) ∧
  (ledger (sweep w) = unexpired now (ledger w) ∧
   ledger (alarm w) = delete d (ledger w)) ∧
  (∀ schedule, schedule ∈ interleavings →
     (∀ t, ledger w !! d = Some t → unlockedUntil t ≤ now) →
     ledger (race_world (foldl (race_step d now) (race_start w) schedule)) !! d = None).
Proof.
  intros alarm sweep.
  assert (∀ w0, storage (alarm w0) =
                {| settings := settings (storage w0);
                   unlockTimers := Some (delete d (ledger w0)) |}) as Ha
    by (intros w0; apply onAlarm_storage).
  assert (∀ w0, ledger (alarm w0) = delete d (ledger w0)) as Hal
    by (intros w0; apply onAlarm_ledger).
  assert (∀ w0, ledger (sweep w0) = unexpired now (ledger w0) ∧
                settings (storage (sweep w0)) = settings (storage w0)) as Hsw.
  { intros w0. destruct (cleanupExpiredTimers_run now w0) as (_ & ? & ? & _). done. }
  assert (∀ w0, is_Some (unlockTimers (storage w0)) →
                storage (sweep w0) =
                {| settings := settings (storage w0);
                   unlockTimers := Some (unexpired now (ledger w0)) |}) as Hsw'.
  { intros w0 [m Hm]. unfold sweep, ledger. rewrite Hm. simpl.
    by apply cleanupExpiredTimers_storage_Some. }
  split_and!.
  - rewrite !Ha. simpl. rewrite Hal. by rewrite delete_delete_eq.
  - rewrite Hal. apply lookup_delete_eq.
  - destruct (unlockTimers (storage w)) as [m|] eqn:Hm.
    + rewrite (Hsw' (sweep w)).
      * destruct (Hsw w) as [-> ->]. rewrite unexpired_idemp.
        rewrite (Hsw' w); [done|by rewrite Hm].
      * rewrite (Hsw' w); [by eexists|by rewrite Hm].
    + destruct (cleanupExpiredTimers_run now w) as (_ & _ & _ & _ & Hid).
      assert (storage (sweep w) = storage w) as Hw.
      { apply Hid. unfold ledger. rewrite Hm. simpl.
        intros (k & t & Hk & _). by rewrite lookup_empty in Hk. }
      destruct (cleanupExpiredTimers_run now (sweep w)) as (_ & _ & _ & _ & Hid').
      apply Hid'. unfold ledger. rewrite Hw, Hm. simpl.
      intros (k & t & Hk & _). by rewrite lookup_empty in Hk.
  - rewrite (Hsw' (alarm w)) by (rewrite Ha; by eexists).
    rewrite !Ha. simpl. destruct (Hsw w) as [-> ->]. rewrite Hal.
    unfold unexpired. by rewrite map_filter_delete.
  - destruct (Hsw (alarm w)) as [-> _]. rewrite Hal.
    apply map_lookup_filter_None. left. apply lookup_delete_eq.
  - intros Hd. rewrite Hal. by apply delete_id.
  - done.
  - apply cleanupExpiredTimers_run.
  - apply onAlarm_returns.
  - apply Hsw.
  - apply Hal.
  - intros schedule. apply race_leaves_absent.
Qed.

End UnlockLedger.

(** ** The volume table *)

Lemma in_range_true db mapping : in_range db mapping = true ↔ level_in db mapping.
Proof.
  unfold in_range, level_in.
  rewrite andb_true_iff, negb_true_iff, Qle_bool_iff, <- not_true_iff_false,
    Qle_bool_iff.
  split; intros [? ?]; split; auto using Qnot_le_lt, Qlt_not_le.
Qed.

Ltac table_cases db :=
  unfold getVolumeDurationMapping, VOLUME_DURATION_MAP, first_in_range, in_range;
  simpl;
  repeat match goal with
         | |- context [Qle_bool ?c db] =>
             let E := fresh "E" in
             destruct (Qle_bool c db) eqn:E;
             [apply Qle_bool_iff in E
             |apply not_true_iff_false in E; rewrite Qle_bool_iff in E];
             simpl
         end;
  unfold level_in, Qle, Qlt in *; simpl in *.

Lemma first_in_range_Some db table mapping :
  first_in_range db table = Some mapping ↔
  ∃ pre post, table = pre ++ mapping :: post ∧ level_in db mapping ∧
              Forall (λ m, ¬ level_in db m) pre.
Proof.
  induction table as [|m rest IH]; simpl.
  - split; [done|]. intros (pre & post & H & _). by destruct pre.
  - destruct (in_range db m) eqn:E.
    + apply in_range_true in E. split.
      * intros [= <-]. exists [], rest. split_and!; [done..|constructor].
      * intros (pre & post & H & Hm & Hpre). destruct pre as [|m' pre]; simplify_eq/=.
        { done. }
        apply Forall_cons in Hpre as [Hn _]. done.
    + apply not_true_iff_false in E. rewrite in_range_true in E. rewrite IH. split.
      * intros (pre & post & -> & Hm & Hpre). exists (m :: pre), post.
        split_and!; [done..|]. by constructor.
      * intros (pre & post & H & Hm & Hpre). destruct pre as [|m' pre]; simplify_eq/=.
        { done. }
        apply Forall_cons in Hpre as [_ Hpre]. by exists pre, post.
Qed.

Lemma first_in_range_None db table :
  first_in_range db table = None ↔ Forall (λ m, ¬ level_in db m) table.
Proof.
  induction table as [|m rest IH]; simpl.
  - split; [constructor|done].
  - rewrite Forall_cons, <- IH, <- in_range_true.
    destruct (in_range db m); intuition congruence.
Qed.

(** The lookup always selects an entry of the table, and its duration is
    positive. *)
Lemma getVolumeDurationMapping_total (db : Q) :
  ∃ mapping, getVolumeDurationMapping db = Some mapping ∧
             mapping ∈ VOLUME_DURATION_MAP ∧ 0 < mapping_duration mapping.
Proof.
  table_cases db; eexists; (split; [reflexivity|]); simpl;
    (split; [|lia]); unfold VOLUME_DURATION_MAP; set_solver.
Qed.

(** The ranges of the table do not overlap: a level lies in at most one. *)
Lemma VOLUME_DURATION_MAP_no_overlap (db : Q) (m1 m2 : VolumeMapping) :
  m1 ∈ VOLUME_DURATION_MAP → m2 ∈ VOLUME_DURATION_MAP →
  level_in db m1 → level_in db m2 → m1 = m2.
Proof.
  unfold VOLUME_DURATION_MAP. rewrite !elem_of_cons, !elem_of_nil.
  unfold level_in, Qle, Qlt.
  intros [->|[->|[->|[->|[->|[]]]]]] [->|[->|[->|[->|[->|[]]]]]]; simpl;
    intros [? ?] [? ?]; try reflexivity; lia.
Qed.

(** The ranges leave no gap between the lowest minimum and the highest
    maximum, and there the lookup returns the one entry that contains the
    level. *)
Lemma getVolumeDurationMapping_inside (db : Q) :
  (-50 <= db)%Q → (db < 0)%Q →
  ∃ mapping, getVolumeDurationMapping db = Some mapping ∧
             mapping ∈ VOLUME_DURATION_MAP ∧ level_in db mapping.
Proof.
  intros H1 H2. unfold Qle, Qlt in H1, H2. simpl in H1, H2.
  table_cases db; try lia; eexists; (split; [reflexivity|]); simpl;
    (split; [unfold VOLUME_DURATION_MAP; set_solver|]);
    unfold level_in, Qle, Qlt; simpl; lia.
Qed.

(** C10. For every level at or above 0 dB, no entry of the table contains
    the level and the lookup returns the first entry of the table, the
    30-second Whisper entry; the same default is taken for every level
    below the lowest minimum, -50 dB. *)
Theorem getVolumeDurationMapping_above_table (db : Q) :
  (0 <= db)%Q →
  first_in_range db VOLUME_DURATION_MAP = None ∧
  getVolumeDurationMapping db = VOLUME_DURATION_MAP !! 0%nat ∧
  (∃ mapping, getVolumeDurationMapping db = Some mapping ∧
              mapping_duration mapping = 30 ∧ label mapping = "Whisper") ∧
  (∀ quiet_db : Q, (quiet_db < -50)%Q →
     first_in_range quiet_db VOLUME_DURATION_MAP = None ∧
     getVolumeDurationMapping quiet_db = VOLUME_DURATION_MAP !! 0%nat).
Proof.
  intros H. unfold Qle in H. simpl in H. split_and!.
  - table_cases db; try reflexivity; lia.
  - table_cases db; try reflexivity; lia.
  - table_cases db; try lia; eexists; split_and!; reflexivity.
  - intros q Hq. unfold Qlt in Hq. simpl in Hq.
    split; table_cases q; try reflexivity; lia.
Qed.

(** C5, the failing input. At the level 0 dB, which is not below the
    lowest minimum of the table, no range contains the level and the
    lookup takes the default, the 30-second Whisper entry. *)
Theorem getVolumeDurationMapping_at_zero :
  ¬ (0 < -50)%Q ∧
  first_in_range 0%Q VOLUME_DURATION_MAP = None ∧
  getVolumeDurationMapping 0%Q = VOLUME_DURATION_MAP !! 0%nat ∧
  mapping_duration <$> getVolumeDurationMapping 0%Q = Some 30.
Proof. split_and!; [by intros ?|reflexivity..]. Qed.

(** ** The representative level *)

Global Instance Qle_total : Total Qle.
Proof. intros x y. destruct (Qlt_le_dec x y); auto using Qlt_le_weak. Qed.

Lemma merge_sort_length (l : list Q) : length (merge_sort Qle l) = length l.
Proof. apply Permutation_length, merge_sort_Permutation. Qed.

Lemma slice_split {A} (a b : nat) (l : list A) :
  (a ≤ b)%nat → l = take a l ++ slice a b l ++ drop b l.
Proof.
  intros Hab. unfold slice.
  rewrite <- (take_drop a l) at 1. f_equal.
  rewrite <- (take_drop (b - a) (drop a l)) at 1. f_equal.
  rewrite drop_drop. f_equal. lia.
Qed.

(** C6, amended. For every non-empty buffer of [n] samples the sorted
    buffer splits into the [n / 10] lowest samples, the kept samples and
    the [n - 9 * n / 10] highest samples, that is a tenth of the count
    rounded down at the bottom and rounded up at the top; the result is
    the average of the kept samples whenever some are kept; for 10 samples
    exactly one lowest and one highest sample are discarded; no sample is
    kept only for a buffer of one sample, and the result is then the
    middle element of the sorted buffer, that sample itself. For the empty
    buffer the result is -60, a level below every range of the table, for
    which the lookup returns the first entry of the table. *)
Theorem calculateAverageVolume_trimmed_mean (samples : list Q) :
  (samples ≠ [] →
   let n := length samples in
   ∃ lowest kept highest,
     merge_sort Qle samples = lowest ++ kept ++ highest ∧
     Sorted Qle (lowest ++ kept ++ highest) ∧
     lowest ++ kept ++ highest ≡ₚ samples ∧
     length lowest = (n / 10)%nat ∧
     length highest = (n - 9 * n / 10)%nat ∧
     length highest = ((n + 9) / 10)%nat ∧
     (n = 10%nat → length lowest = 1%nat ∧ length kept = 8%nat ∧ length highest = 1%nat) ∧
     (kept ≠ [] → calculateAverageVolume samples = mean kept) ∧
     (kept = [] →
      n = 1%nat ∧
      calculateAverageVolume samples = nth (n / 2) (merge_sort Qle samples) 0%Q ∧
      samples = [calculateAverageVolume samples])) ∧
  calculateAverageVolume [] = (-60)%Q ∧
  first_in_range (-60)%Q VOLUME_DURATION_MAP = None ∧
  getVolumeDurationMapping (calculateAverageVolume []) = VOLUME_DURATION_MAP !! 0%nat.
Proof.
  split; [|by split_and!].
  intros Hne n.
  set (sorted := merge_sort Qle samples).
  assert (length sorted = n) as Hlen by apply merge_sort_length.
  assert (n ≠ 0)%nat as Hn by (unfold n; destruct samples; simpl; [done|lia]).
  pose proof (Nat.div_mod_eq n 10) as Hd1.
  pose proof (Nat.mod_upper_bound n 10) as Hm1.
  pose proof (Nat.div_mod_eq (9 * n) 10) as Hd9.
  pose proof (Nat.mod_upper_bound (9 * n) 10) as Hm9.
  pose proof (Nat.div_mod_eq (n + 9) 10) as Hd2.
  pose proof (Nat.mod_upper_bound (n + 9) 10) as Hm2.
  exists (take (n / 10) sorted), (slice (n / 10) (9 * n / 10) sorted),
         (drop (9 * n / 10) sorted).
  assert (length (slice (n / 10) (9 * n / 10) sorted)
          = (9 * n / 10 - n / 10)%nat) as Hkept.
  { unfold slice. rewrite length_take, length_drop. lia. }
  assert (calculateAverageVolume samples =
          if (length (slice (n / 10) (9 * n / 10) sorted) =? 0)%nat
          then nth (n / 2) sorted 0%Q
          else mean (slice (n / 10) (9 * n / 10) sorted)) as Hcode.
  { unfold calculateAverageVolume. fold sorted. fold n. rewrite Hlen.
    destruct (n =? 0)%nat eqn:E; [apply Nat.eqb_eq in E; lia|]. done. }
  split_and!.
  - apply slice_split. lia.
  - rewrite <- slice_split by lia. apply Sorted_merge_sort; apply _.
  - rewrite <- slice_split by lia. apply merge_sort_Permutation.
  - rewrite length_take. lia.
  - rewrite length_drop. lia.
  - rewrite length_drop. lia.
  - intros Hn10. rewrite Hkept, length_take, length_drop, Hlen, Hn10. done.
  - intros Hk. rewrite Hcode.
    destruct (slice (n / 10) (9 * n / 10) sorted); [done|]. done.
  - intros Hk.
    assert (9 * n / 10 - n / 10 = 0)%nat as H0 by (by rewrite <- Hkept, Hk).
    assert (n = 1%nat) as Hn1 by lia.
    rewrite Hcode, Hk. simpl length. simpl Nat.eqb. split_and!; [done..|].
    pose proof (merge_sort_Permutation Qle samples) as Hp. fold sorted in Hp.
    destruct sorted as [|x [|? ?]]; simpl in Hlen; try lia.
    apply Permutation_singleton_l in Hp. rewrite Hn1. simpl. done.
Qed.

(** ** Edit scripts and the recurrence *)

Lemma lev_nil_r s : lev s [] = length s.
Proof. by destruct s. Qed.

Lemma lev_cons a s b t :
  lev (a :: s) (b :: t) =
  if decide (a = b) then lev s t
  else S (Nat.min (lev s (b :: t)) (Nat.min (lev (a :: s) t) (lev s t))).
Proof. reflexivity. Qed.

Lemma edit_script_insert_all {A} (t : list A) : edit_script [] t (length t).
Proof. induction t; simpl; by constructor. Qed.

Lemma edit_script_delete_all {A} (s : list A) : edit_script s [] (length s).
Proof. induction s; simpl; by constructor. Qed.

Lemma lev_edit_script s t : edit_script s t (lev s t).
Proof.
  revert t. induction s as [|a s IHs]; intros t.
  - apply edit_script_insert_all.
  - induction t as [|b t IHt].
    + apply (edit_script_delete_all (a :: s)).
    + rewrite lev_cons. destruct (decide (a = b)) as [->|Hab].
      * by constructor.
      * destruct (Nat.min_dec (lev s (b :: t)) (Nat.min (lev (a :: s) t) (lev s t)))
          as [-> | ->].
        { by constructor. }
        destruct (Nat.min_dec (lev (a :: s) t) (lev s t)) as [-> | ->];
          by constructor.
Qed.

Lemma edit_script_drop_target {A} (s : list A) b t n :
  edit_script s (b :: t) n → ∃ n', (n' ≤ S n)%nat ∧ edit_script s t n'.
Proof.
  intros H. remember (b :: t) as u eqn:Hu. revert b t Hu.
  induction H as [|a s t0 n H IH|a c s t0 n H IH|a s t0 n H IH|c s t0 n H IH];
    intros b t Hu; simplify_eq.
  - exists (S n). split; [lia|]. by constructor.
  - exists (S n). split; [lia|]. by constructor.
  - destruct (IH b t eq_refl) as (n' & Hn' & H').
    exists (S n'). split; [lia|]. by constructor.
  - exists n. split; [lia|done].
Qed.

Lemma edit_script_drop_source {A} (a : A) s t n :
  edit_script (a :: s) t n → ∃ n', (n' ≤ S n)%nat ∧ edit_script s t n'.
Proof.
  intros H. remember (a :: s) as u eqn:Hu. revert a s Hu.
  induction H as [|c s0 t n H IH|c b s0 t n H IH|c s0 t n H IH|b s0 t n H IH];
    intros a s Hu; simplify_eq.
  - exists (S n). split; [lia|]. by constructor.
  - exists (S n). split; [lia|]. by constructor.
  - exists n. split; [lia|done].
  - destruct (IH a s eq_refl) as (n' & Hn' & H').
    exists (S n'). split; [lia|]. by constructor.
Qed.

Lemma lev_optimal s t n : edit_script s t n → (lev s t ≤ n)%nat.
Proof.
  remember (length s + length t)%nat as size eqn:Hsize.
  revert s t n Hsize.
  induction size as [size IH] using lt_wf_ind. intros s t n Hsize H.
  assert (∀ s0 t0 n0, (length s0 + length t0 < length s + length t)%nat →
                      edit_script s0 t0 n0 → (lev s0 t0 ≤ n0)%nat) as IH'.
  { intros s0 t0 n0 Hlt H0. apply (IH (length s0 + length t0)%nat); [lia|done..]. }
  clear IH Hsize.
  inversion H as [|a s' t' n' H'|a b s' t' n' H'|a s' t' n' H'|b s' t' n' H'];
    subst.
  - done.
  - rewrite lev_cons, decide_True by done. apply IH'; [simpl; lia|done].
  - rewrite lev_cons. assert (lev s' t' ≤ n')%nat by (apply IH'; [simpl; lia|done]).
    destruct (decide (a = b)); lia.
  - destruct t as [|b t'].
    + assert (lev s' [] ≤ n')%nat by (apply IH'; [simpl; lia|done]).
      rewrite !lev_nil_r in *. simpl. lia.
    + rewrite lev_cons. destruct (decide (a = b)) as [->|Hab].
      * destruct (edit_script_drop_target _ _ _ _ H') as (n1 & Hn1 & H1).
        assert (lev s' t' ≤ n1)%nat by (apply IH'; [simpl; lia|done]).
        lia.
      * assert (lev s' (b :: t') ≤ n')%nat by (apply IH'; [simpl; lia|done]).
        lia.
  - destruct s as [|a s'].
    + assert (lev [] t' ≤ n')%nat by (apply IH'; [simpl; lia|done]).
      simpl in *. lia.
    + rewrite lev_cons. destruct (decide (a = b)) as [->|Hab].
      * destruct (edit_script_drop_source _ _ _ _ H') as (n1 & Hn1 & H1).
        assert (lev s' t' ≤ n1)%nat by (apply IH'; [simpl; lia|done]).
        lia.
      * assert (lev (a :: s') t' ≤ n')%nat by (apply IH'; [simpl; lia|done]).
        lia.
Qed.

Lemma edit_script_snoc_keep {A} (a : A) s t n :
  edit_script s t n → edit_script (s ++ [a]) (t ++ [a]) n.
Proof. induction 1; simpl; by repeat constructor. Qed.

Lemma edit_script_snoc_substitute {A} (a b : A) s t n :
  edit_script s t n → edit_script (s ++ [a]) (t ++ [b]) (S n).
Proof. induction 1; simpl; by repeat constructor. Qed.

Lemma edit_script_snoc_delete {A} (a : A) s t n :
  edit_script s t n → edit_script (s ++ [a]) t (S n).
Proof. induction 1; simpl; by repeat constructor. Qed.

Lemma edit_script_snoc_insert {A} (b : A) s t n :
  edit_script s t n → edit_script s (t ++ [b]) (S n).
Proof. induction 1; simpl; by repeat constructor. Qed.

Lemma edit_script_rev {A} (s t : list A) n :
  edit_script s t n → edit_script (rev s) (rev t) n.
Proof.
  induction 1; simpl;
    auto using edit_done, edit_script_snoc_keep, edit_script_snoc_substitute,
      edit_script_snoc_delete, edit_script_snoc_insert.
Qed.

(** The recurrence run on the reversed strings gives the distance. *)
Lemma lev_rev_levenshtein (str1 str2 : string) :
  levenshtein str1 str2 (lev (rev (chars str1)) (rev (chars str2))).
Proof.
  split.
  - rewrite <- (rev_involutive (chars str1)), <- (rev_involutive (chars str2)) at 1.
    apply edit_script_rev, lev_edit_script.
  - intros n H. apply lev_optimal, edit_script_rev, H.
Qed.

(** ** The table of [levenshteinDistance] *)

Lemma String_get_chars k s : String.get k s = chars s !! k.
Proof. revert k. induction s as [|c s IH]; intros [|k]; simpl; auto. Qed.

Lemma foldl_seq_invariant {T} (P : nat → T → Prop) (f : T → nat → T)
    (start len : nat) (s0 : T) :
  P start s0 →
  (∀ k s, (start ≤ k < start + len)%nat → P k s → P (S k) (f s k)) →
  P (start + len)%nat (foldl f s0 (seq start len)).
Proof.
  revert start s0. induction len as [|len IH]; intros start s0 H0 Hstep; simpl.
  - by rewrite Nat.add_0_r.
  - rewrite Nat.add_succ_r. apply (IH (S start)).
    + apply Hstep; [lia|done].
    + intros k s Hk. apply Hstep. lia.
Qed.

Lemma table_dims_set m n dp i j v :
  table_dims m n dp → table_dims m n (dp_set dp i j v).
Proof.
  intros [Hl Hr]. unfold dp_set. split.
  - by rewrite length_alter.
  - apply Forall_alter; [done|]. intros row _ Hrow. by rewrite length_insert.
Qed.

Lemma dp_get_set_eq m n dp i j v :
  table_dims m n dp → (i ≤ m)%nat → (j ≤ n)%nat →
  dp_get (dp_set dp i j v) i j = v.
Proof.
  intros [Hl Hr] Hi Hj. unfold dp_get, dp_set.
  rewrite list_lookup_alter_eq.
  destruct (lookup_lt_is_Some_2 dp i) as [row Hrow]; [lia|].
  rewrite Hrow. simpl.
  rewrite list_lookup_insert_eq; [done|].
  rewrite Forall_forall in Hr. rewrite (Hr row); [lia|].
  by eapply list_elem_of_lookup_2.
Qed.

Lemma dp_get_set_ne dp i j v i' j' :
  (i', j') ≠ (i, j) → dp_get (dp_set dp i j v) i' j' = dp_get dp i' j'.
Proof.
  intros Hne. unfold dp_get, dp_set.
  destruct (decide (i' = i)) as [->|Hi].
  - rewrite list_lookup_alter_eq. destruct (dp !! i) as [row|]; simpl; [|done].
    rewrite list_lookup_insert_ne; [done|]. congruence.
  - by rewrite list_lookup_alter_ne.
Qed.

Section Table.
Variables str1 str2 : string.

Local Abbreviation m := (String.length str1).
Local Abbreviation n := (String.length str2).
Local Abbreviation D := (prefix_distance str1 str2).

Lemma prefix_distance_row0 j : (j ≤ n)%nat → D 0 j = j.
Proof.
  intros Hj. unfold prefix_distance. simpl.
  rewrite length_rev, length_take, chars_length. lia.
Qed.

Lemma prefix_distance_col0 i : (i ≤ m)%nat → D i 0 = i.
Proof.
  intros Hi. unfold prefix_distance. simpl.
  rewrite lev_nil_r, length_rev, length_take, chars_length. lia.
Qed.

Lemma prefix_distance_step i j :
  (i < m)%nat → (j < n)%nat →
  D (S i) (S j) =
  if bool_decide (String.get i str1 = String.get j str2) then D i j
  else S (Nat.min (D i (S j)) (Nat.min (D (S i) j) (D i j))).
Proof.
  intros Hi Hj. unfold prefix_distance.
  rewrite !String_get_chars.
  destruct (lookup_lt_is_Some_2 (chars str1) i) as [a Ha];
    [rewrite chars_length; lia|].
  destruct (lookup_lt_is_Some_2 (chars str2) j) as [b Hb];
    [rewrite chars_length; lia|].
  rewrite (take_S_r _ _ _ Ha), (take_S_r _ _ _ Hb), Ha, Hb.
  rewrite !rev_unit, lev_cons.
  destruct (decide (a = b)) as [->|Hab].
  - by rewrite bool_decide_eq_true_2.
  - rewrite bool_decide_eq_false_2; [done|]. congruence.
Qed.

Local Abbreviation filled := (table_filled str1 str2).

Lemma dp_cell_filled i j dp :
  (1 ≤ i ≤ m)%nat → (1 ≤ j ≤ n)%nat →
  filled i j dp → filled i (S j) (dp_cell str1 str2 i dp j).
Proof.
  intros Hi Hj [Hdims Hcells].
  destruct i as [|i0]; [lia|]. destruct j as [|j0]; [lia|].
  assert (dp_cell str1 str2 (S i0) dp (S j0) =
          dp_set dp (S i0) (S j0) (D (S i0) (S j0))) as ->.
  { unfold dp_cell. replace (S i0 - 1)%nat with i0 by lia.
    replace (S j0 - 1)%nat with j0 by lia.
    rewrite prefix_distance_step by lia.
    rewrite !Hcells by lia. by case_bool_decide. }
  split; [by apply table_dims_set|].
  intros i' j' Hi' Hj' Hdone.
  destruct (decide ((i', j') = (S i0, S j0))) as [[= -> ->]|Hne].
  - by apply (dp_get_set_eq m n).
  - rewrite dp_get_set_ne by done. apply Hcells; [done..|].
    destruct (decide (i' = S i0)); [|lia].
    destruct (decide (j' = S j0)); [congruence|lia].
Qed.

Lemma levenshteinDistance_table :
  levenshteinDistance str1 str2 = D m n.
Proof.
  unfold levenshteinDistance.
  set (dp0 := replicate (S m) (replicate (S n) 0%nat)).
  assert (table_dims m n dp0) as H0.
  { split; [apply length_replicate|].
    apply Forall_replicate, length_replicate. }
  set (dp1 := foldl (λ dp i, dp_set dp i 0 i) dp0 (seq 0 (S m))).
  assert (table_dims m n dp1 ∧ ∀ i, (i ≤ m)%nat → dp_get dp1 i 0 = i) as [H1 H1'].
  { pose proof (foldl_seq_invariant
      (λ k dp, table_dims m n dp ∧ ∀ i, (i < k)%nat → (i ≤ m)%nat → dp_get dp i 0 = i)
      (λ dp i, dp_set dp i 0 i) 0 (S m) dp0) as H.
    destruct H as [Hd Hc].
    - split; [done|]. intros i ?. lia.
    - intros k dp Hk [Hd Hc]. split; [by apply table_dims_set|].
      intros i Hi Him. destruct (decide (i = k)) as [->|].
      + apply (dp_get_set_eq m n); [done|lia..].
      + rewrite dp_get_set_ne by congruence. apply Hc; lia.
    - split; [done|]. intros i Hi. apply Hc; lia. }
  set (dp2 := foldl (λ dp j, dp_set dp 0 j j) dp1 (seq 0 (S n))).
  assert (filled 1 1 dp2) as H2.
  { pose proof (foldl_seq_invariant
      (λ k dp, table_dims m n dp ∧ (∀ i, (i ≤ m)%nat → dp_get dp i 0 = i) ∧
               ∀ j, (j < k)%nat → (j ≤ n)%nat → dp_get dp 0 j = j)
      (λ dp j, dp_set dp 0 j j) 0 (S n) dp1) as H.
    destruct H as (Hd & Hc & Hr).
    - split_and!; [done..|]. intros j ?. lia.
    - intros k dp Hk (Hd & Hc & Hr). split_and!; [by apply table_dims_set| |].
      + intros i Hi. destruct (decide ((i, 0%nat) = (0%nat, k))) as [[= -> <-]|].
        * apply (dp_get_set_eq m n); [done|lia..].
        * rewrite dp_get_set_ne by done. by apply Hc.
      + intros j Hj Hjn. destruct (decide (j = k)) as [->|].
        * apply (dp_get_set_eq m n); [done|lia..].
        * rewrite dp_get_set_ne by congruence. apply Hr; lia.
    - split; [done|]. intros i' j' Hi' Hj' Hdone.
      destruct (decide (i' = 0%nat)) as [->|].
      + rewrite prefix_distance_row0 by done. apply Hr; lia.
      + assert (j' = 0%nat) as -> by lia.
        rewrite prefix_distance_col0 by done. by apply Hc. }
  pose proof (foldl_seq_invariant (λ i dp, filled i 1 dp)
    (λ dp i, foldl (dp_cell str1 str2 i) dp (seq 1 n)) 1 m dp2 H2) as H3.
  destruct H3 as [_ Hcells].
  - intros i dp Hi Hf.
    pose proof (foldl_seq_invariant (λ j dp, filled i j dp)
      (dp_cell str1 str2 i) 1 n dp Hf) as [Hd Hc].
    { intros j dp' Hj Hf'. apply dp_cell_filled; [lia..|done]. }
    split; [done|]. intros i' j' Hi' Hj' Hdone. apply Hc; [done..|]. lia.
  - apply Hcells; lia.
Qed.

End Table.

(** [levenshteinDistance] computes the Levenshtein distance. *)
Lemma levenshteinDistance_correct (str1 str2 : string) :
  levenshtein str1 str2 (levenshteinDistance str1 str2).
Proof.
  rewrite levenshteinDistance_table. unfold prefix_distance.
  rewrite <- !chars_length, !firstn_all.
  apply lev_rev_levenshtein.
Qed.

(** ** Phrase verification *)

Lemma levenshtein_unique s t d1 d2 : levenshtein s t d1 → levenshtein s t d2 → d1 = d2.
Proof.
  intros [H1 M1] [H2 M2]. apply Nat.le_antisymm; [by apply M1|by apply M2].
Qed.

Lemma validatePhrase_isMatch transcript samples currentDomain :
  (isMatch transcript = true ↔
   ∃ duration, validatePhrase transcript samples currentDomain
               = SendUnlockSite currentDomain duration) ∧
  (isMatch transcript = false ↔
   validatePhrase transcript samples currentDomain = WrongPhrase transcript).
Proof.
  unfold validatePhrase. destruct (isMatch transcript); split; split; try done.
  - intros _. by eexists.
  - by intros [? ?].
Qed.

(** The rule of [validatePhrase] for the phrase it compares with, its
    constant [UNLOCK_PHRASE]: it accepts a transcript exactly when, both
    strings lowercased and trimmed, the transcript contains that phrase as
    a substring or their Levenshtein distance (unit cost for insertion,
    deletion and substitution) is at most 3. So a transcript at distance
    exactly 3 is accepted, and a transcript at distance exactly 4 is
    rejected unless it contains the phrase. *)
Theorem validatePhrase_accepts_iff (transcript : string) (volumeSamples : list Q)
    (currentDomain : option string) :
  let t := trim (toLowerCase transcript) in
  let p := trim (toLowerCase UNLOCK_PHRASE) in
  let accepted := ∃ duration, validatePhrase transcript volumeSamples currentDomain
                              = SendUnlockSite currentDomain duration in
  let rejected := validatePhrase transcript volumeSamples currentDomain
                  = WrongPhrase transcript in
  (accepted ↔ (∃ pre post, t = pre +:+ p +:+ post) ∨
              (∃ d, levenshtein t p d ∧ (d ≤ 3)%nat)) ∧
  (accepted ∨ rejected) ∧
  (levenshtein t p 3 → accepted) ∧
  (levenshtein t p 4 → ¬ (∃ pre post, t = pre +:+ p +:+ post) → rejected).
Proof.
  intros t p accepted rejected.
  destruct (validatePhrase_isMatch transcript volumeSamples currentDomain)
    as [Hacc Hrej]. fold accepted in Hacc. fold rejected in Hrej.
  assert (isMatch transcript = true ↔
          (∃ pre post, t = pre +:+ p +:+ post) ∨
          (∃ d, levenshtein t p d ∧ (d ≤ 3)%nat)) as Hm.
  { unfold isMatch. fold t p.
    rewrite orb_true_iff, includes_true, Nat.leb_le. split.
    - intros [?|Hd]; [by left|]. right. eexists. split; [|exact Hd].
      apply levenshteinDistance_correct.
    - intros [?|(d & Hd & Hle)]; [by left|]. right.
      by rewrite (levenshtein_unique _ _ _ _ (levenshteinDistance_correct t p) Hd). }
  split_and!.
  - by rewrite <- Hacc.
  - destruct (isMatch transcript); [left; by apply Hacc|right; by apply Hrej].
  - intros H3. apply Hacc, Hm. right. by exists 3%nat.
  - intros H4 Hsub. apply Hrej. apply not_true_iff_false. rewrite Hm.
    intros [?|(d & Hd & Hle)]; [done|].
    pose proof (levenshtein_unique _ _ _ _ H4 Hd). lia.
Qed.

(** C4. The phrase [validatePhrase] compares with is the constant of the
    content script, not the secret phrase of the settings. Whatever the
    settings were, [handlePhraseChange] with the input [Open Sesame]
    stores the secret phrase [open sesame]; the transcript [open sesame],
    at Levenshtein distance 0 from that phrase, is then rejected, and the
    transcript [i'm a loser] is accepted as before, whatever the volume
    buffer and the domain. *)
Theorem validatePhrase_ignores_stored_phrase (st : Settings) (volumeSamples : list Q)
    (currentDomain : option string) :
  (∃ st', handlePhraseChange "Open Sesame" st = Some st' ∧
          unlockPhrase st' = "open sesame") ∧
  levenshtein (trim (toLowerCase "open sesame")) (trim (toLowerCase "open sesame")) 0 ∧
  validatePhrase "open sesame" volumeSamples currentDomain = WrongPhrase "open sesame" ∧
  ∃ duration, validatePhrase "i'm a loser" volumeSamples currentDomain
              = SendUnlockSite currentDomain duration.
Proof.
  split_and!.
  - eexists. split; reflexivity.
  - pose proof (levenshteinDistance_correct (trim (toLowerCase "open sesame"))
                  (trim (toLowerCase "open sesame"))) as H.
    vm_compute levenshteinDistance in H. exact H.
  - apply validatePhrase_isMatch. vm_compute. reflexivity.
  - apply validatePhrase_isMatch. vm_compute. reflexivity.
Qed.

(** ** The invariants of the ledger *)

Lemma validatePhrase_duration transcript samples currentDomain domain duration :
  validatePhrase transcript samples currentDomain = SendUnlockSite domain duration →
  ∃ seconds, duration = Some seconds ∧ 0 < seconds.
Proof.
  unfold validatePhrase. destruct (isMatch transcript); [|done].
  intros [= _ <-].
  destruct (getVolumeDurationMapping_total (calculateAverageVolume samples))
    as (mapping & -> & _ & Hpos).
  by exists (mapping_duration mapping).
Qed.

Section LedgerInvariant.
Variable URL_hostname : string → option string.

Lemma reachable_ledger_ok w : reachable URL_hostname w → ledger_ok w.
Proof.
  induction 1 as [w Hw|w transcript samples cd domain seconds now now_alarm _ IH Hv
                  |w name _ IH|w now _ IH|w url now _ IH]; unfold ledger_ok in *.
  - rewrite Hw. apply map_Forall_empty.
  - rewrite unlockSite_ledger. apply map_Forall_insert_2; [|done].
    apply validatePhrase_duration in Hv as (s & [= <-] & Hs).
    exists seconds. simpl. split; [done|lia].
  - destruct (onAlarm_ledger_any URL_hostname name w) as [->|[d ->]]; [done|].
    by apply map_Forall_delete.
  - destruct (cleanupExpiredTimers_run now w) as (_ & -> & _).
    intros k t Hk. apply map_lookup_filter_Some in Hk as [Hk _]. by apply (IH k).
  - destruct (shouldBlockTab_same_store URL_hostname url now w) as [Hs _].
    by rewrite (same_store_ledger _ _ Hs).
Qed.

(** A grant during which the clock does not move between the first two
    reads: it writes, under its domain, the entry that expires [s] seconds
    after the instant of the grant and leaves every other domain as it
    was, so that a grant for a domain already present replaces the entry
    and the number of entries does not grow; for a positive duration the
    new entry satisfies expiry = grant time + duration, and the invariant
    that every entry does is preserved by such a grant, by the alarm
    eviction and by the sweep; every grant requested by the voice-unlock
    path carries a positive duration. *)
Lemma unlockSite_ledger_steady_clock (d : string) (s now now_alarm : Z) (w : World) :
  let granted := world_after (unlockSite URL_hostname d s now now now_alarm) w in
  (ledger granted !! d = Some {| unlockedUntil := now + s * 1000; unlockedAt := now |} ∧
   (∀ d', d' ≠ d → ledger granted !! d' = ledger w !! d') ∧
   (is_Some (ledger w !! d) → size (ledger granted) = size (ledger w)) ∧
   (ledger w !! d = None → size (ledger granted) = S (size (ledger w)))) ∧
  (0 < s →
   entry_ok {| unlockedUntil := now + s * 1000; unlockedAt := now |} ∧
   (ledger_ok w → ledger_ok granted)) ∧
  (ledger_ok w →
   ledger_ok (world_after (onAlarm URL_hostname ("reblock_" +:+ d)) w) ∧
   ledger_ok (world_after (cleanupExpiredTimers now) w)) ∧
  (∀ transcript samples currentDomain domain duration,
     validatePhrase transcript samples currentDomain = SendUnlockSite domain duration →
     ∃ seconds, duration = Some seconds ∧ 0 < seconds) ∧
  (∀ w', reachable URL_hostname w' → ledger_ok w').
Proof.
  intros granted.
  assert (ledger granted =
          <[d := {| unlockedUntil := now + s * 1000; unlockedAt := now |}]> (ledger w))
    as Hg by apply unlockSite_ledger.
  split_and!.
  - rewrite Hg. apply lookup_insert_eq.
  - intros d' Hd. rewrite Hg. by apply lookup_insert_ne.
  - intros [x Hx]. rewrite Hg. by eapply map_size_insert_Some.
  - intros Hx. rewrite Hg. by apply map_size_insert_None.
  - intros Hs.
    assert (entry_ok {| unlockedUntil := now + s * 1000; unlockedAt := now |}) as He.
    { exists s. simpl. split; [done|lia]. }
    split; [done|].
    intros Hok. unfold ledger_ok. rewrite Hg. by apply map_Forall_insert_2.
  - intros Hok. split.
    + unfold ledger_ok. rewrite onAlarm_ledger. by apply map_Forall_delete.
    + unfold ledger_ok.
      destruct (cleanupExpiredTimers_run now w) as (_ & -> & _).
      intros k t Hk. apply map_lookup_filter_Some in Hk as [Hk _]. by apply (Hok k).
  - apply validatePhrase_duration.
  - apply reachable_ledger_ok.
Qed.

(** C8. [unlockSite] reads the clock once for [unlockedUntil] and once
    more for [unlockedAt]: the ledger it leaves is the one it found with,
    under the domain and in place of any earlier entry, the entry that
    expires [s] seconds after the first read and is granted at the
    second. When a millisecond passes between the two reads, as for a
    grant of 30 seconds with the reads 1000 and 1001, the entry stored
    expires 29999 milliseconds after it was granted and not the 30000 of
    the grant: it is not one that expires a positive number of seconds
    after it was granted, and the invariant of the ledger is broken. *)
Theorem unlockSite_entry_clock_reads (d : string) (s now now_at now_alarm : Z)
    (w : World) :
  let granted := world_after (unlockSite URL_hostname d s now now_at now_alarm) w in
  let ticked := world_after (unlockSite URL_hostname d 30 1000 1001 1001) w in
  ledger granted =
    <[d := {| unlockedUntil := now + s * 1000; unlockedAt := now_at |}]> (ledger w) ∧
  ledger ticked !! d = Some {| unlockedUntil := 31000; unlockedAt := 1001 |} ∧
  (λ timer, unlockedUntil timer - unlockedAt timer) <$> ledger ticked !! d = Some 29999 ∧
  ¬ entry_ok {| unlockedUntil := 31000; unlockedAt := 1001 |} ∧
  ¬ ledger_ok ticked.
Proof.
  intros granted ticked.
  assert (ledger ticked !! d = Some {| unlockedUntil := 31000; unlockedAt := 1001 |})
    as Ht.
  { unfold ticked. rewrite unlockSite_ledger. apply lookup_insert_eq. }
  assert (¬ entry_ok {| unlockedUntil := 31000; unlockedAt := 1001 |}) as Hno.
  { intros (seconds & Hpos & Heq). simpl in Heq. lia. }
  split_and!; [|done| |done|].
  - apply unlockSite_ledger.
  - by rewrite Ht.
  - intros Hok. apply Hno. exact (Hok d _ Ht).
Qed.

End LedgerInvariant.

(** ** The theorems at concrete inputs *)

(** Why the verdict is stated for rules that have a domain: were a rule
    with the empty string as its domain stored, which neither the
    defaults nor the popup ever write, the hostname of
    [file:///home/notes.txt] (the empty string) would equal the domain of
    that enabled rule, and [shouldBlockTab] would answer not-blocked on an
    empty ledger. *)
Example shouldBlockTab_empty_domain_rule :
  (∃ st h site,
     settings (storage empty_domain_world) = Some st ∧ enabled st = true ∧
     example_URL_hostname "file:///home/notes.txt" = Some h ∧
     first_match (toLowerCase h) (blockedSites st) site ∧
     ¬ live (ledger empty_domain_world) (site_domain site) 0) ∧
  result_of (shouldBlockTab example_URL_hostname "file:///home/notes.txt" 0)
            empty_domain_world = Returned not_blocked.
Proof.
  split; [|reflexivity].
  eexists _, "", {| site_domain := ""; site_enabled := true; site_name := "" |}.
  split_and!; [reflexivity..| |].
  - exists [], []. split_and!; [reflexivity| |constructor].
    split; [reflexivity|]. by left.
  - intros (t & Ht & _).
    change (ledger empty_domain_world) with (∅ : gmap string Timer) in Ht.
    by rewrite lookup_empty in Ht.
Qed.

Example shouldBlockTab_unmatched :
  getBlockedDomain example_URL_hostname "https://example.org/"
    (blockedSites DEFAULT_SETTINGS) = None ∧
  shouldBlockTab example_URL_hostname "https://example.org/" 0 installed =
    (Returned not_blocked, log_read "settings" installed).
Proof.
  split; [reflexivity|].
  apply (shouldBlockTab_verdict example_URL_hostname "https://example.org/" 0 installed).
  right. exists DEFAULT_SETTINGS. split; [reflexivity|]. right. reflexivity.
Qed.

Lemma getBlockedDomain_first_enabled_match_witness :
  example_URL_hostname "not a url" = None ∧
  getBlockedDomain example_URL_hostname "not a url" DEFAULT_BLOCKED_SITES = None.
Proof.
  split; [reflexivity|].
  apply (getBlockedDomain_first_enabled_match example_URL_hostname
           "not a url" DEFAULT_BLOCKED_SITES).
  reflexivity.
Defined.

(** The scenario of the specification: a subdomain of a blocked domain is
    blocked, unlocked for 30 seconds it is open with 20 seconds left ten
    seconds later, and blocked again after 31 seconds. *)
Example shouldBlockTab_scenario :
  let url := "https://www.youtube.com/watch" in
  let granted := world_after (unlockSite example_URL_hostname "youtube.com" 30
                                         1000 1001 1002) installed in
  result_of (shouldBlockTab example_URL_hostname url 1000) installed =
    Returned {| shouldBlock := true; status_domain := Some "youtube.com";
                status_remainingTime := Some 0 |} ∧
  result_of (shouldBlockTab example_URL_hostname url 11000) granted =
    Returned {| shouldBlock := false; status_domain := Some "youtube.com";
                status_remainingTime := Some 20 |} ∧
  result_of (shouldBlockTab example_URL_hostname url 32000) granted =
    Returned {| shouldBlock := true; status_domain := Some "youtube.com";
                status_remainingTime := Some 0 |}.
Proof. split_and!; vm_compute; reflexivity. Qed.

Lemma unlockSite_then_isDomainUnlocked_witness :
  0 < 30 ∧
  result_of (isDomainUnlocked "youtube.com" 1000)
    (world_after (unlockSite example_URL_hostname "youtube.com" 30 1000 1001 1002)
                 installed) =
  Returned {| unlocked := true; remainingTime := 30 |}.
Proof.
  split; [lia|].
  apply (unlockSite_then_isDomainUnlocked example_URL_hostname "youtube.com" 30
           1000 1001 1002 installed).
  lia.
Defined.

(** C7 as stated fails for the alarm listener: at instant 1000 the entry
    of [youtube.com] has not expired (it is live until 31000), and the
    listener removes it all the same; no expiry is compared. *)
Lemma onAlarm_removes_live_entry :
  ledger youtube_unlocked !! "youtube.com" =
    Some {| unlockedUntil := 31000; unlockedAt := 1000 |} ∧
  live (ledger youtube_unlocked) "youtube.com" 1000 ∧
  ledger (world_after (onAlarm example_URL_hostname "reblock_youtube.com")
                      youtube_unlocked) !! "youtube.com" = None.
Proof.
  assert (ledger youtube_unlocked !! "youtube.com" =
          Some {| unlockedUntil := 31000; unlockedAt := 1000 |}) as H
    by apply lookup_singleton_eq.
  split_and!; [done| |].
  - eexists. split; [exact H|]. simpl. lia.
  - change "reblock_youtube.com" with ("reblock_" +:+ "youtube.com").
    rewrite onAlarm_ledger. apply lookup_delete_eq.
Qed.

Lemma eviction_idempotent_witness :
  is_Some (settings (storage youtube_unlocked)) ∧
  result_of (onAlarm example_URL_hostname "reblock_youtube.com") youtube_unlocked
    = Returned ().
Proof.
  assert (is_Some (settings (storage youtube_unlocked))) as H by (eexists; reflexivity).
  split; [exact H|].
  destruct (eviction_idempotent example_URL_hostname "youtube.com" 31000
              youtube_unlocked) as (_ & _ & _ & _ & (_ & _ & Hr) & _).
  exact (Hr H).
Defined.

Example unlockSite_ledger_steady_clock_example :
  0 < 30 ∧ entry_ok {| unlockedUntil := 1000 + 30 * 1000; unlockedAt := 1000 |}.
Proof.
  split; [lia|].
  destruct (unlockSite_ledger_steady_clock example_URL_hostname "youtube.com" 30 1000
              1002 installed) as (_ & H & _).
  apply H. lia.
Qed.

Lemma getVolumeDurationMapping_above_table_witness :
  (0 <= 1 # 2)%Q ∧ getVolumeDurationMapping (1 # 2)%Q = VOLUME_DURATION_MAP !! 0%nat.
Proof.
  assert (0 <= 1 # 2)%Q as H by (unfold Qle; simpl; lia).
  split; [exact H|].
  destruct (getVolumeDurationMapping_above_table (1 # 2)%Q H) as (_ & H0 & _).
  exact H0.
Defined.

(** C6 as stated fails for five samples: the code discards no lowest and
    one highest sample and averages the other four, -35, where rounding
    both counts down discards nothing and gives -30. *)
Lemma calculateAverageVolume_five_samples :
  let samples := [-50; -40; -30; -20; -10]%Q in
  (calculateAverageVolume samples == -35)%Q ∧
  (trimmed_mean_rounding_down samples == -30)%Q ∧
  ¬ (calculateAverageVolume samples == trimmed_mean_rounding_down samples)%Q.
Proof.
  split_and!.
  - vm_compute. reflexivity.
  - vm_compute. reflexivity.
  - intros H. vm_compute in H. discriminate H.
Qed.

Lemma calculateAverageVolume_trimmed_mean_witness :
  let samples := [-10; -40; -30; -20; -50; -1; -2; -3; -4; -5]%Q in
  samples ≠ [] ∧
  ∃ lowest kept highest,
    merge_sort Qle samples = lowest ++ kept ++ highest ∧
    length lowest = 1%nat ∧ length kept = 8%nat ∧ length highest = 1%nat ∧
    calculateAverageVolume samples = mean kept.
Proof.
  intros samples.
  assert (samples ≠ []) as Hne by discriminate.
  split; [exact Hne|].
  destruct (calculateAverageVolume_trimmed_mean samples) as [H _].
  destruct (H Hne) as (lowest & kept & highest & Hs & _ & _ & _ & _ & _ & H10 & Hm & _).
  destruct (H10 eq_refl) as (Hl & Hk & Hh).
  exists lowest, kept, highest. split_and!; [exact Hs|exact Hl|exact Hk|exact Hh|].
  apply Hm. intros E. rewrite E in Hk. discriminate Hk.
Defined.

(** A transcript that continues after the phrase: the distance is exactly
    4 and the transcript is accepted, because it contains the phrase. *)
Lemma validatePhrase_distance_four_accepted :
  levenshtein (trim (toLowerCase "I'm a loser now"))
              (trim (toLowerCase UNLOCK_PHRASE)) 4 ∧
  validatePhrase "I'm a loser now" [] (Some "youtube.com") =
    SendUnlockSite (Some "youtube.com") (Some 30).
Proof.
  split; [|vm_compute; reflexivity].
  pose proof (levenshteinDistance_correct (trim (toLowerCase "I'm a loser now"))
                (trim (toLowerCase UNLOCK_PHRASE))) as H.
  vm_compute levenshteinDistance in H. exact H.
Qed.

Lemma levenshtein_three_substitutions :
  levenshtein (trim (toLowerCase "I'm a winer"))
              (trim (toLowerCase UNLOCK_PHRASE)) 3.
Proof.
  pose proof (levenshteinDistance_correct (trim (toLowerCase "I'm a winer"))
                (trim (toLowerCase UNLOCK_PHRASE))) as H.
  vm_compute levenshteinDistance in H. exact H.
Qed.

Lemma validatePhrase_accepts_iff_example :
  levenshtein (trim (toLowerCase "I'm a winer"))
              (trim (toLowerCase UNLOCK_PHRASE)) 3 ∧
  ∃ duration, validatePhrase "I'm a winer" [] (Some "youtube.com") =
              SendUnlockSite (Some "youtube.com") duration.
Proof.
  split; [exact levenshtein_three_substitutions|].
  destruct (validatePhrase_accepts_iff "I'm a winer" [] (Some "youtube.com"))
    as (_ & _ & H & _).
  exact (H levenshtein_three_substitutions).
Defined.

(** Four substituted characters: distance 4, no substring, rejected. *)
Example validatePhrase_four_substitutions :
  levenshteinDistance (trim (toLowerCase "xxx x loser"))
                      (trim (toLowerCase UNLOCK_PHRASE)) = 4%nat ∧
  validatePhrase "xxx x loser" [] (Some "youtube.com") = WrongPhrase "xxx x loser".
Proof. split; vm_compute; reflexivity. Qed.

(** ** Further properties of the service worker *)

Section WorkerMore.
Variable URL_hostname : string → option string.

Lemma shouldBlockTab_result url now w :
  result_of (shouldBlockTab URL_hostname url now) w =
  Returned
    match settings (storage w) with
    | None => not_blocked
    | Some st =>
        if negb (enabled st) then not_blocked
        else match getBlockedDomain URL_hostname url (blockedSites st) with
             | None => not_blocked
             | Some d =>
                 if bool_decide (d = "") then not_blocked
                 else match ledger w !! d with
                      | Some timer =>
                          if bool_decide (unlockedUntil timer > now)
                          then {| shouldBlock := false; status_domain := Some d;
                                  status_remainingTime :=
                                    Some (ceil_div (unlockedUntil timer - now) 1000) |}
                          else {| shouldBlock := true; status_domain := Some d;
                                  status_remainingTime := Some 0 |}
                      | None => {| shouldBlock := true; status_domain := Some d;
                                   status_remainingTime := Some 0 |}
                      end
             end
    end.
Proof.
  unfold shouldBlockTab, result_of, mbind, Async_bind, storage_get_settings. simpl.
  destruct (settings (storage w)) as [st|]; simpl; [|done].
  destruct (enabled st); simpl; [|done].
  destruct (getBlockedDomain _ _ _) as [d|]; simpl; [|done].
  case_bool_decide; simpl; [done|].
  rewrite isDomainUnlocked_run. simpl.
  change (ledger (log_read "settings" w)) with (ledger w).
  destruct (ledger w !! d) as [timer|]; [|done]. by case_bool_decide.
Qed.

Lemma shouldBlockTab_result_ext url now w1 w2 :
  settings (storage w1) = settings (storage w2) →
  (∀ d, match ledger w1 !! d, ledger w2 !! d with
        | Some t1, Some t2 => t1 = t2
        | Some t, None | None, Some t => unlockedUntil t ≤ now
        | None, None => True
        end) →
  result_of (shouldBlockTab URL_hostname url now) w1 =
  result_of (shouldBlockTab URL_hostname url now) w2.
Proof.
  intros Hst Hl. rewrite !shouldBlockTab_result, Hst. f_equal.
  destruct (settings (storage w2)) as [st|]; [|done].
  destruct (negb (enabled st)); [done|].
  destruct (getBlockedDomain _ _ _) as [d|]; [|done].
  case_bool_decide; [done|]. specialize (Hl d).
  destruct (ledger w1 !! d) as [t1|], (ledger w2 !! d) as [t2|]; subst; try done.
  - by rewrite bool_decide_eq_false_2 by lia.
  - by rewrite bool_decide_eq_false_2 by lia.
Qed.

(** X1. Evicting expired entries never changes a verdict: [shouldBlockTab]
    evaluated at an instant answers the same before and after a sweep run
    at that instant or earlier, and the same before and after the alarm
    listener removes an entry that has expired at that instant. *)
Theorem eviction_keeps_verdict (url : string) (now : Z) (w : World) :
  (∀ sweep_time, sweep_time ≤ now →
     result_of (shouldBlockTab URL_hostname url now)
               (world_after (cleanupExpiredTimers sweep_time) w) =
     result_of (shouldBlockTab URL_hostname url now) w) ∧
  (∀ d, (∀ timer, ledger w !! d = Some timer → unlockedUntil timer ≤ now) →
     result_of (shouldBlockTab URL_hostname url now)
               (world_after (onAlarm URL_hostname ("reblock_" +:+ d)) w) =
     result_of (shouldBlockTab URL_hostname url now) w).
Proof.
  split.
  - intros sweep_time Hle.
    destruct (cleanupExpiredTimers_run sweep_time w) as (_ & Hl & Hs & _).
    apply shouldBlockTab_result_ext; [done|]. intros d. rewrite Hl.
    unfold unexpired. destruct (ledger w !! d) as [t|] eqn:Hd.
    + destruct (decide (sweep_time < unlockedUntil t)) as [Hlive|Hexp].
      * erewrite (proj2 (map_lookup_filter_Some _ _ _ _)); [done|]. by split.
      * rewrite (proj2 (map_lookup_filter_None _ _ _)); [lia|].
        right. intros t' ?. simplify_eq. done.
    + rewrite (proj2 (map_lookup_filter_None _ _ _)); [done|]. by left.
  - intros d Hexp. apply shouldBlockTab_result_ext.
    + by rewrite onAlarm_storage.
    + intros d'. rewrite onAlarm_ledger. destruct (decide (d' = d)) as [->|Hne].
      * rewrite lookup_delete_eq. destruct (ledger w !! d) as [t|] eqn:E; [|done].
        by apply Hexp.
      * rewrite lookup_delete_ne by done. by destruct (ledger w !! d').
Qed.

End WorkerMore.

(** ** Installation, dispatch and the life of the alarms *)

Lemma onInstalled_run now w :
  result_of (onInstalled now) w = Returned () ∧
  settings (storage (world_after (onInstalled now) w)) =
    Some (default DEFAULT_SETTINGS (settings (storage w))) ∧
  ledger (world_after (onInstalled now) w) =
    match settings (storage w) with
    | Some _ => unexpired now (ledger w)
    | None => ∅
    end ∧
  alarms (world_after (onInstalled now) w) = alarms w.
Proof.
  unfold onInstalled, result_of, world_after, mbind, Async_bind, storage_get_all.
  simpl. destruct (settings (storage w)) as [st|] eqn:Hst; simpl.
  - match goal with |- context [cleanupExpiredTimers now ?w0] =>
      destruct (cleanupExpiredTimers_run now w0) as (Hr & Hl & Hs & Ha & _);
      unfold result_of, world_after in *;
      destruct (cleanupExpiredTimers now w0) as [o w1] end.
    simpl in *. split_and!; try done; congruence.
  - match goal with |- context [cleanupExpiredTimers now ?w0] =>
      destruct (cleanupExpiredTimers_run now w0) as (Hr & Hl & Hs & Ha & _);
      unfold result_of, world_after in *;
      destruct (cleanupExpiredTimers now w0) as [o w1] end.
    simpl in Hr, Hs, Ha |- *. simpl fst in Hl. simpl snd in Hl.
    split_and!; [done..| |done].
    rewrite Hl. apply map_eq. intros k. rewrite lookup_empty.
    apply map_lookup_filter_None. left. reflexivity.
Qed.

Section EventProperties.
Variable URL_hostname : string → option string.

Lemma onAlarm_alarms name w :
  alarms (world_after (onAlarm URL_hostname name) w) = alarms w.
Proof.
  unfold onAlarm. destruct (startsWith name "reblock_"); [|done].
  unfold world_after, mbind, Async_bind. rewrite evict_run.
  match goal with |- context [notifyTabsForDomain ?u ?d ?a ?r ?w0] =>
    pose proof (notifyTabsForDomain_same_store u d a r w0) as (_ & H & _);
    unfold world_after in H;
    destruct (notifyTabsForDomain u d a r w0) as [[[]|e] w1] end;
    simpl in *; by rewrite H.
Qed.

Lemma onAlarm_settings name w :
  settings (storage (world_after (onAlarm URL_hostname name) w)) = settings (storage w).
Proof.
  destruct (startsWith name "reblock_") eqn:E.
  - apply startsWith_true in E as [d ->]. by rewrite onAlarm_storage.
  - unfold onAlarm. by rewrite E.
Qed.

(** The effect of one event on the stored settings, the ledger and the
    alarms. *)
Lemma handle_effect event clock w :
  let w' := world_after (handle URL_hostname event clock) w in
  let now := clock_now clock in
  match event with
  | Ev_installed =>
      settings (storage w') = Some (default DEFAULT_SETTINGS (settings (storage w))) ∧
      ledger w' = match settings (storage w) with
                  | Some _ => unexpired now (ledger w)
                  | None => ∅
                  end ∧
      alarms w' = alarms w
  | Ev_message (Msg_unlockSite d s) =>
      settings (storage w') = settings (storage w) ∧
      ledger w' = <[d := {| unlockedUntil := now + s * 1000;
                            unlockedAt := clock_second clock |}]> (ledger w) ∧
      alarms w' = <["reblock_" +:+ d := clock_third clock + s * 1000]> (alarms w)
  | Ev_message (Msg_saveSettings st) =>
      settings (storage w') = Some st ∧ ledger w' = ledger w ∧ alarms w' = alarms w
  | Ev_message _ =>
      settings (storage w') = settings (storage w) ∧ ledger w' = ledger w ∧
      alarms w' = alarms w
  | Ev_alarm name =>
      settings (storage w') = settings (storage w) ∧
      (ledger w' = ledger w ∧ startsWith name "reblock_" = false ∨
       ∃ d, name = "reblock_" +:+ d ∧ ledger w' = delete d (ledger w)) ∧
      alarms w' = delete name (alarms w)
  | Ev_sweep =>
      settings (storage w') = settings (storage w) ∧
      ledger w' = unexpired now (ledger w) ∧ alarms w' = alarms w
  end.
Proof.
  destruct event as [|message|name|]; cbv zeta.
  - simpl. destruct (onInstalled_run (clock_now clock) w) as (_ & ? & ? & ?). done.
  - destruct message as [url|d s| |st|d|d|a]; simpl.
    + unfold world_after, mbind, Async_bind.
      destruct (shouldBlockTab_same_store URL_hostname url (clock_now clock) w) as [Hs _].
      unfold world_after in Hs.
      destruct (shouldBlockTab URL_hostname url (clock_now clock) w) as [[?|?] w1];
        simpl in *;
        destruct Hs as (Hs & Ha & _); unfold ledger; by rewrite Hs.
    + unfold world_after, mbind, Async_bind.
      pose proof (unlockSite_storage URL_hostname d s (clock_now clock)
                    (clock_second clock) (clock_third clock) w) as Hs.
      pose proof (unlockSite_alarms URL_hostname d s (clock_now clock)
                    (clock_second clock) (clock_third clock) w) as Ha.
      unfold world_after in Hs, Ha.
      destruct (unlockSite URL_hostname d s (clock_now clock) (clock_second clock)
                  (clock_third clock) w) as [[?|?] w1]; simpl in *;
        unfold ledger at 1; rewrite Hs; done.
    + done.
    + done.
    + unfold world_after, mbind, Async_bind. rewrite isDomainUnlocked_run. done.
    + unfold world_after, mbind, Async_bind. rewrite isDomainUnlocked_run. done.
    + done.
  - change (world_after (handle URL_hostname (Ev_alarm name) clock) w)
      with (world_after (onAlarm URL_hostname name) (drop_alarm name w)).
    rewrite onAlarm_settings, onAlarm_alarms. split_and!; [done| |done].
    destruct (startsWith name "reblock_") eqn:E.
    + apply startsWith_true in E as [d ->]. right. exists d. split; [done|].
      by rewrite onAlarm_ledger.
    + left. unfold onAlarm. by rewrite E.
  - simpl. destruct (cleanupExpiredTimers_run (clock_now clock) w) as (_ & ? & ? & ? & _).
    done.
Qed.

Lemma handle_returns event clock w :
  (event = Ev_installed ∨ is_Some (settings (storage w))) →
  result_of (handle URL_hostname event clock) w = Returned ().
Proof.
  intros H. destruct event as [|message|name|]; simpl.
  - apply onInstalled_run.
  - destruct H as [?|Hst]; [done|].
    destruct message as [url|d s| |st|d|d|a]; simpl;
      unfold result_of, mbind, Async_bind; try done.
    + pose proof (shouldBlockTab_result URL_hostname url (clock_now clock) w) as Hr.
      unfold result_of in Hr.
      destruct (shouldBlockTab URL_hostname url (clock_now clock) w) as [[?|?] w1];
        simpl in *; done.
    + pose proof (unlockSite_returns URL_hostname d s (clock_now clock)
                    (clock_second clock) (clock_third clock) w Hst) as Hr.
      unfold result_of in Hr.
      destruct (unlockSite URL_hostname d s (clock_now clock) (clock_second clock)
                  (clock_third clock) w) as [[?|?] w1]; simpl in *; done.
    + by rewrite isDomainUnlocked_run.
    + by rewrite isDomainUnlocked_run.
  - destruct H as [?|Hst]; [done|].
    change (result_of (onAlarm URL_hostname name) (drop_alarm name w) = Returned ()).
    by apply onAlarm_returns.
  - apply cleanupExpiredTimers_run.
Qed.

Lemma handle_settings_stored event clock w :
  (event = Ev_installed ∨ is_Some (settings (storage w))) →
  is_Some (settings (storage (world_after (handle URL_hostname event clock) w))).
Proof.
  intros H. pose proof (handle_effect event clock w) as He. simpl in He.
  destruct event as [|message|name|].
  - destruct He as (-> & _). by eexists.
  - destruct H as [?|Hst]; [done|].
    destruct message; destruct He as (-> & _); by eauto.
  - destruct H as [?|Hst]; [done|]. destruct He as (-> & _). done.
  - destruct H as [?|Hst]; [done|]. destruct He as (-> & _). done.
Qed.

Lemma run_settings_stored events w :
  is_Some (settings (storage w)) →
  is_Some (settings (storage (run URL_hostname events w))).
Proof.
  revert w. induction events as [|[e t] events IH]; intros w Hst; simpl; [done|].
  apply IH. apply handle_settings_stored. by right.
Qed.

(** X2. Once the extension is installed the handlers for installation,
    messages, alarms and the sweep do not fail: after the [onInstalled]
    listener has run, in whatever state, and after any further sequence
    of these events, settings are stored, the handler of every such event
    returns normally and every message gets a response. *)
Theorem installed_handlers_return (w : World) (install_time : Z)
    (events : list (Event * Clock)) (event : Event) (message : Message)
    (clock : Clock) :
  let w' := run URL_hostname events (world_after (onInstalled install_time) w) in
  is_Some (settings (storage w')) ∧
  result_of (handle URL_hostname event clock) w' = Returned () ∧
  ∃ response, result_of (handleMessage URL_hostname message clock) w' = Returned response.
Proof.
  intros w'.
  assert (is_Some (settings (storage w'))) as Hst.
  { apply run_settings_stored. destruct (onInstalled_run install_time w) as (_ & -> & _).
    by eexists. }
  split_and!; [done|apply handle_returns; by right|].
  pose proof (handle_returns (Ev_message message) clock w' (or_intror Hst)) as Hr.
  simpl in Hr. unfold result_of, mbind, Async_bind in *.
  destruct (handleMessage URL_hostname message clock w') as [[r|e] w1]; simpl in *;
    [by exists r|done].
Qed.


(** X4. The [onInstalled] listener keeps settings that are stored and
    writes the defaults when none are; with stored settings it removes
    exactly the expired unlock timers, and without it empties the ledger,
    live timers included; it never touches the alarms. Afterwards no entry
    of the ledger has expired. *)
Theorem onInstalled_effect (now : Z) (w : World) :
  let w' := world_after (onInstalled now) w in
  (∀ st, settings (storage w) = Some st →
         settings (storage w') = Some st ∧ ledger w' = unexpired now (ledger w)) ∧
  (settings (storage w) = None →
   settings (storage w') = Some DEFAULT_SETTINGS ∧ ledger w' = ∅) ∧
  alarms w' = alarms w ∧
  (∀ d timer, ledger w' !! d = Some timer → now < unlockedUntil timer).
Proof.
  intros w'. destruct (onInstalled_run now w) as (_ & Hs & Hl & Ha).
  fold w' in Hs, Hl, Ha. split_and!.
  - intros st Hst. rewrite Hst in Hs, Hl. done.
  - intros Hst. rewrite Hst in Hs, Hl. done.
  - done.
  - intros d timer. rewrite Hl. destruct (settings (storage w)).
    + intros Hd. by apply map_lookup_filter_Some in Hd as [_ Hd].
    + by rewrite lookup_empty.
Qed.

Lemma run_keeps_settings events w :
  Forall (λ e, saves_settings e.1 = false) events →
  is_Some (settings (storage w)) →
  settings (storage (run URL_hostname events w)) = settings (storage w).
Proof.
  revert w. induction events as [|[e t] events IH]; intros w Hev Hst; [done|].
  apply Forall_cons in Hev as [He Hev]. simpl in He |- *.
  rewrite IH; [|done|apply handle_settings_stored; by right].
  pose proof (handle_effect e t w) as Heff. simpl in Heff.
  destruct e as [|message|name|].
  - destruct Heff as (-> & _). by destruct Hst as [st ->].
  - destruct message; try done; by destruct Heff as (-> & _).
  - by destruct Heff as (-> & _).
  - by destruct Heff as (-> & _).
Qed.

(** X5. Settings round trip through the message interface: after a
    [saveSettings] message a [getSettings] message returns the settings
    that were saved, whatever was stored before and whatever events other
    than [saveSettings] (installations, grants, alarms, sweeps, queries)
    came in between; the save leaves the unlock timers and the alarms as
    they were; with no settings stored [getSettings] answers the defaults
    without storing them. *)
Theorem saveSettings_getSettings (st : Settings) (clock clock' : Clock)
    (events : list (Event * Clock)) (w : World) :
  Forall (λ e, saves_settings e.1 = false) events →
  let saved := world_after (handleMessage URL_hostname (Msg_saveSettings st) clock) w in
  result_of (handleMessage URL_hostname Msg_getSettings clock')
            (run URL_hostname events saved) = Returned (Resp_settings st) ∧
  unlockTimers (storage saved) = unlockTimers (storage w) ∧
  alarms saved = alarms w ∧
  (settings (storage w) = None →
   result_of (handleMessage URL_hostname Msg_getSettings clock') w
     = Returned (Resp_settings DEFAULT_SETTINGS) ∧
   storage (world_after (handleMessage URL_hostname Msg_getSettings clock') w) = storage w).
Proof.
  intros Hev saved. split_and!; try done.
  - assert (settings (storage (run URL_hostname events saved)) = Some st) as Hst.
    { rewrite run_keeps_settings; [done|done|by eexists]. }
    unfold result_of. simpl. unfold mbind, Async_bind, storage_get_settings. simpl.
    by rewrite Hst.
  - intros Hst. unfold result_of, world_after. simpl.
    unfold mbind, Async_bind, storage_get_settings. simpl. by rewrite Hst.
Qed.

End EventProperties.

(** ** Who is notified *)

Section Notification.
Variable URL_hostname : string → option string.

Lemma notify_tab_sent st domain action remaining tab w :
  settings (storage w) = Some st →
  sent (world_after (notify_tab URL_hostname domain action remaining tab) w) =
  sent w ++
  if tab_notified URL_hostname st domain (tabs w) tab
  then [(tab_id tab, {| msg_action := action; msg_domain := domain;
                        msg_remainingTime := remaining |})]
  else [].
Proof.
  intros Hst.
  unfold notify_tab, tab_notified, world_after, mbind, Async_bind, storage_get_settings.
  destruct (tab_url tab) as [url|]; simpl; [|by rewrite app_nil_r].
  case_bool_decide; simpl; [by rewrite app_nil_r|].
  rewrite Hst. simpl. case_bool_decide; simpl; [|by rewrite app_nil_r].
  unfold try_ignore, tabs_sendMessage. simpl.
  destruct (existsb _ (tabs w)); simpl; [done|by rewrite app_nil_r].
Qed.

Lemma for_of_notify_sent st domain action remaining (l : list Tab) w :
  settings (storage w) = Some st →
  sent (world_after (for_of l (notify_tab URL_hostname domain action remaining)) w) =
  sent w ++
  map (λ tab, (tab_id tab, {| msg_action := action; msg_domain := domain;
                              msg_remainingTime := remaining |}))
      (List.filter (tab_notified URL_hostname st domain (tabs w)) l).
Proof.
  revert w. induction l as [|tab l IH]; intros w Hst; simpl.
  - by rewrite app_nil_r.
  - unfold world_after, mbind, Async_bind.
    pose proof (notify_tab_sent st domain action remaining tab w Hst) as Hsent.
    destruct (notify_tab_run URL_hostname domain action remaining tab w)
      as [(Hs & _ & Ht) Hr].
    specialize (Hr (ex_intro _ st Hst)).
    unfold world_after, result_of in *.
    destruct (notify_tab URL_hostname domain action remaining tab w) as [[[]|e] w1];
      simpl in *; [|done].
    assert (settings (storage w1) = Some st) as Hst1 by (by rewrite Hs).
    specialize (IH w1 Hst1). unfold world_after in IH. rewrite IH, Hsent, Ht.
    destruct (tab_notified URL_hostname st domain (tabs w) tab); simpl.
    + by rewrite <- app_assoc.
    + by rewrite app_nil_r.
Qed.

(** X6. With settings stored, [notifyTabsForDomain] sends its message to
    exactly the tabs, in tab order, that have a non-empty URL which the
    matcher maps to the given domain and in which a content script
    listens; no other tab receives anything, every message carries the
    given action, domain and remaining time, the call returns normally
    and the store and the alarms are as they were. *)
Theorem notifyTabsForDomain_recipients (st : Settings) (domain : string)
    (action : Action) (remaining : Z) (w : World) :
  settings (storage w) = Some st →
  let w' := world_after (notifyTabsForDomain URL_hostname domain action remaining) w in
  result_of (notifyTabsForDomain URL_hostname domain action remaining) w = Returned () ∧
  sent w' =
    sent w ++
    map (λ tab, (tab_id tab, {| msg_action := action; msg_domain := domain;
                                msg_remainingTime := remaining |}))
        (List.filter (tab_notified URL_hostname st domain (tabs w)) (tabs w)) ∧
  storage w' = storage w ∧ alarms w' = alarms w ∧
  (∀ id message, (id, message) ∈ sent w' → (id, message) ∈ sent w ∨
     ∃ tab url, tab ∈ tabs w ∧ tab_id tab = id ∧ tab_url tab = Some url ∧
                getBlockedDomain URL_hostname url (blockedSites st) = Some domain ∧
                msg_domain message = domain ∧ msg_action message = action).
Proof.
  intros Hst w'.
  assert (sent w' =
    sent w ++
    map (λ tab, (tab_id tab, {| msg_action := action; msg_domain := domain;
                                msg_remainingTime := remaining |}))
        (List.filter (tab_notified URL_hostname st domain (tabs w)) (tabs w))) as Hsent.
  { unfold w', notifyTabsForDomain, world_after, mbind, Async_bind, tabs_query. simpl.
    apply (for_of_notify_sent st domain action remaining (tabs w) w Hst). }
  destruct (notifyTabsForDomain_same_store URL_hostname domain action remaining w)
    as (Hs & Ha & _). fold w' in Hs, Ha.
  split_and!; [|done..|].
  - apply notifyTabsForDomain_returns. by eexists.
  - intros id message. rewrite Hsent, elem_of_app. intros [?|Hin]; [by left|]. right.
    apply list_elem_of_In, in_map_iff in Hin as (tab & [= <- <-] & Hin).
    apply filter_In in Hin as [Hin Hn]. unfold tab_notified in Hn.
    destruct (tab_url tab) as [url|] eqn:Hu; [|done].
    apply andb_true_iff in Hn as [Hn _]. apply andb_true_iff in Hn as [_ Hn].
    apply bool_decide_eq_true in Hn.
    exists tab, url. split_and!; try done. by apply list_elem_of_In.
Qed.

End Notification.

(** ** The distance as a metric *)

Lemma edit_script_refl {A} (s : list A) : edit_script s s 0.
Proof. induction s; by constructor. Qed.

Lemma edit_script_zero {A} (s t : list A) : edit_script s t 0 → s = t.
Proof.
  intros H. remember 0%nat as n eqn:Hn.
  induction H; try discriminate; [done|]. f_equal. by apply IHedit_script.
Qed.

Lemma edit_script_sym {A} (s t : list A) n : edit_script s t n → edit_script t s n.
Proof. induction 1; by constructor. Qed.

Lemma edit_script_trans {A} (s t u : list A) n m :
  edit_script s t n → edit_script t u m →
  ∃ k, (k ≤ n + m)%nat ∧ edit_script s u k.
Proof.
  intros H1. revert u m.
  induction H1 as [|a s t n H1 IH|a b s t n H1 IH|a s t n H1 IH|b s t n H1 IH];
    intros u m H2.
  - exists m. split; [lia|done].
  - remember (a :: t) as t0 eqn:Ht. revert Ht.
    induction H2 as [|c t1 u m H2 _|c d t1 u m H2 _|c t1 u m H2 _|d t1 u m H2 IH2];
      intros Ht; simplify_eq.
    + destruct (IH _ _ H2) as (k & Hk & H). exists k. split; [lia|by constructor].
    + destruct (IH _ _ H2) as (k & Hk & H). exists (S k). split; [lia|by constructor].
    + destruct (IH _ _ H2) as (k & Hk & H). exists (S k). split; [lia|by constructor].
    + destruct (IH2 eq_refl) as (k & Hk & H). exists (S k). split; [lia|by constructor].
  - remember (b :: t) as t0 eqn:Ht. revert Ht.
    induction H2 as [|c t1 u m H2 _|c d t1 u m H2 _|c t1 u m H2 _|d t1 u m H2 IH2];
      intros Ht; simplify_eq.
    + destruct (IH _ _ H2) as (k & Hk & H). exists (S k). split; [lia|by constructor].
    + destruct (IH _ _ H2) as (k & Hk & H). exists (S k). split; [lia|by constructor].
    + destruct (IH _ _ H2) as (k & Hk & H). exists (S k). split; [lia|by constructor].
    + destruct (IH2 eq_refl) as (k & Hk & H). exists (S k). split; [lia|by constructor].
  - destruct (IH _ _ H2) as (k & Hk & H). exists (S k). split; [lia|by constructor].
  - remember (b :: t) as t0 eqn:Ht. revert Ht.
    induction H2 as [|c t1 u m H2 _|c d t1 u m H2 _|c t1 u m H2 _|d t1 u m H2 IH2];
      intros Ht; simplify_eq.
    + destruct (IH _ _ H2) as (k & Hk & H). exists (S k). split; [lia|by constructor].
    + destruct (IH _ _ H2) as (k & Hk & H). exists (S k). split; [lia|by constructor].
    + destruct (IH _ _ H2) as (k & Hk & H). exists k. split; [lia|done].
    + destruct (IH2 eq_refl) as (k & Hk & H). exists (S k). split; [lia|by constructor].
Qed.

Lemma edit_script_lengths {A} (s t : list A) n :
  edit_script s t n → (length s ≤ length t + n ∧ length t ≤ length s + n)%nat.
Proof. induction 1; simpl; lia. Qed.

Lemma edit_script_max {A} (s t : list A) :
  edit_script s t (Nat.max (length s) (length t)).
Proof.
  revert t. induction s as [|a s IH]; intros t.
  - simpl. apply edit_script_insert_all.
  - destruct t as [|b t].
    + apply (edit_script_delete_all (a :: s)).
    + simpl. by constructor.
Qed.

(** X7. [levenshteinDistance] is a metric on strings: the distance is 0
    exactly between equal strings, it is the same in both directions, and
    it satisfies the triangle inequality. *)
Theorem levenshteinDistance_metric (s t u : string) :
  (levenshteinDistance s t = 0%nat ↔ s = t) ∧
  levenshteinDistance s t = levenshteinDistance t s ∧
  (levenshteinDistance s u ≤ levenshteinDistance s t + levenshteinDistance t u)%nat.
Proof.
  destruct (levenshteinDistance_correct s t) as [Hst Mst].
  destruct (levenshteinDistance_correct t s) as [Hts Mts].
  destruct (levenshteinDistance_correct s u) as [Hsu Msu].
  destruct (levenshteinDistance_correct t u) as [Htu Mtu].
  split_and!.
  - split.
    + intros H0. rewrite H0 in Hst. by apply chars_inj, edit_script_zero.
    + intros ->. pose proof (Mst 0%nat (edit_script_refl _)). lia.
  - apply Nat.le_antisymm.
    + by apply Mst, edit_script_sym.
    + by apply Mts, edit_script_sym.
  - destruct (edit_script_trans _ _ _ _ _ Hst Htu) as (k & Hk & H).
    specialize (Msu k H). lia.
Qed.

(** X8. The distance lies between the difference and the larger of the
    two lengths, so the distance to the empty string is the length. *)
Theorem levenshteinDistance_bounds (s t : string) :
  (String.length s - String.length t ≤ levenshteinDistance s t)%nat ∧
  (String.length t - String.length s ≤ levenshteinDistance s t)%nat ∧
  (levenshteinDistance s t ≤ Nat.max (String.length s) (String.length t))%nat ∧
  levenshteinDistance s "" = String.length s ∧
  levenshteinDistance "" t = String.length t.
Proof.
  assert (∀ a b, (String.length a - String.length b ≤ levenshteinDistance a b)%nat ∧
                 (String.length b - String.length a ≤ levenshteinDistance a b)%nat ∧
                 (levenshteinDistance a b ≤ Nat.max (String.length a) (String.length b))%nat)
    as H.
  { intros a b. destruct (levenshteinDistance_correct a b) as [Hs Hm].
    apply edit_script_lengths in Hs. rewrite !chars_length in Hs.
    pose proof (Hm _ (edit_script_max (chars a) (chars b))) as Hmax.
    rewrite !chars_length in Hmax. lia. }
  destruct (H s t) as (? & ? & ?). split_and!; try done.
  - destruct (H s "") as (? & ? & ?). simpl in *. lia.
  - destruct (H "" t) as (? & ? & ?). simpl in *. lia.
Qed.

Lemma includes_length s p :
  includes s p = true → (String.length p ≤ String.length s)%nat.
Proof.
  intros H. apply includes_true in H as (pre & post & ->).
  rewrite <- !chars_length, !chars_app, !length_app. lia.
Qed.

(** X9. The length of what was said decides most verdicts: a transcript
    whose lowercased and trimmed form has fewer than 8 characters is
    always rejected, and one with more than 14 characters is accepted
    exactly when it contains the phrase. *)
Theorem validatePhrase_by_length (transcript : string) (volumeSamples : list Q)
    (currentDomain : option string) :
  let t := trim (toLowerCase transcript) in
  ((String.length t < 8)%nat →
   validatePhrase transcript volumeSamples currentDomain = WrongPhrase transcript) ∧
  ((14 < String.length t)%nat →
   ((∃ duration, validatePhrase transcript volumeSamples currentDomain
                 = SendUnlockSite currentDomain duration) ↔
    ∃ pre post, t = pre +:+ "i'm a loser" +:+ post)).
Proof.
  intros t.
  assert (trim (toLowerCase UNLOCK_PHRASE) = "i'm a loser") as Hp by reflexivity.
  destruct (levenshteinDistance_correct t "i'm a loser") as [Hs _].
  apply edit_script_lengths in Hs. rewrite !chars_length in Hs. simpl in Hs.
  destruct (validatePhrase_isMatch transcript volumeSamples currentDomain)
    as [Hacc Hrej].
  unfold isMatch in Hacc, Hrej. rewrite Hp in Hacc, Hrej. fold t in Hacc, Hrej.
  split.
  - intros Hlen. apply Hrej. apply orb_false_iff. split.
    + apply not_true_iff_false. intros Hi. apply includes_length in Hi. simpl in Hi. lia.
    + apply Nat.leb_gt. lia.
  - intros Hlen. rewrite <- Hacc, orb_true_iff, includes_true, Nat.leb_le.
    split; [|by left]. intros [?|?]; [done|lia].
Qed.

(** ** The page: what is measured, when it re-blocks, what the observer does *)

Lemma isMatch_nonempty transcript : isMatch transcript = true → transcript ≠ "".
Proof. intros H ->. vm_compute in H. discriminate. Qed.

(** The state in which [startVoiceUnlock()] ends when the microphone is
    granted: whether the call of [monitorVolume()] recorded a sample and
    asked for a frame depends on [isListening] at the start. *)
Lemma voice_unlock_started (p : Page) (o : Overlay) (db : Q) :
  overlay_node (dom p) = Some o →
  microphone_settled true db (voice_click true p) =
  set_pending
    {| frame_requests := if isListening (audio p) then S (frame_requests (pending p))
                         else frame_requests (pending p);
       microphone_requests := microphone_requests (pending p);
       unlock_requests := unlock_requests (pending p);
       timeouts := timeouts (pending p);
       unlock_messages := unlock_messages (pending p) |}
    (set_audio
       {| audioContext := true; analyser := true; microphone := true;
          volumeSamples := if isListening (audio p) then [db] else [];
          isListening := true; recognition := true |}
       (set_overlay_node (Some
          {| overlay_domain := overlay_domain o; unlock_section_hidden := true;
             listening_hidden := false; result_hidden := result_hidden o;
             result_success := result_success o; result_message := result_message o;
             countdown_value := countdown_value o |}) p)).
Proof.
  destruct p as [el vis cd ci [ac an mi vs li re] [ov fl sl] [fr mr ur ts um]].
  cbn. intros ->. by destruct li.
Qed.

Lemma speech_result_match (p : Page) (transcript : string) (mapping : VolumeMapping) :
  isMatch transcript = true →
  getVolumeDurationMapping (calculateAverageVolume (volumeSamples (audio p))) = Some mapping →
  speech_result transcript p =
  set_pending
    {| frame_requests := frame_requests (pending p);
       microphone_requests := microphone_requests (pending p);
       unlock_requests := unlock_requests (pending p) ++ [mapping];
       timeouts := timeouts (pending p);
       unlock_messages :=
         unlock_messages (pending p) ++ [(currentDomain p, mapping_duration mapping)] |}
    (stopListening p).
Proof.
  intros Hm Hmap. unfold speech_result.
  rewrite bool_decide_eq_false_2 by by apply isMatch_nonempty.
  unfold validatePhrase_page. rewrite Hm, Hmap. reflexivity.
Qed.

Lemma speech_result_wrong (p : Page) (wrong : string) :
  wrong ≠ "" →
  isMatch wrong = false →
  speech_result wrong p =
  set_pending
    {| frame_requests := frame_requests (pending p);
       microphone_requests := microphone_requests (pending p);
       unlock_requests := unlock_requests (pending p);
       timeouts := timeouts (pending p) ++ [Timeout_resetUnlockUI];
       unlock_messages := unlock_messages (pending p) |}
    (showResult false
       ("Wrong phrase! You said: " +:+
        String quotation_mark (wrong +:+ String quotation_mark "")) p).
Proof.
  intros Hne Hw. unfold speech_result. rewrite bool_decide_eq_false_2 by done.
  unfold validatePhrase_page. rewrite Hw.
  unfold showResult. by destruct (overlay_node (dom p)).
Qed.

(** The page sends what the verdict of [validatePhrase] says. *)
Lemma validatePhrase_page_verdict (transcript : string) (p : Page) :
  match validatePhrase transcript (volumeSamples (audio p)) (currentDomain p) with
  | SendUnlockSite domain (Some duration) =>
      unlock_messages (pending (validatePhrase_page transcript p)) =
        unlock_messages (pending p) ++ [(domain, duration)]
  | SendUnlockSite _ None => validatePhrase_page transcript p = p
  | WrongPhrase _ =>
      unlock_messages (pending (validatePhrase_page transcript p)) =
        unlock_messages (pending p)
  end.
Proof.
  unfold validatePhrase, validatePhrase_page. destruct (isMatch transcript).
  - by destruct (getVolumeDurationMapping _).
  - unfold showResult. by destruct (overlay_node (dom p)).
Qed.

Lemma animation_frames_idle (p : Page) (levels : list Q) :
  frame_requests (pending p) = 0%nat →
  page_run p (Pg_animation_frame <$> levels) = p.
Proof.
  intros H. induction levels as [|db levels IH]; [done|].
  change (page_run p (Pg_animation_frame <$> db :: levels))
    with (page_run (animation_frame db p) (Pg_animation_frame <$> levels)).
  unfold animation_frame. by rewrite H.
Qed.

(** X10. Loudness is not measured on a first attempt: when the voice
    unlock is started on a page that is not listening and has no animation
    frame pending, [monitorVolume()] runs before [isListening] is set and
    returns at its guard, so whatever the microphone hears afterwards no
    sample is recorded, and an accepted phrase asks for 30 seconds. *)
Theorem first_voice_unlock_thirty_seconds (p : Page) (db0 : Q) (levels : list Q)
    (transcript : string) :
  isListening (audio p) = false →
  frame_requests (pending p) = 0%nat →
  is_Some (overlay_node (dom p)) →
  isMatch transcript = true →
  let listening :=
    page_run (microphone_settled true db0 (voice_click true p))
             (Pg_animation_frame <$> levels) in
  isListening (audio listening) = true ∧
  volumeSamples (audio listening) = [] ∧
  frame_requests (pending listening) = 0%nat ∧
  unlock_messages (pending (speech_result transcript listening)) =
    unlock_messages (pending p) ++ [(currentDomain p, 30)].
Proof.
  intros Hl Hf [o Ho] Hm listening.
  assert (isListening (audio listening) = true ∧ volumeSamples (audio listening) = [] ∧
          frame_requests (pending listening) = 0%nat ∧
          currentDomain listening = currentDomain p ∧
          unlock_messages (pending listening) = unlock_messages (pending p))
    as (H1 & H2 & H3 & H4 & H5).
  { unfold listening. rewrite (voice_unlock_started p o db0 Ho), Hl.
    rewrite animation_frames_idle by done. done. }
  clearbody listening.
  split; [exact H1|]. split; [exact H2|]. split; [exact H3|].
  assert (∃ mapping, getVolumeDurationMapping (calculateAverageVolume []) = Some mapping ∧
                     mapping_duration mapping = 30) as (mapping & Hmap & Hd).
  { eexists. split; [vm_compute; reflexivity|reflexivity]. }
  rewrite (speech_result_match _ _ mapping); [|done|by rewrite H2].
  simpl. by rewrite H4, H5, Hd.
Qed.

Lemma animation_frames_record (p : Page) (levels : list Q) (k : nat) :
  frame_requests (pending p) = S k →
  isListening (audio p) = true →
  analyser (audio p) = true →
  volumeSamples (audio (page_run p (Pg_animation_frame <$> levels))) =
    volumeSamples (audio p) ++ levels ∧
  currentDomain (page_run p (Pg_animation_frame <$> levels)) = currentDomain p ∧
  unlock_messages (pending (page_run p (Pg_animation_frame <$> levels))) =
    unlock_messages (pending p).
Proof.
  revert p. induction levels as [|db levels IH]; intros p Hf Hl Ha.
  - simpl. by rewrite app_nil_r.
  - change (page_run p (Pg_animation_frame <$> db :: levels))
      with (page_run (animation_frame db p) (Pg_animation_frame <$> levels)).
    assert (frame_requests (pending (animation_frame db p)) = S k ∧
            isListening (audio (animation_frame db p)) = true ∧
            analyser (audio (animation_frame db p)) = true ∧
            volumeSamples (audio (animation_frame db p)) = volumeSamples (audio p) ++ [db] ∧
            currentDomain (animation_frame db p) = currentDomain p ∧
            unlock_messages (pending (animation_frame db p)) = unlock_messages (pending p))
      as (Hf' & Hl' & Ha' & Hv & Hd & Hu).
    { destruct p as [el vis cd ci [ac an mi vs li re] [ov fl sl] [fr mr ur ts um]].
      cbn in Hf, Hl, Ha. subst. cbn. done. }
    destruct (IH _ Hf' Hl' Ha') as (-> & -> & ->).
    rewrite Hv, <- app_assoc. done.
Qed.

(** X11. After a wrong phrase nothing is stopped, so the next attempt is
    measured: [isListening] is still set when [monitorVolume()] is called,
    every animation frame adds its level to the buffer, and an accepted
    phrase asks for the duration the table gives for the trimmed mean of
    those levels. *)
Theorem second_voice_unlock_is_measured (p : Page) (db0 db1 : Q) (levels0 levels1 : list Q)
    (wrong transcript : string) :
  isListening (audio p) = false →
  frame_requests (pending p) = 0%nat →
  timeouts (pending p) = [] →
  is_Some (overlay_node (dom p)) →
  wrong ≠ "" →
  isMatch wrong = false →
  isMatch transcript = true →
  let first :=
    speech_result wrong
      (page_run (microphone_settled true db0 (voice_click true p))
                (Pg_animation_frame <$> levels0)) in
  let second :=
    page_run (microphone_settled true db1 (voice_click true (timeout_fired first)))
             (Pg_animation_frame <$> levels1) in
  unlock_messages (pending first) = unlock_messages (pending p) ∧
  isListening (audio first) = true ∧
  volumeSamples (audio second) = db1 :: levels1 ∧
  ∃ mapping,
    getVolumeDurationMapping (calculateAverageVolume (db1 :: levels1)) = Some mapping ∧
    unlock_messages (pending (speech_result transcript second)) =
      unlock_messages (pending p) ++ [(currentDomain p, mapping_duration mapping)].
Proof.
  intros Hl Hf Ht [o Ho] Hne Hw Hm first second.
  assert (isListening (audio first) = true ∧ analyser (audio first) = true ∧
          frame_requests (pending first) = 0%nat ∧
          timeouts (pending first) = [Timeout_resetUnlockUI] ∧
          is_Some (overlay_node (dom first)) ∧
          currentDomain first = currentDomain p ∧
          unlock_messages (pending first) = unlock_messages (pending p))
    as (Hl1 & Ha1 & Hf1 & Ht1 & [o1 Ho1] & Hd1 & Hu1).
  { unfold first. rewrite (voice_unlock_started p o db0 Ho), Hl.
    rewrite animation_frames_idle by done.
    rewrite speech_result_wrong by done.
    destruct p as [el vis cd ci [ac an mi vs li re] [ov fl sl] [fr mr ur ts um]].
    cbn in Hf, Ht, Ho. subst. cbn. split_and!; try reflexivity. by eexists. }
  clearbody first.
  set (retry := timeout_fired first) in *.
  assert (isListening (audio retry) = true ∧ frame_requests (pending retry) = 0%nat ∧
          is_Some (overlay_node (dom retry)) ∧ currentDomain retry = currentDomain p ∧
          unlock_messages (pending retry) = unlock_messages (pending p))
    as (Hl2 & Hf2 & [o2 Ho2] & Hd2 & Hu2).
  { unfold retry.
    destruct first as [el vis cd ci [ac an mi vs li re] [ov fl sl] [fr mr ur ts um]].
    cbn in Hl1, Ha1, Hf1, Ht1, Ho1, Hd1, Hu1. subst. cbn. split_and!; try reflexivity.
    by eexists. }
  clearbody retry.
  set (q := microphone_settled true db1 (voice_click true retry)) in *.
  assert (frame_requests (pending q) = 1%nat ∧ isListening (audio q) = true ∧
          analyser (audio q) = true ∧ volumeSamples (audio q) = [db1] ∧
          currentDomain q = currentDomain p ∧
          unlock_messages (pending q) = unlock_messages (pending p))
    as (Hfq & Hlq & Haq & Hvq & Hdq & Huq).
  { unfold q. rewrite (voice_unlock_started retry o2 db1 Ho2), Hl2, Hf2. cbn. done. }
  clearbody q.
  destruct (animation_frames_record q levels1 0 Hfq Hlq Haq) as (Hv2 & Hd3 & Hu3).
  fold second in Hv2, Hd3, Hu3. clearbody second. rewrite Hvq in Hv2.
  split; [exact Hu1|]. split; [exact Hl1|]. split; [exact Hv2|].
  destruct (getVolumeDurationMapping_total (calculateAverageVolume (db1 :: levels1)))
    as (mapping & Hmap & _).
  exists mapping. split; [exact Hmap|].
  rewrite (speech_result_match _ _ mapping); [|done|by rewrite Hv2].
  cbn. by rewrite Hu3, Huq, Hd3, Hdq.
Qed.

Lemma countdown_tick_running (p : Page) (r : Z) (text : string) :
  countdownInterval p = Some r →
  1 < r →
  overlay_node (dom p) = None →
  floating_countdown (dom p) = Some text →
  countdownInterval (countdown_tick p) = Some (r - 1) ∧
  isOverlayVisible (countdown_tick p) = isOverlayVisible p ∧
  overlay_node (dom (countdown_tick p)) = None ∧
  floating_countdown (dom (countdown_tick p)) = Some (formatDuration (r - 1)) ∧
  currentDomain (countdown_tick p) = currentDomain p.
Proof.
  destruct p as [el vis cd ci [ac an mi vs li re] [ov fl sl] [fr mr ur ts um]].
  cbn. intros -> Hr -> ->. unfold countdown_tick. cbn.
  rewrite bool_decide_eq_false_2 by lia. cbn. done.
Qed.

Lemma countdown_tick_last (p : Page) (r : Z) :
  countdownInterval p = Some r →
  r ≤ 1 →
  isOverlayVisible p = false →
  countdownInterval (countdown_tick p) = None ∧
  isOverlayVisible (countdown_tick p) = true ∧
  overlay_node (dom (countdown_tick p)) = Some (createOverlay (currentDomain p)) ∧
  floating_countdown (dom (countdown_tick p)) = None ∧
  scroll_locked (dom (countdown_tick p)) = true.
Proof.
  destruct p as [el vis cd ci [ac an mi vs li re] [ov fl sl] [fr mr ur ts um]].
  cbn. intros -> Hr ->. unfold countdown_tick. cbn.
  rewrite bool_decide_eq_true_2 by lia. cbn. done.
Qed.

Lemma countdown_tick_stopped (p : Page) :
  countdownInterval p = None → countdown_tick p = p.
Proof. intros H. unfold countdown_tick. by rewrite H. Qed.

Lemma countdown_ticks (p : Page) (r : Z) (k : nat) :
  countdownInterval p = Some r →
  isOverlayVisible p = false →
  overlay_node (dom p) = None →
  floating_countdown (dom p) = Some (formatDuration r) →
  (Z.of_nat k < Z.max r 1 →
   isOverlayVisible (Nat.iter k countdown_tick p) = false ∧
   overlay_node (dom (Nat.iter k countdown_tick p)) = None ∧
   floating_countdown (dom (Nat.iter k countdown_tick p)) =
     Some (formatDuration (r - Z.of_nat k)) ∧
   countdownInterval (Nat.iter k countdown_tick p) = Some (r - Z.of_nat k) ∧
   currentDomain (Nat.iter k countdown_tick p) = currentDomain p) ∧
  (Z.max r 1 ≤ Z.of_nat k →
   isOverlayVisible (Nat.iter k countdown_tick p) = true ∧
   overlay_node (dom (Nat.iter k countdown_tick p)) = Some (createOverlay (currentDomain p)) ∧
   floating_countdown (dom (Nat.iter k countdown_tick p)) = None ∧
   countdownInterval (Nat.iter k countdown_tick p) = None ∧
   scroll_locked (dom (Nat.iter k countdown_tick p)) = true).
Proof.
  intros Hi Hv Ho Hfl. induction k as [|k IH].
  - split; [|lia]. intros _. simpl. rewrite Z.sub_0_r. done.
  - destruct IH as [IHlt IHge].
    change (Nat.iter (S k) countdown_tick p)
      with (countdown_tick (Nat.iter k countdown_tick p)).
    generalize dependent (Nat.iter k countdown_tick p). intros q IHlt IHge.
    destruct (decide (Z.of_nat k < Z.max r 1)) as [Hk|Hk].
    + destruct (IHlt Hk) as (Hv' & Ho' & Hfl' & Hi' & Hd').
      destruct (decide (1 < r - Z.of_nat k)) as [Hr|Hr].
      * split; [|lia]. intros _.
        destruct (countdown_tick_running q _ _ Hi' Hr Ho' Hfl') as (-> & -> & -> & -> & ->).
        replace (r - Z.of_nat k - 1) with (r - Z.of_nat (S k)) by lia. done.
      * split; [lia|]. intros _.
        destruct (countdown_tick_last q _ Hi' ltac:(lia) Hv') as (-> & -> & -> & -> & ->).
        by rewrite Hd'.
    + destruct IHge as (Hv' & Ho' & Hfl' & Hi' & Hs'); [lia|].
      split; [lia|]. intros _. rewrite countdown_tick_stopped by done. done.
Qed.

(** X12. The countdown of the page re-blocks on its own: started with
    [seconds] on a page without overlay it shows, after each of the first
    ticks, the time that is left, and at tick number [seconds] (at the
    first tick when [seconds] is below 1) it removes the floating
    countdown, stops and puts the overlay back with the scroll lock;
    later ticks change nothing. *)
Theorem countdown_reblocks (p : Page) (seconds : Z) (k : nat) :
  isOverlayVisible p = false →
  overlay_node (dom p) = None →
  let after := Nat.iter k countdown_tick (startCountdownDisplay seconds p) in
  (Z.of_nat k < Z.max seconds 1 →
   isOverlayVisible after = false ∧ overlay_node (dom after) = None ∧
   floating_countdown (dom after) = Some (formatDuration (seconds - Z.of_nat k)) ∧
   countdownInterval after = Some (seconds - Z.of_nat k)) ∧
  (Z.max seconds 1 ≤ Z.of_nat k →
   isOverlayVisible after = true ∧
   overlay_node (dom after) = Some (createOverlay (currentDomain p)) ∧
   floating_countdown (dom after) = None ∧ countdownInterval after = None ∧
   scroll_locked (dom after) = true).
Proof.
  intros Hv Ho after.
  assert (countdownInterval (startCountdownDisplay seconds p) = Some seconds ∧
          isOverlayVisible (startCountdownDisplay seconds p) = false ∧
          overlay_node (dom (startCountdownDisplay seconds p)) = None ∧
          floating_countdown (dom (startCountdownDisplay seconds p)) =
            Some (formatDuration seconds) ∧
          currentDomain (startCountdownDisplay seconds p) = currentDomain p)
    as (H1 & H2 & H3 & H4 & H5).
  { destruct p as [el vis cd ci [ac an mi vs li re] [ov fl sl] [fr mr ur ts um]].
    cbn in Hv, Ho. subst. unfold startCountdownDisplay, createFloatingCountdown. cbn.
    by destruct fl. }
  destruct (countdown_ticks _ seconds k H1 H2 H3 H4) as [Hlt Hge].
  fold after in Hlt, Hge. clearbody after. rewrite H5 in Hge. split.
  - intros Hk. destruct (Hlt Hk) as (? & ? & ? & ? & _). done.
  - done.
Qed.

(** Evaluation of the handlers on a page given by its fields; the string
    and number functions they call are left as they are. *)
Ltac page_eval :=
  cbv beta iota zeta delta
    [page_step init_response onMessage_page onMessage_listener visibility_response voice_click
     microphone_settled microphone_failed animation_frame monitorVolume speech_result
     speech_error validatePhrase_page unlock_response timeout_fired countdown_tick
     overlay_removed cancelVoiceUnlock startCountdownDisplay createFloatingCountdown
     removeFloatingCountdown updateCountdownValue showResult resetUnlockUI
     hideBlockOverlay_page stopListening showBlockOverlay_page set_overlay_node
     set_countdownInterval set_currentDomain set_pending set_dom set_audio
     overlayElement isOverlayVisible currentDomain countdownInterval audio dom pending
     audioContext analyser microphone volumeSamples isListening recognition
     overlay_node floating_countdown scroll_locked frame_requests microphone_requests
     unlock_requests timeouts unlock_messages negb andb orb
     fmap option_fmap option_map].

(** Case analysis on what a handler looks at, one scrutinee at a time. *)
Ltac page_cases :=
  repeat first
    [ done
    | match goal with
      | |- context [match ?x with _ => _ end] =>
          lazymatch x with
          | context [match _ with _ => _ end] => fail
          | _ => destruct x eqn:?
          end
      end ].

Lemma removed_overlay_step (p : Page) (event : PageEvent) (locked : bool) :
  isOverlayVisible p = true →
  overlay_node (dom p) = None →
  scroll_locked (dom p) = locked →
  calls_hideBlockOverlay p event = false →
  isOverlayVisible (page_step p event) = true ∧
  overlay_node (dom (page_step p event)) = None ∧
  scroll_locked (dom (page_step p event)) = locked.
Proof.
  destruct p as [el vis cd ci [ac an mi vs li re] [ov fl sl] [fr mr ur ts um]].
  cbn. intros -> -> -> Hc.
  destruct event; page_eval;
    cbv beta iota zeta delta
      [calls_hideBlockOverlay isOverlayVisible pending timeouts negb andb] in Hc.
  all: page_cases.
Qed.

(** X13. The observer does not put a removed overlay back: when the
    overlay node is taken out of the document while [isOverlayVisible] is
    set, the [showBlockOverlay()] the observer calls returns at its guard,
    and the overlay stays away, with the flag set and the scroll lock as
    it was, through every later event that does not run
    [hideBlockOverlay()]: block messages of the service worker, countdown
    ticks, visibility checks that say blocked, further removals. Only
    after a hide does a block message bring the overlay back. *)
Theorem removed_overlay_stays_removed (p : Page) (events : list PageEvent) :
  isOverlayVisible p = true →
  never_hides (overlay_removed p) events = true →
  let after := page_run (overlay_removed p) events in
  overlay_node (dom after) = None ∧
  isOverlayVisible after = true ∧
  scroll_locked (dom after) = scroll_locked (dom p) ∧
  ∀ domain remaining,
    overlay_node (dom (page_run after
      [Pg_message {| msg_action := hideBlockOverlay; msg_domain := domain;
                     msg_remainingTime := remaining |};
       Pg_message {| msg_action := showBlockOverlay; msg_domain := domain;
                     msg_remainingTime := 0 |}])) = Some (createOverlay (Some domain)).
Proof.
  intros Hv Hn after.
  assert (isOverlayVisible (overlay_removed p) = true ∧
          overlay_node (dom (overlay_removed p)) = None ∧
          scroll_locked (dom (overlay_removed p)) = scroll_locked (dom p))
    as (Hv0 & Ho0 & Hs0).
  { destruct p as [el vis cd ci [ac an mi vs li re] [ov fl sl] [fr mr ur ts um]].
    cbn in Hv. subst. by page_eval. }
  unfold after. clear after. revert Hn Hv0 Ho0 Hs0.
  generalize (overlay_removed p) as q. generalize (scroll_locked (dom p)) as locked.
  intros locked q. revert q.
  induction events as [|event events IH]; intros q Hn Hv0 Ho0 Hs0.
  - split; [exact Ho0|]. split; [exact Hv0|]. split; [exact Hs0|].
    intros domain remaining.
    destruct q as [el vis cd ci [ac an mi vs li re] [ov fl sl] [fr mr ur ts um]].
    cbn in Hv0, Ho0. subst. unfold page_run, foldl. page_eval.
    case_bool_decide; by destruct fl.
  - simpl in Hn. apply andb_true_iff in Hn as [Hc Hn]. apply negb_true_iff in Hc.
    destruct (removed_overlay_step q event locked Hv0 Ho0 Hs0 Hc) as (Hv1 & Ho1 & Hs1).
    change (page_run q (event :: events)) with (page_run (page_step q event) events).
    apply (IH (page_step q event) Hn Hv1 Ho1 Hs1).
Qed.

Lemma page_invariant_loaded : page_invariant page_loaded.
Proof. split; cbn; try done; by intros [? ?]. Qed.

Lemma page_invariant_step (p : Page) (event : PageEvent) :
  page_invariant p → page_invariant (page_step p event).
Proof.
  intros [Ha He Hs Hau].
  destruct p as [el vis cd ci [ac an mi vs li re] [ov fl sl] [fr mr ur ts um]].
  cbn in Ha, He, Hs, Hau. subst el sl.
  destruct vis.
  - clear Ha Hau.
    destruct event; split; page_eval; intros; page_cases.
  - assert (ov = None) as ->.
    { destruct ov; [|done]. by specialize (Ha ltac:(by eexists)). }
    assert (ac = false ∧ an = false ∧ mi = false ∧ li = false ∧ re = false)
      as (-> & -> & -> & -> & ->).
    { destruct (ac || an || mi || li || re) eqn:Hall; [by specialize (Hau eq_refl)|].
      repeat (apply orb_false_iff in Hall as [Hall ?]). done. }
    clear Ha Hau.
    destruct event; split; page_eval; intros; page_cases.
Qed.

(** X14. The script listens only under its overlay: in every state the
    page reaches from the loaded script, while [isOverlayVisible] is not
    set there is no audio context, analyser, microphone source or
    recognition, [isListening] is off and no overlay is attached; and the
    element variable and the scroll lock of the body are set exactly when
    the flag is. *)
Theorem page_listens_only_under_overlay (events : list PageEvent) :
  let p := page_run page_loaded events in
  (isOverlayVisible p = false →
   audioContext (audio p) = false ∧ analyser (audio p) = false ∧
   microphone (audio p) = false ∧ isListening (audio p) = false ∧
   recognition (audio p) = false ∧ overlay_node (dom p) = None) ∧
  overlayElement p = isOverlayVisible p ∧
  scroll_locked (dom p) = isOverlayVisible p.
Proof.
  intros p.
  assert (page_invariant p) as [Ha He Hs Hau].
  { unfold p, page_run. generalize page_invariant_loaded. generalize page_loaded as q.
    induction events as [|event events IH]; intros q Hq; [done|].
    apply IH. by apply page_invariant_step. }
  clearbody p. split; [|by split].
  intros Hv. rewrite Hv in Ha, Hau.
  destruct (audioContext (audio p) || analyser (audio p) || microphone (audio p) ||
            isListening (audio p) || recognition (audio p)) eqn:Hall;
    [by specialize (Hau eq_refl)|].
  repeat (apply orb_false_iff in Hall as [Hall ?]).
  split_and!; try done.
  destruct (overlay_node (dom p)); [|done]. by specialize (Ha ltac:(by eexists)).
Qed.

(** X15. An accepted phrase, step by step: the content script stops
    listening and asks the service worker to unlock the current domain for
    the duration of the measured level. When the worker confirms and the
    timeout of 2 seconds fires, the overlay is gone, the scroll lock is
    released and the floating countdown starts from that duration; after
    exactly that many ticks the overlay is back. When the worker refuses,
    the overlay stays, with the unlock button visible again and nothing
    scheduled. *)
Theorem voice_unlock_cycle (p : Page) (o : Overlay) (transcript : string) (k : nat) :
  overlay_node (dom p) = Some o →
  overlayElement p = true →
  unlock_requests (pending p) = [] →
  timeouts (pending p) = [] →
  isMatch transcript = true →
  ∃ mapping,
    getVolumeDurationMapping (calculateAverageVolume (volumeSamples (audio p)))
      = Some mapping ∧
    let asked := speech_result transcript p in
    let granted := page_run asked [Pg_unlock_response true; Pg_timeout] in
    let refused := page_step asked (Pg_unlock_response false) in
    let after := Nat.iter k countdown_tick granted in
    unlock_messages (pending asked) =
      unlock_messages (pending p) ++ [(currentDomain p, mapping_duration mapping)] ∧
    isListening (audio asked) = false ∧ recognition (audio asked) = false ∧
    overlay_node (dom granted) = None ∧ isOverlayVisible granted = false ∧
    scroll_locked (dom granted) = false ∧
    floating_countdown (dom granted) = Some (formatDuration (mapping_duration mapping)) ∧
    (Z.of_nat k < mapping_duration mapping →
     isOverlayVisible after = false ∧
     floating_countdown (dom after) =
       Some (formatDuration (mapping_duration mapping - Z.of_nat k))) ∧
    (mapping_duration mapping ≤ Z.of_nat k →
     isOverlayVisible after = true ∧
     overlay_node (dom after) = Some (createOverlay (currentDomain p))) ∧
    overlay_node (dom refused) = Some
      {| overlay_domain := overlay_domain o; unlock_section_hidden := false;
         listening_hidden := true; result_hidden := true;
         result_success := Some false;
         result_message := "Failed to unlock. Please try again.";
         countdown_value := countdown_value o |} ∧
    timeouts (pending refused) = [] ∧
    isOverlayVisible refused = isOverlayVisible p.
Proof.
  intros Ho He Hu Ht Hm.
  destruct (getVolumeDurationMapping_total (calculateAverageVolume (volumeSamples (audio p))))
    as (mapping & Hmap & _ & Hpos).
  exists mapping. split; [done|]. intros asked granted refused after.
  assert (asked = set_pending
            {| frame_requests := frame_requests (pending p);
               microphone_requests := microphone_requests (pending p);
               unlock_requests := [mapping]; timeouts := [];
               unlock_messages := unlock_messages (pending p) ++
                                    [(currentDomain p, mapping_duration mapping)] |}
            (stopListening p)) as Hasked.
  { unfold asked. rewrite (speech_result_match p transcript mapping Hm Hmap).
    by rewrite Hu, Ht. }
  clearbody asked. subst asked.
  destruct p as [el vis cd ci [ac an mi vs li re] [ov fl sl] [fr mr ur ts um]].
  cbn in Ho, He, Hu, Ht. subst.
  assert (countdownInterval granted = Some (mapping_duration mapping) ∧
          isOverlayVisible granted = false ∧ overlay_node (dom granted) = None ∧
          floating_countdown (dom granted) = Some (formatDuration (mapping_duration mapping)) ∧
          scroll_locked (dom granted) = false ∧ currentDomain granted = cd)
    as (H1 & H2 & H3 & H4 & H5 & H6).
  { unfold granted, page_run, foldl. page_eval. by destruct fl. }
  destruct (countdown_ticks granted _ k H1 H2 H3 H4) as [Hlt Hge].
  fold after in Hlt, Hge. clearbody after. clearbody granted.
  rewrite Z.max_l in Hlt, Hge by lia.
  split; [done|]. split; [done|]. split; [done|].
  split; [exact H3|]. split; [exact H2|]. split; [exact H5|]. split; [exact H4|].
  split. { intros Hk. by destruct (Hlt Hk) as (? & _ & ? & _). }
  split. { intros Hk. destruct (Hge Hk) as (? & ? & _). by rewrite <- H6. }
  unfold refused. by page_eval.
Qed.

(** ** The navigation listeners and the page *)

Section NavigationProperties.
Variable URL_hostname : string → option string.

Lemma onUpdated_run (url : string) (now : Z) (w : World) :
  url ≠ "" →
  ∃ status,
    result_of (shouldBlockTab URL_hostname url now) w = Returned status ∧
    result_of (onUpdated URL_hostname true (Some url) now) w =
      Returned (Some {| nav_action := if shouldBlock status then showBlockOverlay
                                      else hideBlockOverlay;
                        nav_domain := status_domain status;
                        nav_remainingTime := status_remainingTime status |}) ∧
    same_store w (world_after (onUpdated URL_hostname true (Some url) now) w).
Proof.
  intros Hne.
  pose proof (shouldBlockTab_result URL_hostname url now w) as Hr.
  destruct (shouldBlockTab_same_store URL_hostname url now w) as [Hs _].
  unfold onUpdated. rewrite bool_decide_eq_false_2 by done. simpl.
  unfold result_of, world_after, mbind, Async_bind in *.
  destruct (shouldBlockTab URL_hostname url now w) as [[status|e] w1]; simpl in *; [|done].
  exists status. injection Hr as Hr. done.
Qed.

Lemma onCommitted_run (frameId : Z) (url : string) (now : Z) (w : World) :
  ∃ status,
    result_of (shouldBlockTab URL_hostname url now) w = Returned status ∧
    result_of (onCommitted URL_hostname frameId url now) w =
      Returned (if bool_decide (frameId = 0) && shouldBlock status
                then Some {| nav_action := showBlockOverlay;
                             nav_domain := status_domain status;
                             nav_remainingTime := None |}
                else None).
Proof.
  eexists. split; [apply shouldBlockTab_result|].
  pose proof (shouldBlockTab_result URL_hostname url now w) as Hr.
  unfold onCommitted. destruct (decide (frameId = 0)) as [->|Hf].
  - rewrite (bool_decide_eq_false_2 (0 ≠ 0)) by (intros H; by apply H).
    rewrite (bool_decide_eq_true_2 (0 = 0)) by done.
    unfold result_of, mbind, Async_bind in *.
    destruct (shouldBlockTab URL_hostname url now w) as [[status|e] w1]; simpl in *;
      [|done].
    injection Hr as <-. by destruct (shouldBlock status).
  - rewrite (bool_decide_eq_true_2 (frameId ≠ 0)) by done.
    by rewrite (bool_decide_eq_false_2 (frameId = 0)) by done.
Qed.

(** X16. A completed tab update brings the page in line with the verdict:
    for a tab with a URL the [onUpdated] listener sends one message, the
    store is as it was, and once the content script has handled the
    message its overlay flag is the [shouldBlock] of [shouldBlockTab];
    the overlay is attached for a blocked URL unless it had been removed
    under a set flag, and for an open URL the overlay the script holds is
    gone, listening has stopped, and an unlocked site gets the countdown
    of the seconds the ledger leaves. Without URL, or before the load is complete,
    nothing is sent. *)
Theorem onUpdated_synchronises_page (url : string) (now : Z) (w : World) (p : Page) :
  url ≠ "" →
  (∃ status message,
     result_of (shouldBlockTab URL_hostname url now) w = Returned status ∧
     result_of (onUpdated URL_hostname true (Some url) now) w = Returned (Some message) ∧
     same_store w (world_after (onUpdated URL_hostname true (Some url) now) w) ∧
     let p' := page_step p (Pg_navigation message) in
     isOverlayVisible p' = shouldBlock status ∧
     (shouldBlock status = true →
      currentDomain p' = status_domain status ∧
      (isOverlayVisible p = false →
       overlay_node (dom p') = Some (createOverlay (status_domain status)))) ∧
     (shouldBlock status = false →
      (overlayElement p = true ∨ overlay_node (dom p) = None →
       overlay_node (dom p') = None) ∧
      isListening (audio p') = false ∧
      ∀ remaining, status_remainingTime status = Some remaining → 0 < remaining →
        countdownInterval p' = Some remaining ∧
        floating_countdown (dom p') = Some (formatDuration remaining))) ∧
  (∀ complete, result_of (onUpdated URL_hostname complete None now) w = Returned None) ∧
  result_of (onUpdated URL_hostname false (Some url) now) w = Returned None ∧
  result_of (onUpdated URL_hostname true (Some "") now) w = Returned None ∧
  (∀ frameId message,
     result_of (onCommitted URL_hostname frameId url now) w = Returned (Some message) →
     frameId = 0 ∧
     isOverlayVisible (page_step p (Pg_navigation message)) = true ∧
     ∃ status, result_of (shouldBlockTab URL_hostname url now) w = Returned status ∧
               shouldBlock status = true ∧ nav_domain message = status_domain status).
Proof.
  intros Hne. split; [|split; [done|]; split; [done|]; split; [done|]].
  2: { intros frameId message Hc.
       destruct (onCommitted_run frameId url now w) as (status & Hs & Hm).
       rewrite Hm in Hc. case_bool_decide as Hf; simpl in Hc; [|done].
       destruct (shouldBlock status) eqn:Hb; [|done]. injection Hc as <-.
       split; [done|]. split; [|by exists status].
       destruct p as [el vis cd ci [ac an mi vs li re] [ov fl sl] [fr mr ur ts um]].
       page_eval. cbn [nav_action nav_domain nav_remainingTime]. by destruct vis. }
  destruct (onUpdated_run url now w Hne) as (status & Hs & Hm & Hsame).
  exists status. eexists. split; [exact Hs|]. split; [exact Hm|]. split; [exact Hsame|].
  destruct p as [el vis cd ci [ac an mi vs li re] [ov fl sl] [fr mr ur ts um]].
  destruct status as [block domain remaining]. cbn [shouldBlock status_domain status_remainingTime].
  destruct block.
  - destruct vis; page_eval; cbn [nav_action nav_domain nav_remainingTime];
      (split; [done|]); (split; [|done]); intros _; (split; [done|]); by intros.
  - destruct remaining as [r|]; [destruct (decide (r > 0)) as [Hr|Hr]|];
      destruct fl as [text|]; page_eval; cbn [nav_action nav_domain nav_remainingTime];
      rewrite ?bool_decide_eq_true_2, ?bool_decide_eq_false_2 by done;
      (split; [done|]); (split; [done|]); intros _;
      (split; [by intros [->| ->]; [|destruct el]|]);
      (split; [done|]); intros r' Heq Hpos; simplify_eq; try lia; done.
Qed.

End NavigationProperties.

(** ** The popup: which domains the editor accepts and what it keeps *)

Lemma nullable_matches r : nullable r = true ↔ re_matches r [].
Proof.
  split.
  - induction r; simpl; intros H; try done.
    + constructor.
    + apply andb_true_iff in H as [H1 H2].
      apply (re_matches_seq _ _ [] []); auto.
    + apply orb_true_iff in H as [H|H]; [apply re_matches_alt_l|apply re_matches_alt_r]; auto.
    + constructor.
  - intros H. remember [] as s eqn:Hs. induction H; simpl; subst; try done.
    + apply app_eq_nil in Hs as [-> ->]. rewrite IHre_matches1, IHre_matches2; done.
    + rewrite IHre_matches; done.
    + rewrite IHre_matches; [|done]. by rewrite orb_true_r.
Qed.

Lemma derivative_matches c r s : re_matches (derivative c r) s ↔ re_matches r (c :: s).
Proof.
  split.
  - revert s. induction r; simpl; intros s H.
    + inversion H.
    + inversion H.
    + destruct (class c) eqn:E; inversion H; subst. by constructor.
    + destruct (nullable r1) eqn:E.
      * inversion H; subst.
        -- inversion H3; subst. apply (re_matches_seq _ _ (c :: s1) s2); auto.
        -- apply (re_matches_seq _ _ [] (c :: s)); auto. by apply nullable_matches.
      * inversion H; subst. apply (re_matches_seq _ _ (c :: s1) s2); auto.
    + inversion H; subst; [apply re_matches_alt_l|apply re_matches_alt_r]; auto.
    + inversion H; subst. apply (re_matches_star_cons _ (c :: s1) s2); auto.
  - intros H. remember (c :: s) as cs eqn:Hcs. revert s Hcs.
    induction H as [|class c0 Hc0|r1 r2 s1 s2 H1 IH1 H2 IH2|r1 r2 s0 H1 IH1|r1 r2 s0 H2 IH2|
                    r0|r0 s1 s2 H1 IH1 H2 IH2]; intros t Hcs; simpl; try done.
    + injection Hcs as -> <-. rewrite Hc0. constructor.
    + destruct s1 as [|c1 s1].
      * simpl in Hcs. subst s2. apply nullable_matches in H1. rewrite H1.
        apply re_matches_alt_r. by apply IH2.
      * injection Hcs as -> <-.
        destruct (nullable r1); [apply re_matches_alt_l|]; constructor; auto.
    + apply re_matches_alt_l. auto.
    + apply re_matches_alt_r. auto.
    + destruct s1 as [|c1 s1].
      * simpl in Hcs. by apply IH2.
      * injection Hcs as -> <-. constructor; auto.
Qed.

Lemma regex_test_matches r s : regex_test r s = true ↔ re_matches r s.
Proof.
  revert r. induction s as [|c s IH]; intros r; simpl.
  - apply nullable_matches.
  - rewrite IH. apply derivative_matches.
Qed.

Lemma re_matches_class_inv class s :
  re_matches (Re_class class) s ↔ ∃ c, s = [c] ∧ class c = true.
Proof.
  split.
  - intros H. inversion H; subst. by eexists.
  - intros (c & -> & H). by constructor.
Qed.

Lemma re_matches_seq_inv r1 r2 s :
  re_matches (Re_seq r1 r2) s ↔ ∃ s1 s2, s = s1 ++ s2 ∧ re_matches r1 s1 ∧ re_matches r2 s2.
Proof.
  split.
  - intros H. inversion H; subst. by eexists _, _.
  - intros (s1 & s2 & -> & H1 & H2). by constructor.
Qed.

Lemma re_matches_opt_class class s :
  re_matches (Re_opt (Re_class class)) s ↔ s = [] ∨ ∃ c, s = [c] ∧ class c = true.
Proof.
  split.
  - intros H. inversion H; subst.
    + right. by apply re_matches_class_inv.
    + inversion H3. by left.
  - intros [->|H].
    + apply re_matches_alt_r. constructor.
    + apply re_matches_alt_l. by apply re_matches_class_inv.
Qed.

Lemma re_matches_at_most_class class n s :
  re_matches (Re_at_most n (Re_class class)) s ↔
  (length s ≤ n)%nat ∧ Forall (λ c, class c = true) s.
Proof.
  revert s. induction n as [|n IH]; intros s; simpl.
  - split.
    + intros H. inversion H. simpl. split; [lia|constructor].
    + intros [Hl _]. destruct s; [constructor|simpl in Hl; lia].
  - split.
    + intros H. inversion H; subst.
      * inversion H3; subst. inversion H2; subst. apply IH in H5 as [Hl Hf].
        simpl. split; [lia|by constructor].
      * inversion H3. simpl. split; [lia|constructor].
    + intros [Hl Hf]. destruct s as [|c s].
      * apply re_matches_alt_r. constructor.
      * apply re_matches_alt_l. inversion Hf; subst.
        apply (re_matches_seq _ _ [c] s); [by constructor|].
        apply IH. simpl in Hl. split; [lia|done].
Qed.

Lemma re_matches_star_class class s :
  re_matches (Re_star (Re_class class)) s ↔ Forall (λ c, class c = true) s.
Proof.
  split.
  - intros H. remember (Re_star (Re_class class)) as r eqn:Hr.
    induction H; try done.
    injection Hr as ->. inversion H; subst. constructor; auto.
  - induction 1 as [|c s Hc Hs IH]; [constructor|].
    apply (re_matches_star_cons _ [c] s); [by constructor|done].
Qed.

Lemma re_matches_at_least_class class n s :
  re_matches (Re_at_least n (Re_class class)) s ↔
  (n ≤ length s)%nat ∧ Forall (λ c, class c = true) s.
Proof.
  revert s. induction n as [|n IH]; intros s; simpl.
  - rewrite re_matches_star_class. split; [intros H; split; [lia|done]|by intros [_ H]].
  - split.
    + intros H. inversion H; subst. inversion H2; subst. apply IH in H4 as [Hl Hf].
      simpl. split; [lia|by constructor].
    + intros [Hl Hf]. destruct s as [|c s]; [simpl in Hl; lia|].
      inversion Hf; subst. apply (re_matches_seq _ _ [c] s); [by constructor|].
      apply IH. simpl in Hl. split; [lia|done].
Qed.

Lemma class_alnum_hyphen_alnum c : class_alnum c = true → class_alnum_hyphen c = true.
Proof. unfold class_alnum_hyphen, class_alnum. intros ->. done. Qed.

Lemma domainRegex_matches s :
  re_matches domainRegex s ↔
  ∃ name tld, s = name ++ "."%char :: tld ∧ domain_shape name tld.
Proof.
  unfold domainRegex. split.
  - intros H.
    apply re_matches_seq_inv in H as (s1 & r1 & -> & H1 & H).
    apply re_matches_seq_inv in H as (s2 & r2 & -> & H2 & H).
    apply re_matches_seq_inv in H as (s3 & r3 & -> & H3 & H).
    apply re_matches_seq_inv in H as (s4 & tld & -> & H4 & H5).
    apply re_matches_class_inv in H1 as (c & -> & Hc).
    apply re_matches_at_most_class in H2 as [Hl2 Hf2].
    apply re_matches_opt_class in H3.
    apply re_matches_class_inv in H4 as (d & -> & Hd).
    apply bool_decide_eq_true in Hd as ->.
    apply re_matches_at_least_class in H5 as [Hl5 Hf5].
    exists (c :: s2 ++ s3), tld. split.
    { simpl. by rewrite <- !app_assoc. }
    assert (Forall (λ c, class_alnum_hyphen c = true) s3 ∧ (length s3 ≤ 1)%nat) as [Hf3 Hl3].
    { destruct H3 as [->|(c3 & -> & Hc3)]; [split; [constructor|simpl; lia]|].
      split; [|simpl; lia]. constructor; [|constructor].
      by apply class_alnum_hyphen_alnum. }
    split_and!; try done.
    + by exists c, (s2 ++ s3).
    + simpl. rewrite length_app. lia.
    + constructor; [by apply class_alnum_hyphen_alnum|]. by apply Forall_app.
    + simpl. rewrite length_app. intros Hlen.
      destruct H3 as [->|(c3 & -> & Hc3)]; [simpl in Hlen; lia|].
      exists c3. split; [|done].
      change (c :: s2 ++ [c3]) with ((c :: s2) ++ [c3]). by rewrite last_snoc.
  - intros (name & tld & -> & (c & rest & -> & Hc) & Hlen & Hall & Hlast & Htld & Hlet).
    inversion Hall as [|? ? _ Hrest]; subst. simpl in Hlen.
    assert (∃ mid opt, rest = mid ++ opt ∧ (length mid ≤ 61)%nat ∧
                       (opt = [] ∨ ∃ c3, opt = [c3] ∧ class_alnum c3 = true))
      as (mid & opt & -> & Hmid & Hopt).
    { destruct (decide (length rest ≤ 61)%nat) as [Hle|Hgt].
      - exists rest, []. rewrite app_nil_r. split_and!; [done|done|by left].
      - destruct Hlast as (c3 & Hc3 & Hal); [simpl; lia|].
        destruct rest as [|c1 rest1] using rev_ind; [simpl in Hgt; lia|].
        change (c :: rest1 ++ [c1]) with ((c :: rest1) ++ [c1]) in Hc3.
        rewrite last_snoc in Hc3. injection Hc3 as ->.
        rewrite length_app in Hlen, Hgt. simpl in Hlen, Hgt.
        exists rest1, [c3]. split_and!; [done|lia|right; by exists c3]. }
    apply Forall_app in Hrest as [Hfm _].
    change ((c :: mid ++ opt) ++ "."%char :: tld)
      with ([c] ++ ((mid ++ opt) ++ "."%char :: tld)).
    constructor; [by constructor|].
    rewrite <- app_assoc. constructor; [by apply re_matches_at_most_class|].
    constructor; [by apply re_matches_opt_class|].
    change ("."%char :: tld) with (["."%char] ++ tld).
    constructor; [constructor; by apply bool_decide_eq_true|].
    by apply re_matches_at_least_class.
Qed.

Lemma class_alnum_hyphen_not_dot c : class_alnum_hyphen c = true → c ≠ "."%char.
Proof. intros H ->. vm_compute in H. discriminate. Qed.

Lemma class_letter_not_dot c : class_letter c = true → c ≠ "."%char.
Proof. intros H ->. vm_compute in H. discriminate. Qed.

Lemma filter_dot_none (s : list ascii) :
  Forall (λ c, c ≠ "."%char) s → filter (λ c, c = "."%char) s = [].
Proof.
  induction 1 as [|c s Hc Hs IH]; [done|].
  rewrite filter_cons. destruct (decide (c = "."%char)); [done|exact IH].
Qed.

Lemma domain_shape_no_dot name tld :
  domain_shape name tld →
  Forall (λ c, c ≠ "."%char) name ∧ Forall (λ c, c ≠ "."%char) tld ∧
  (1 ≤ length name)%nat.
Proof.
  intros ((c & rest & -> & Hc) & _ & Hall & _ & _ & Hlet). split_and!.
  - eapply Forall_impl; [exact Hall|]. intros x. apply class_alnum_hyphen_not_dot.
  - eapply Forall_impl; [exact Hlet|]. intros x. apply class_letter_not_dot.
  - simpl. lia.
Qed.

Lemma isValidDomain_chars domain :
  isValidDomain domain = true ↔
  ∃ name tld, chars domain = name ++ "."%char :: tld ∧ domain_shape name tld.
Proof. unfold isValidDomain. rewrite regex_test_matches. apply domainRegex_matches. Qed.

(** X17. What [isValidDomain] accepts: exactly the strings made of a name,
    one dot and a top-level domain, where the name has 1 to 63 letters,
    digits and hyphens, starts with a letter or digit and, at 63
    characters, ends with one, and the top-level domain has at least two
    letters. So an accepted domain has exactly one dot and at least four
    characters: a host with a subdomain or a two-part suffix is turned
    down. *)
Theorem isValidDomain_shape (domain : string) :
  (isValidDomain domain = true ↔
   ∃ name tld, chars domain = name ++ "."%char :: tld ∧ domain_shape name tld) ∧
  (isValidDomain domain = true →
   length (filter (λ c, c = "."%char) (chars domain)) = 1%nat ∧
   (4 ≤ String.length domain)%nat).
Proof.
  split; [apply isValidDomain_chars|].
  intros H. apply isValidDomain_chars in H as (name & tld & Hd & Hshape).
  destruct (domain_shape_no_dot _ _ Hshape) as (Hn & Ht & Hlen).
  destruct Hshape as (_ & _ & _ & _ & Htld & _).
  rewrite <- chars_length, Hd. split.
  - rewrite filter_app, filter_cons, decide_True by done.
    rewrite !filter_dot_none by done. done.
  - rewrite length_app. simpl. lia.
Qed.

Lemma lower_char_idemp c : lower_char (lower_char c) = lower_char c.
Proof. destruct c as [[] [] [] [] [] [] [] []]; reflexivity. Qed.

Lemma chars_toLowerCase s : chars (toLowerCase s) = lower_char <$> chars s.
Proof. unfold chars. induction s as [|c s IH]; simpl; [done|]. by rewrite IH. Qed.

Lemma toLowerCase_fixed s :
  toLowerCase s = s ↔ Forall (λ c, lower_char c = c) (chars s).
Proof.
  unfold chars. induction s as [|c s IH]; simpl.
  - split; [constructor|done].
  - rewrite Forall_cons, <- IH. split.
    + intros [= ? ?]. done.
    + intros [-> ->]. done.
Qed.

Lemma toLowerCase_lower s : Forall (λ c, lower_char c = c) (chars (toLowerCase s)).
Proof.
  rewrite chars_toLowerCase. apply Forall_fmap, Forall_true. intros c.
  apply lower_char_idemp.
Qed.

Lemma strip_path_chars_prefix s : strip_path_chars s `prefix_of` s.
Proof.
  induction s as [|c s IH]; simpl; [done|].
  destruct (_ && _); [apply prefix_nil|by apply prefix_cons].
Qed.

Lemma Forall_prefix {A} (P : A → Prop) (l1 l2 : list A) :
  l1 `prefix_of` l2 → Forall P l2 → Forall P l1.
Proof. intros [k ->] H. by apply Forall_app in H as [? _]. Qed.

Lemma clean_domain_lower value :
  toLowerCase (clean_domain value) = clean_domain value.
Proof.
  apply toLowerCase_fixed. unfold clean_domain, strip_path.
  rewrite chars_of_list. eapply Forall_prefix; [apply strip_path_chars_prefix|].
  pose proof (toLowerCase_lower (trim value)) as H.
  assert (Forall (λ c, lower_char c = c) (chars (strip_protocol (toLowerCase (trim value)))))
    as H1.
  { unfold strip_protocol, remove_prefix.
    repeat case_match; rewrite ?chars_of_list; try done; by apply Forall_drop. }
  unfold strip_www, remove_prefix.
  case_match; rewrite ?chars_of_list; try done; by apply Forall_drop.
Qed.

Lemma existsb_domain_false (domain : string) (sites : list BlockedSite) :
  existsb (λ site, bool_decide (site_domain site = domain)) sites = false ↔
  domain ∉ (site_domain <$> sites).
Proof.
  induction sites as [|site sites IH]; simpl.
  - split; [intros _; apply not_elem_of_nil|done].
  - rewrite orb_false_iff, IH, not_elem_of_cons, bool_decide_eq_false.
    split; intros [H1 H2]; (split; [intros H; by apply H1|done]).
Qed.

(** What an accepted [handleAddSite] has checked and done. *)
Lemma handleAddSite_Some value st st' :
  handleAddSite value st = Some st' →
  isValidDomain (clean_domain value) = true ∧
  (clean_domain value ∉ (site_domain <$> blockedSites st)) ∧
  st' = set_blockedSites
          (blockedSites st ++
             [{| site_domain := clean_domain value; site_enabled := true;
                 site_name := site_name_of (clean_domain value) |}]) st.
Proof.
  unfold handleAddSite. fold (clean_domain value).
  case_bool_decide; [done|].
  destruct (isValidDomain (clean_domain value)) eqn:Hv; simpl; [|done].
  destruct (existsb _ _) eqn:He; [done|].
  apply existsb_domain_false in He. intros [= <-]. done.
Qed.

Lemma editor_ok_default : editor_ok DEFAULT_SETTINGS.
Proof.
  split.
  - repeat constructor; vm_compute; reflexivity.
  - simpl.
    repeat (constructor;
            [intros H; repeat (apply elem_of_cons in H as [H|H]; [discriminate|]);
             by apply elem_of_nil in H|]).
    constructor.
Qed.

Lemma popup_handle_editor_ok action st st' :
  editor_ok st → popup_handle action st = Some st' → editor_ok st'.
Proof.
  intros [Hvalid Hnodup]. destruct action as [checked|value|index checked|index confirmed|value];
    simpl.
  - intros [= <-]. done.
  - intros H. apply handleAddSite_Some in H as (Hv & Hnew & ->). split; simpl.
    + apply Forall_app. split; [done|]. constructor; [|constructor]. simpl.
      split; [done|apply clean_domain_lower].
    + rewrite fmap_app. apply NoDup_app. split_and!; [done| |].
      * intros d Hd. simpl. intros ->%list_elem_of_singleton. done.
      * simpl. apply NoDup_singleton.
  - unfold handleSiteToggle. destruct (blockedSites st !! index) as [site|] eqn:Hi; [|done].
    intros [= <-]. split; simpl.
    + apply Forall_insert; [done|]. simpl.
      by apply (Forall_lookup_1 _ _ _ _ Hvalid Hi).
    + rewrite list_fmap_insert. simpl.
      rewrite list_insert_id; [done|]. by rewrite list_lookup_fmap, Hi.
  - unfold handleSiteDelete. destruct (blockedSites st !! index) as [site|] eqn:Hi; [|done].
    destruct confirmed; [|done]. intros [= <-]. split; simpl.
    + by apply Forall_delete.
    + eapply sublist_NoDup; [exact Hnodup|]. apply fmap_sublist, sublist_delete.
  - unfold handlePhraseChange. case_bool_decide; [done|]. intros [= <-]. done.
Qed.

(** X18. The editor keeps the list of rules well formed: in the default
    settings, and after any sequence of actions in the popup from settings
    of that kind, every rule has a domain that [isValidDomain] accepts,
    written in lower case, and no two rules have the same domain; in
    particular no rule has the empty domain. *)
Theorem popup_keeps_rules_well_formed (actions : list PopupAction) (st : Settings) :
  editor_ok DEFAULT_SETTINGS ∧
  (editor_ok st →
   editor_ok (popup_run actions st) ∧
   ∀ site, site ∈ blockedSites (popup_run actions st) → site_domain site ≠ "").
Proof.
  split; [apply editor_ok_default|].
  intros Hok.
  assert (editor_ok (popup_run actions st)) as Hrun.
  { unfold popup_run. revert st Hok.
    induction actions as [|action actions IH]; intros st Hok; [done|].
    simpl. apply IH. destruct (popup_handle action st) as [st'|] eqn:Hh; simpl; [|done].
    by apply (popup_handle_editor_ok action st). }
  split; [done|].
  intros site Hin Hempty. destruct Hrun as [Hvalid _].
  rewrite Forall_forall in Hvalid. destruct (Hvalid site Hin) as [Hv _].
  rewrite Hempty in Hv. vm_compute in Hv. discriminate.
Qed.

Lemma last_dot_split (x1 t1 x2 t2 : list ascii) :
  x1 ++ "."%char :: t1 = x2 ++ "."%char :: t2 →
  Forall (λ c, c ≠ "."%char) t1 →
  Forall (λ c, c ≠ "."%char) t2 →
  x1 = x2 ∧ t1 = t2.
Proof.
  intros H H1 H2. revert x2 H. induction x1 as [|a x1 IH]; intros [|b x2] H; simpl in H.
  - by injection H.
  - injection H as <- ->. apply Forall_app in H1 as [_ H1]. by inversion H1.
  - injection H as -> <-. apply Forall_app in H2 as [_ H2]. by inversion H2.
  - injection H as -> H. destruct (IH x2 H) as [-> ->]. done.
Qed.

Lemma domain_or_subdomain_chars h d :
  domain_or_subdomain h d →
  ∃ pre, chars h = pre ++ chars d ∧ (pre = [] ∨ ∃ sub, pre = sub ++ ["."%char]).
Proof.
  intros [->|[sub ->]].
  - exists []. split; [done|by left].
  - exists (chars sub ++ ["."%char]). rewrite !chars_app. split.
    + by rewrite <- app_assoc.
    + right. by eexists.
Qed.

(** A host name is the domain, or a subdomain, of at most one domain
    that [isValidDomain] accepts: the last two labels of the host. *)
Lemma valid_domain_unique h d1 d2 :
  isValidDomain d1 = true → isValidDomain d2 = true →
  domain_or_subdomain h d1 → domain_or_subdomain h d2 → d1 = d2.
Proof.
  intros (n1 & t1 & Hd1 & S1)%isValidDomain_chars (n2 & t2 & Hd2 & S2)%isValidDomain_chars
    (p1 & Hh1 & Hp1)%domain_or_subdomain_chars (p2 & Hh2 & Hp2)%domain_or_subdomain_chars.
  destruct (domain_shape_no_dot _ _ S1) as (Hn1 & Ht1 & _).
  destruct (domain_shape_no_dot _ _ S2) as (Hn2 & Ht2 & _).
  apply chars_inj. rewrite Hd1, Hd2.
  rewrite Hh1, Hd1, Hd2 in Hh2. rewrite !app_assoc in Hh2.
  apply last_dot_split in Hh2 as [Hpre ->]; [|done..].
  f_equal.
  destruct Hp1 as [->|[s1 ->]], Hp2 as [->|[s2 ->]]; simpl in Hpre.
  - done.
  - subst n1. apply Forall_app in Hn1 as [Hn1 _]. apply Forall_app in Hn1 as [_ Hn1].
    by inversion Hn1.
  - subst n2. apply Forall_app in Hn2 as [Hn2 _]. apply Forall_app in Hn2 as [_ Hn2].
    by inversion Hn2.
  - rewrite <- !app_assoc in Hpre. simpl in Hpre.
    by apply last_dot_split in Hpre as [_ ->].
Qed.

Lemma first_blocked_valid h sites d :
  Forall (λ site, isValidDomain (site_domain site) = true) sites →
  first_blocked h sites = Some d ↔
  ∃ site, site ∈ sites ∧ rule_matches h site ∧ site_domain site = d.
Proof.
  intros Hvalid. split.
  - intros (site & (pre & post & -> & Hm & _) & ->)%first_blocked_Some.
    exists site. split_and!; [|done..].
    apply elem_of_app. right. apply elem_of_cons. by left.
  - intros (site & Hin & Hm & <-).
    destruct (first_blocked h sites) as [d'|] eqn:Hfb.
    + apply first_blocked_Some in Hfb as (site' & (pre & post & -> & Hm' & _) & ->).
      f_equal. rewrite Forall_forall in Hvalid.
      apply (valid_domain_unique h).
      * apply Hvalid. apply elem_of_app. right. apply elem_of_cons. by left.
      * by apply Hvalid.
      * by destruct Hm'.
      * by destruct Hm.
    + apply first_blocked_None in Hfb. rewrite Forall_forall in Hfb.
      by destruct (Hfb site Hin).
Qed.

Lemma editor_ok_valid st :
  editor_ok st → Forall (λ site, isValidDomain (site_domain site) = true) (blockedSites st).
Proof. intros [H _]. eapply Forall_impl; [exact H|]. by intros site [? _]. Qed.

Lemma option_eq_Some {A} (a b : option A) : (∀ x, a = Some x ↔ b = Some x) → a = b.
Proof.
  intros H. destruct a as [x|], b as [y|]; try done.
  - symmetry. by apply H.
  - symmetry. by apply (H x).
  - by apply (H y).
Qed.

Section EditorAndMatcher.
Variable URL_hostname : string → option string.

(** X19. Rules of the editor do not overlap, so a rule that is switched
    off or removed unblocks exactly its own hosts: on settings the editor
    keeps, after the rule at [index] is disabled or deleted the matcher
    answers [null] for every URL it mapped to the domain of that rule, and
    answers as before for every other URL. *)
Theorem switching_rule_off (st st' : Settings) (index : nat) (site : BlockedSite)
    (url : string) :
  editor_ok st →
  blockedSites st !! index = Some site →
  handleSiteToggle index false st = Some st' ∨ handleSiteDelete index true st = Some st' →
  getBlockedDomain URL_hostname url (blockedSites st') =
    if bool_decide (getBlockedDomain URL_hostname url (blockedSites st)
                    = Some (site_domain site))
    then None
    else getBlockedDomain URL_hostname url (blockedSites st).
Proof.
  intros Hok Hi Hact.
  assert (editor_ok st') as Hok'.
  { destruct Hact as [H|H].
    - by apply (popup_handle_editor_ok (Act_siteToggle index false) st).
    - by apply (popup_handle_editor_ok (Act_siteDelete index true) st). }
  assert (∀ s, (s ∈ blockedSites st' ∧ site_enabled s = true) ↔
               (s ∈ blockedSites st ∧ site_enabled s = true ∧
                site_domain s ≠ site_domain site)) as Hmem.
  { destruct Hok as [_ Hnodup]. intros s.
    assert (∀ j, blockedSites st !! j = Some s → site_domain s = site_domain site → j = index)
      as Huniq.
    { intros j Hj Hd. apply (NoDup_lookup _ j index (site_domain site) Hnodup).
      - by rewrite list_lookup_fmap, Hj, <- Hd.
      - by rewrite list_lookup_fmap, Hi. }
    destruct Hact as [H|H].
    - unfold handleSiteToggle in H. rewrite Hi in H. injection H as <-. simpl. split.
      + intros [(j & Hj)%list_elem_of_lookup_1 He].
        destruct (decide (j = index)) as [->|Hne].
        * rewrite list_lookup_insert_eq in Hj by by eapply lookup_lt_Some.
          injection Hj as <-. done.
        * rewrite list_lookup_insert_ne in Hj by done.
          split_and!; [by eapply list_elem_of_lookup_2|done|].
          intros Hd. by apply Hne, Huniq.
      + intros ((j & Hj)%list_elem_of_lookup_1 & He & Hd). split; [|done].
        apply (list_elem_of_lookup_2 _ j). rewrite list_lookup_insert_ne; [done|].
        intros <-. rewrite Hi in Hj. injection Hj as <-. done.
    - unfold handleSiteDelete in H. rewrite Hi in H. injection H as <-. simpl. split.
      + intros [(j & Hj)%list_elem_of_lookup_1 He].
        destruct (decide (j < index)%nat) as [Hlt|Hge].
        * rewrite list_lookup_delete_lt in Hj by done.
          split_and!; [by eapply list_elem_of_lookup_2|done|].
          intros Hd. apply Huniq in Hj; [lia|done].
        * rewrite list_lookup_delete_ge in Hj by lia.
          split_and!; [by eapply list_elem_of_lookup_2|done|].
          intros Hd. apply Huniq in Hj; [lia|done].
      + intros ((j & Hj)%list_elem_of_lookup_1 & He & Hd). split; [|done].
        destruct (decide (j < index)%nat) as [Hlt|Hge].
        * apply (list_elem_of_lookup_2 _ j). by rewrite list_lookup_delete_lt.
        * assert (j ≠ index) as Hne.
          { intros ->. rewrite Hi in Hj. injection Hj as <-. done. }
          apply (list_elem_of_lookup_2 _ (j - 1)). rewrite list_lookup_delete_ge by lia.
          by replace (S (j - 1)) with j by lia. }
  unfold getBlockedDomain. destruct (URL_hostname url) as [h|]; [|by case_bool_decide].
  apply option_eq_Some. intros d.
  rewrite (first_blocked_valid _ _ _ (editor_ok_valid _ Hok')).
  assert (first_blocked (toLowerCase h) (blockedSites st) = Some d ∧ d ≠ site_domain site ↔
          ∃ s, s ∈ blockedSites st' ∧ rule_matches (toLowerCase h) s ∧ site_domain s = d)
    as <-.
  { rewrite (first_blocked_valid _ _ _ (editor_ok_valid _ Hok)). split.
    - intros [(s & Hin & [He Hm] & <-) Hd]. exists s. split_and!; try done.
      by apply Hmem.
    - intros (s & Hin & [He Hm] & <-).
      destruct (proj1 (Hmem s) (conj Hin He)) as (Hin' & _ & Hd).
      split; [|done]. by exists s. }
  case_bool_decide as Hb.
  - rewrite Hb. split; [intros [[= <-] ?]; done|done].
  - split; [by intros [? _]|]. intros Hd. split; [done|]. intros ->. done.
Qed.

(** X20. On settings the editor keeps, the verdict does not depend on the
    order of the rules and has no exception for an empty domain:
    [shouldBlockTab] reports blocked exactly when the master switch is on,
    some enabled rule has the host of the URL as its domain or a
    subdomain of it, and the ledger holds no live entry for the domain of
    that rule. *)
Theorem shouldBlockTab_editor_settings (url : string) (now : Z) (w : World)
    (st : Settings) :
  settings (storage w) = Some st →
  editor_ok st →
  ∃ status,
    result_of (shouldBlockTab URL_hostname url now) w = Returned status ∧
    (shouldBlock status = true ↔
     enabled st = true ∧
     ∃ h site, URL_hostname url = Some h ∧ site ∈ blockedSites st ∧
               rule_matches (toLowerCase h) site ∧
               ¬ live (ledger w) (site_domain site) now).
Proof.
  intros Hst Hok. eexists. split; [apply shouldBlockTab_result|].
  rewrite Hst. pose proof (editor_ok_valid _ Hok) as Hvalid.
  destruct (enabled st); simpl; [|split; [done|by intros [? _]]].
  unfold getBlockedDomain.
  destruct (URL_hostname url) as [h|]; [|split; [done|by intros (_ & ? & ? & ? & _)]].
  destruct (first_blocked (toLowerCase h) (blockedSites st)) as [d|] eqn:Hfb.
  - pose proof Hfb as (site & Hin & Hm & <-)%(first_blocked_valid _ _ _ Hvalid).
    assert (site_domain site ≠ "") as Hne.
    { intros He. rewrite Forall_forall in Hvalid. specialize (Hvalid site Hin).
      rewrite He in Hvalid. vm_compute in Hvalid. discriminate. }
    rewrite bool_decide_eq_false_2 by done.
    assert (∀ site', site' ∈ blockedSites st → rule_matches (toLowerCase h) site' →
                     site_domain site' = site_domain site) as Hsame.
    { intros site' Hin' Hm'.
      assert (first_blocked (toLowerCase h) (blockedSites st) = Some (site_domain site'))
        as Hfb' by (apply (first_blocked_valid _ _ _ Hvalid); by exists site').
      congruence. }
    destruct (ledger w !! site_domain site) as [timer|] eqn:Hl.
    + case_bool_decide as Hlive; simpl.
      * split; [done|]. intros (_ & h' & site' & [= <-] & Hin' & Hm' & Hnl).
        destruct Hnl. rewrite (Hsame site' Hin' Hm'). exists timer. split; [done|lia].
      * split; [|done]. intros _. split; [done|]. exists h, site.
        split_and!; try done. intros (timer' & Ht & Hlt). rewrite Hl in Ht.
        injection Ht as <-. lia.
    + simpl. split; [|done]. intros _. split; [done|]. exists h, site.
      split_and!; try done. intros (timer' & Ht & _). by rewrite Hl in Ht.
  - split; [done|]. intros (_ & h' & site' & [= <-] & Hin' & Hm' & _).
    apply first_blocked_None in Hfb. rewrite Forall_forall in Hfb.
    by destruct (Hfb site' Hin').
Qed.

End EditorAndMatcher.



(** ** The lock decision on the rules the extension stores *)

Section LockDecisionOnStoredRules.
Variable URL_hostname : string → option string.

(** Among domains that [isValidDomain] accepts, the first enabled rule
    that matches a host and any enabled rule that matches it have the
    same domain. *)
Lemma first_match_some_rule (h : string) (sites : list BlockedSite) (P : string → Prop) :
  Forall (λ site, isValidDomain (site_domain site) = true) sites →
  (∃ site, first_match h sites site ∧ P (site_domain site)) ↔
  (∃ site, site ∈ sites ∧ rule_matches h site ∧ P (site_domain site)).
Proof.
  intros Hvalid. split.
  - intros (site & Hf & HP).
    assert (first_blocked h sites = Some (site_domain site)) as Hfb
      by (apply first_blocked_Some; by exists site).
    apply (first_blocked_valid _ _ _ Hvalid) in Hfb as (site' & Hin & Hm & Hd).
    exists site'. by rewrite Hd.
  - intros (site & Hin & Hm & HP).
    assert (first_blocked h sites = Some (site_domain site)) as Hfb
      by (apply (first_blocked_valid _ _ _ Hvalid); by exists site).
    apply first_blocked_Some in Hfb as (site' & Hf & Hd).
    exists site'. by rewrite <- Hd.
Qed.

(** C1. For every URL, every instant and every stored state whose rules
    have a domain (the defaults and every rule the popup adds do),
    [shouldBlockTab] returns normally and reports blocked exactly when
    settings are stored with the global flag set, the lowercased hostname
    of the URL matches an enabled rule (the first such rule in list
    order), and the ledger holds no live entry for the domain of that
    rule. On settings the popup keeps, whose domains [isValidDomain]
    accepts, this is: the flag is set, the hostname matches some enabled
    rule, and no live entry exists for the domain of that rule. When no
    settings are stored, the flag is off or no rule matches, the answer is
    not-blocked and the only key read from the store is [settings]: the
    ledger is not consulted. *)
Theorem shouldBlockTab_blocks_iff (url : string) (now : Z) (w : World) :
  (∀ st, settings (storage w) = Some st →
         Forall (λ site, site_domain site ≠ "") (blockedSites st)) →
  (∃ status, result_of (shouldBlockTab URL_hostname url now) w = Returned status ∧
     (shouldBlock status = true ↔
      ∃ st h site,
        settings (storage w) = Some st ∧ enabled st = true ∧
        URL_hostname url = Some h ∧
        first_match (toLowerCase h) (blockedSites st) site ∧
        ¬ live (ledger w) (site_domain site) now) ∧
     (∀ st, settings (storage w) = Some st → editor_ok st →
        (shouldBlock status = true ↔
         enabled st = true ∧
         ∃ h site, URL_hostname url = Some h ∧ site ∈ blockedSites st ∧
                   rule_matches (toLowerCase h) site ∧
                   ¬ live (ledger w) (site_domain site) now))) ∧
  ((settings (storage w) = None ∨
    ∃ st, settings (storage w) = Some st ∧
          (enabled st = false ∨
           getBlockedDomain URL_hostname url (blockedSites st) = None)) →
   shouldBlockTab URL_hostname url now w = (Returned not_blocked, log_read "settings" w)).
Proof.
  intros Hne.
  destruct (shouldBlockTab_verdict URL_hostname url now w)
    as [(status & Hr & Hiff) Hnot].
  split; [|exact Hnot].
  exists status. split; [exact Hr|].
  assert (shouldBlock status = true ↔
          ∃ st h site,
            settings (storage w) = Some st ∧ enabled st = true ∧
            URL_hostname url = Some h ∧
            first_match (toLowerCase h) (blockedSites st) site ∧
            ¬ live (ledger w) (site_domain site) now) as Hfirst.
  { rewrite Hiff. split.
    - intros (st & h & site & ? & ? & ? & ? & _ & ?). by exists st, h, site.
    - intros (st & h & site & Hst & Hen & Hh & Hf & Hl). exists st, h, site.
      split_and!; try done.
      specialize (Hne st Hst). rewrite Forall_forall in Hne. apply Hne.
      destruct Hf as (pre & post & -> & _).
      apply elem_of_app. right. apply elem_of_cons. by left. }
  split; [exact Hfirst|].
  intros st Hst Hok. rewrite Hfirst.
  pose proof (editor_ok_valid _ Hok) as Hvalid. split.
  - intros (st' & h & site & Hst' & Hen & Hh & Hf & Hl).
    assert (st' = st) as -> by congruence.
    split; [done|]. exists h.
    destruct (proj1 (first_match_some_rule (toLowerCase h) (blockedSites st)
                       (λ d, ¬ live (ledger w) d now) Hvalid))
      as (site' & Hin & Hm & Hl'); [by exists site|].
    by exists site'.
  - intros (Hen & h & site & Hh & Hin & Hm & Hl).
    destruct (proj2 (first_match_some_rule (toLowerCase h) (blockedSites st)
                       (λ d, ¬ live (ledger w) d now) Hvalid))
      as (site' & Hf & Hl'); [by exists site|].
    by exists st, h, site'.
Qed.

End LockDecisionOnStoredRules.

(** ** The countdown text *)

Lemma below_sixty (P : Z → bool) :
  forallb P (seqZ 0 60) = true → ∀ k, 0 ≤ k < 60 → P k = true.
Proof.
  intros H k Hk. rewrite forallb_forall in H. apply H.
  apply list_elem_of_In, elem_of_seqZ. lia.
Qed.

Lemma padStart2_length_table :
  forallb (λ k : Z, (String.length (padStart2 (pretty k)) =? 2)%nat &&
                    (String.length (pretty k) <=? 2)%nat) (seqZ 0 60) = true.
Proof. vm_compute. reflexivity. Qed.

Lemma padStart2_length k :
  0 ≤ k < 60 →
  String.length (padStart2 (pretty k)) = 2%nat ∧ (String.length (pretty k) ≤ 2)%nat.
Proof.
  intros Hk. pose proof (below_sixty _ padStart2_length_table k Hk) as H.
  cbv beta in H. apply andb_true_iff in H as [H1 H2].
  apply Nat.eqb_eq in H1. apply Nat.leb_le in H2. done.
Qed.

Lemma padStart2_inj_table :
  forallb (λ i : Z,
    forallb (λ j : Z, implb (String.eqb (padStart2 (pretty i)) (padStart2 (pretty j)))
                            (i =? j)) (seqZ 0 60)) (seqZ 0 60) = true.
Proof. vm_compute. reflexivity. Qed.

Lemma padStart2_inj k1 k2 :
  0 ≤ k1 < 60 → 0 ≤ k2 < 60 →
  padStart2 (pretty k1) = padStart2 (pretty k2) → k1 = k2.
Proof.
  intros H1 H2 Heq.
  pose proof (below_sixty _ padStart2_inj_table k1 H1) as H. cbv beta in H.
  pose proof (below_sixty _ H k2 H2) as H'. cbv beta in H'.
  rewrite Heq, String.eqb_refl in H'. by apply Z.eqb_eq.
Qed.

Lemma formatDuration_parts (seconds : Z) :
  0 ≤ seconds →
  ∃ h m c,
    0 ≤ h ∧ 0 ≤ m < 60 ∧ 0 ≤ c < 60 ∧ seconds = h * 3600 + m * 60 + c ∧
    formatDuration seconds =
      if bool_decide (h > 0)
      then pretty h +:+ ":" +:+ padStart2 (pretty m) +:+ ":" +:+ padStart2 (pretty c)
      else pretty m +:+ ":" +:+ padStart2 (pretty c).
Proof.
  intros Hs. exists (seconds / 3600), (Z.rem seconds 3600 / 60), (Z.rem seconds 60).
  rewrite !Z.rem_mod_nonneg by lia.
  split_and!; try (Z.to_euclidean_division_equations; lia).
  unfold formatDuration. by rewrite !Z.rem_mod_nonneg by lia.
Qed.

Lemma string_app_inj_suffix (a1 a2 b1 b2 : string) :
  String.length b1 = String.length b2 →
  a1 +:+ b1 = a2 +:+ b2 → a1 = a2 ∧ b1 = b2.
Proof.
  intros Hl H. apply (f_equal chars) in H. rewrite !chars_app in H.
  apply app_inj_2 in H as [H1 H2]; [|by rewrite !chars_length].
  split; by apply chars_inj.
Qed.

Lemma string_app_length (a b : string) :
  String.length (a +:+ b) = (String.length a + String.length b)%nat.
Proof. by rewrite <- !chars_length, chars_app, length_app. Qed.

(** X22. The countdown text determines the time: [formatDuration] gives
    different texts for different non-negative numbers of seconds, across
    the form with hours and the form without. *)
Theorem formatDuration_injective (seconds1 seconds2 : Z) :
  0 ≤ seconds1 → 0 ≤ seconds2 →
  formatDuration seconds1 = formatDuration seconds2 →
  seconds1 = seconds2.
Proof.
  intros (h1 & m1 & c1 & Hh1 & Hm1 & Hc1 & -> & ->)%formatDuration_parts
         (h2 & m2 & c2 & Hh2 & Hm2 & Hc2 & -> & ->)%formatDuration_parts.
  destruct (padStart2_length m1 Hm1) as [Lm1 Lm1'].
  destruct (padStart2_length m2 Hm2) as [Lm2 Lm2'].
  destruct (padStart2_length c1 Hc1) as [Lc1 _].
  destruct (padStart2_length c2 Hc2) as [Lc2 _].
  repeat case_bool_decide.
  - intros E.
    apply (string_app_inj_suffix (pretty h1) (pretty h2)) in E as [Eh E];
      [|rewrite !string_app_length; simpl; lia].
    apply (inj pretty) in Eh as ->.
    cbn [String.append] in E. injection E as E.
    apply (string_app_inj_suffix (padStart2 (pretty m1)) (padStart2 (pretty m2)))
      in E as [Em E]; [|rewrite !string_app_length; simpl; lia].
    cbn [String.append] in E. injection E as E.
    apply padStart2_inj in Em as ->; [|done..].
    apply padStart2_inj in E as ->; [|done..]. done.
  - intros E. apply (f_equal String.length) in E.
    rewrite !string_app_length in E. simpl in E. lia.
  - intros E. apply (f_equal String.length) in E.
    rewrite !string_app_length in E. simpl in E. lia.
  - intros E.
    apply (string_app_inj_suffix (pretty m1) (pretty m2)) in E as [Em E];
      [|rewrite !string_app_length; simpl; lia].
    cbn [String.append] in E. injection E as E.
    apply (inj pretty) in Em as ->.
    apply padStart2_inj in E as ->; [|done..]. lia.
Qed.

(** ** Examples for the further properties *)

Lemma eviction_keeps_verdict_witness :
  31000 ≤ 31000 ∧
  result_of (shouldBlockTab example_URL_hostname "https://www.youtube.com/watch" 31000)
            (world_after (cleanupExpiredTimers 31000) youtube_unlocked) =
  result_of (shouldBlockTab example_URL_hostname "https://www.youtube.com/watch" 31000)
            youtube_unlocked.
Proof.
  assert (31000 ≤ 31000) as H by lia.
  split; [exact H|].
  destruct (eviction_keeps_verdict example_URL_hostname "https://www.youtube.com/watch"
              31000 youtube_unlocked) as [Hsweep _].
  exact (Hsweep 31000 H).
Defined.



Lemma onInstalled_effect_witness :
  settings (storage fresh_profile) = None ∧
  settings (storage (world_after (onInstalled 1000) fresh_profile)) = Some DEFAULT_SETTINGS ∧
  ledger (world_after (onInstalled 1000) fresh_profile) = ∅.
Proof.
  split; [reflexivity|].
  destruct (onInstalled_effect 1000 fresh_profile) as (_ & H & _).
  exact (H eq_refl).
Defined.

Lemma saveSettings_getSettings_witness :
  let st := {| enabled := false; unlockPhrase := "open sesame";
               blockedSites := []; volumeThresholds := volumeThresholds DEFAULT_SETTINGS |} in
  let events := [(Ev_installed, at_instant 10);
                 (Ev_message (Msg_unlockSite "x.com" 60),
                  {| clock_now := 20; clock_second := 21; clock_third := 22 |});
                 (Ev_sweep, at_instant 30)] in
  Forall (λ e : Event * Clock, saves_settings e.1 = false) events ∧
  result_of (handleMessage example_URL_hostname Msg_getSettings (at_instant 40))
    (run example_URL_hostname events
       (world_after (handleMessage example_URL_hostname (Msg_saveSettings st)
                                   (at_instant 5))
                    fresh_profile)) = Returned (Resp_settings st).
Proof.
  intros st events.
  assert (Forall (λ e : Event * Clock, saves_settings e.1 = false) events) as H
    by (repeat constructor).
  split; [exact H|].
  destruct (saveSettings_getSettings example_URL_hostname st (at_instant 5)
              (at_instant 40) events fresh_profile H)
    as [Hget _].
  exact Hget.
Defined.

Lemma notifyTabsForDomain_recipients_witness :
  settings (storage youtube_unlocked) = Some DEFAULT_SETTINGS ∧
  sent (world_after (notifyTabsForDomain example_URL_hostname "youtube.com"
                       hideBlockOverlay 30) youtube_unlocked) =
  [(1, {| msg_action := hideBlockOverlay; msg_domain := "youtube.com";
          msg_remainingTime := 30 |})].
Proof.
  split; [reflexivity|].
  destruct (notifyTabsForDomain_recipients example_URL_hostname DEFAULT_SETTINGS
              "youtube.com" hideBlockOverlay 30 youtube_unlocked eq_refl)
    as (_ & H & _).
  rewrite H. reflexivity.
Defined.

Lemma validatePhrase_by_length_witness :
  (String.length (trim (toLowerCase "  LOSER ")) < 8)%nat ∧
  validatePhrase "  LOSER " [] (Some "youtube.com") = WrongPhrase "  LOSER ".
Proof.
  assert (String.length (trim (toLowerCase "  LOSER ")) < 8)%nat as H
    by (vm_compute; lia).
  split; [exact H|].
  destruct (validatePhrase_by_length "  LOSER " [] (Some "youtube.com")) as [Hshort _].
  exact (Hshort H).
Defined.

Lemma first_voice_unlock_thirty_seconds_witness :
  isListening (audio blocked_page) = false ∧
  frame_requests (pending blocked_page) = 0%nat ∧
  is_Some (overlay_node (dom blocked_page)) ∧
  isMatch "I'm a loser" = true ∧
  unlock_messages (pending (speech_result "I'm a loser"
    (page_run (microphone_settled true (-3)%Q (voice_click true blocked_page))
              (Pg_animation_frame <$> [-2; -1]%Q)))) =
  [(Some "youtube.com", 30)].
Proof.
  assert (is_Some (overlay_node (dom blocked_page))) as Ho by (eexists; reflexivity).
  assert (isMatch "I'm a loser" = true) as Hm by (vm_compute; reflexivity).
  split; [reflexivity|]. split; [reflexivity|]. split; [exact Ho|]. split; [exact Hm|].
  destruct (first_voice_unlock_thirty_seconds blocked_page (-3)%Q [-2; -1]%Q "I'm a loser"
              eq_refl eq_refl Ho Hm) as (_ & _ & _ & H).
  exact H.
Defined.

Lemma second_voice_unlock_is_measured_witness :
  "hello" ≠ "" ∧ isMatch "hello" = false ∧ isMatch "I'm a loser" = true ∧
  volumeSamples (audio
    (page_run
       (microphone_settled true (-3)%Q
          (voice_click true
             (timeout_fired
                (speech_result "hello"
                   (page_run (microphone_settled true (-20)%Q (voice_click true blocked_page))
                             (Pg_animation_frame <$> [-20]%Q))))))
       (Pg_animation_frame <$> [-2; -1]%Q))) = [-3; -2; -1]%Q.
Proof.
  assert ("hello" ≠ "") as Hne by discriminate.
  assert (isMatch "hello" = false) as Hw by (vm_compute; reflexivity).
  assert (isMatch "I'm a loser" = true) as Hm by (vm_compute; reflexivity).
  split; [exact Hne|]. split; [exact Hw|]. split; [exact Hm|].
  destruct (second_voice_unlock_is_measured blocked_page (-20)%Q (-3)%Q [-20]%Q [-2; -1]%Q
              "hello" "I'm a loser" eq_refl eq_refl eq_refl
              (ex_intro _ _ eq_refl) Hne Hw Hm) as (_ & _ & H & _).
  exact H.
Defined.

Lemma countdown_reblocks_witness :
  isOverlayVisible page_loaded = false ∧ overlay_node (dom page_loaded) = None ∧
  Z.max 3 1 ≤ Z.of_nat 3 ∧
  isOverlayVisible (Nat.iter 3 countdown_tick (startCountdownDisplay 3 page_loaded)) = true.
Proof.
  assert (Z.max 3 1 ≤ Z.of_nat 3) as Hk by (simpl; lia).
  split; [reflexivity|]. split; [reflexivity|]. split; [exact Hk|].
  destruct (countdown_reblocks page_loaded 3 3 eq_refl eq_refl) as [_ H].
  destruct (H Hk) as [Hv _]. exact Hv.
Defined.

Lemma removed_overlay_stays_removed_witness :
  let events :=
    [Pg_message {| msg_action := showBlockOverlay; msg_domain := "youtube.com";
                   msg_remainingTime := 0 |};
     Pg_visibility_response {| shouldBlock := true; status_domain := Some "youtube.com";
                               status_remainingTime := Some 0 |};
     Pg_countdown_tick; Pg_overlay_removed] in
  isOverlayVisible blocked_page = true ∧
  never_hides (overlay_removed blocked_page) events = true ∧
  overlay_node (dom (page_run (overlay_removed blocked_page) events)) = None.
Proof.
  intros events.
  assert (never_hides (overlay_removed blocked_page) events = true) as Hn by reflexivity.
  split; [reflexivity|]. split; [exact Hn|].
  destruct (removed_overlay_stays_removed blocked_page events eq_refl Hn) as [H _].
  exact H.
Defined.

Lemma page_listens_only_under_overlay_witness :
  let events :=
    [Pg_init_response {| shouldBlock := true; status_domain := Some "youtube.com";
                         status_remainingTime := None |};
     Pg_voice_click true;
     Pg_message {| msg_action := hideBlockOverlay; msg_domain := "youtube.com";
                   msg_remainingTime := 30 |};
     Pg_microphone_settled true (-20)%Q] in
  isOverlayVisible (page_run page_loaded events) = false ∧
  isListening (audio (page_run page_loaded events)) = false.
Proof.
  intros events.
  assert (isOverlayVisible (page_run page_loaded events) = false) as Hv by reflexivity.
  split; [exact Hv|].
  destruct (page_listens_only_under_overlay events) as [H _].
  destruct (H Hv) as (_ & _ & _ & Hl & _). exact Hl.
Defined.

Lemma voice_unlock_cycle_witness :
  overlayElement blocked_page = true ∧
  unlock_requests (pending blocked_page) = [] ∧
  timeouts (pending blocked_page) = [] ∧
  isMatch "I'm a loser" = true ∧
  ∃ mapping,
    getVolumeDurationMapping (calculateAverageVolume (volumeSamples (audio blocked_page)))
      = Some mapping ∧
    unlock_messages (pending (speech_result "I'm a loser" blocked_page)) =
      [(Some "youtube.com", mapping_duration mapping)].
Proof.
  assert (isMatch "I'm a loser" = true) as Hm by (vm_compute; reflexivity).
  split; [reflexivity|]. split; [reflexivity|]. split; [reflexivity|]. split; [exact Hm|].
  destruct (voice_unlock_cycle blocked_page (createOverlay (Some "youtube.com"))
              "I'm a loser" 0 eq_refl eq_refl eq_refl eq_refl Hm)
    as (mapping & Hmap & H & _).
  exists mapping. split; [exact Hmap|exact H].
Defined.

Lemma onUpdated_synchronises_page_witness :
  "https://www.youtube.com/watch" ≠ "" ∧
  ∃ status message,
    result_of (onUpdated example_URL_hostname true (Some "https://www.youtube.com/watch") 0)
              installed = Returned (Some message) ∧
    isOverlayVisible (page_step page_loaded (Pg_navigation message)) = shouldBlock status.
Proof.
  assert ("https://www.youtube.com/watch" ≠ "") as Hne by discriminate.
  split; [exact Hne|].
  destruct (onUpdated_synchronises_page example_URL_hostname
              "https://www.youtube.com/watch" 0 installed page_loaded Hne)
    as [(status & message & _ & Hm & _ & Hv & _) _].
  exists status, message. split; [exact Hm|exact Hv].
Defined.

Lemma isValidDomain_shape_witness :
  isValidDomain "youtube.com" = true ∧
  length (filter (λ c, c = "."%char) (chars "youtube.com")) = 1%nat.
Proof.
  assert (isValidDomain "youtube.com" = true) as H by (vm_compute; reflexivity).
  split; [exact H|].
  destruct (isValidDomain_shape "youtube.com") as [_ Hshape].
  destruct (Hshape H) as [Hdot _]. exact Hdot.
Defined.

Lemma popup_keeps_rules_well_formed_witness :
  let actions := [Act_addSite " https://www.Example.com/watch?v=1 ";
                  Act_siteToggle 0 false; Act_siteDelete 2 true;
                  Act_addSite "mail.google.com"] in
  editor_ok DEFAULT_SETTINGS ∧ editor_ok (popup_run actions DEFAULT_SETTINGS).
Proof.
  intros actions.
  destruct (popup_keeps_rules_well_formed actions DEFAULT_SETTINGS) as [Hd H].
  split; [exact Hd|]. destruct (H Hd) as [Hok _]. exact Hok.
Defined.

Lemma switching_rule_off_witness :
  let off := {| enabled := true; unlockPhrase := "i'm a loser";
                blockedSites :=
                  <[1%nat := {| site_domain := "youtube.com"; site_enabled := false;
                                site_name := "YouTube" |}]> DEFAULT_BLOCKED_SITES;
                volumeThresholds := volumeThresholds DEFAULT_SETTINGS |} in
  editor_ok DEFAULT_SETTINGS ∧
  handleSiteToggle 1 false DEFAULT_SETTINGS = Some off ∧
  getBlockedDomain example_URL_hostname "https://www.youtube.com/watch" (blockedSites off)
    = None.
Proof.
  intros off.
  assert (handleSiteToggle 1 false DEFAULT_SETTINGS = Some off) as Ht by reflexivity.
  split; [exact editor_ok_default|]. split; [exact Ht|].
  rewrite (switching_rule_off example_URL_hostname DEFAULT_SETTINGS off 1
             {| site_domain := "youtube.com"; site_enabled := true; site_name := "YouTube" |}
             "https://www.youtube.com/watch" editor_ok_default eq_refl (or_introl Ht)).
  reflexivity.
Defined.

Lemma shouldBlockTab_blocks_iff_witness :
  (∀ st, settings (storage installed) = Some st →
         Forall (λ site, site_domain site ≠ "") (blockedSites st)) ∧
  ∃ status,
    result_of (shouldBlockTab example_URL_hostname "https://www.youtube.com/watch" 0)
              installed = Returned status ∧
    shouldBlock status = true.
Proof.
  assert (∀ st, settings (storage installed) = Some st →
                Forall (λ site, site_domain site ≠ "") (blockedSites st)) as Hne.
  { intros st [= <-]. repeat constructor; discriminate. }
  split; [exact Hne|].
  destruct (shouldBlockTab_blocks_iff example_URL_hostname
              "https://www.youtube.com/watch" 0 installed Hne)
    as [(status & Hr & _) _].
  exists status. split; [exact Hr|].
  vm_compute in Hr. injection Hr as <-. reflexivity.
Defined.

Lemma shouldBlockTab_editor_settings_witness :
  settings (storage installed) = Some DEFAULT_SETTINGS ∧ editor_ok DEFAULT_SETTINGS ∧
  ∃ status,
    result_of (shouldBlockTab example_URL_hostname "https://www.youtube.com/watch" 0)
              installed = Returned status.
Proof.
  split; [reflexivity|]. split; [exact editor_ok_default|].
  destruct (shouldBlockTab_editor_settings example_URL_hostname
              "https://www.youtube.com/watch" 0 installed DEFAULT_SETTINGS eq_refl
              editor_ok_default) as (status & H & _).
  exists status. exact H.
Defined.


Lemma formatDuration_injective_witness :
  0 ≤ 90 ∧ 0 ≤ 60 + 30 ∧ formatDuration 90 = formatDuration (60 + 30) ∧ 90 = 60 + 30.
Proof.
  assert (0 ≤ 90) as H1 by lia. assert (0 ≤ 60 + 30) as H2 by lia.
  assert (formatDuration 90 = formatDuration (60 + 30)) as H by reflexivity.
  split; [exact H1|]. split; [exact H2|]. split; [exact H|].
  exact (formatDuration_injective 90 (60 + 30) H1 H2 H).
Defined.
